(** * codesafe: the collaboration server, embedded and verified

    A shallow embedding of the backend of the repository
    ([backend/src/models.ts], which also carries the server entry point, and
    [backend/src/persistence.ts]) together with the properties of its
    room registry, persist scheduler, connection handler, REST permission
    endpoints and persistence gateway. *)

From Stdlib Require Import ZArith NArith List String Ascii Lia Bool.
From Stdlib.Strings Require Import Byte.
From stdpp Require Import base gmap sets list strings.

Set Warnings "-register-all,-clear-no-such-hyp".
Local Open Scope N_scope.

(** ** JavaScript strings

    A JavaScript string is a sequence of UTF-16 code units. *)

Abbreviation jsstring := (list N) (only parsing).

Definition lit (s : string) : jsstring :=
  map (fun c => N_of_ascii c) (list_ascii_of_string s).
Arguments lit : simpl never.

(** [WhiteSpace] and [LineTerminator] code units, the ones
    [String.prototype.trim] strips. *)
Definition isWhiteSpace (c : N) : bool :=
  bool_decide (c ∈ [9; 10; 11; 12; 13; 32; 160; 5760; 8232; 8233; 8239; 8287; 12288; 65279])
  || ((8192 <=? c) && (c <=? 8202)).

Fixpoint trimStart (s : jsstring) : jsstring :=
  match s with
  | [] => []
  | c :: rest => if isWhiteSpace c then trimStart rest else s
  end.

Definition trimEnd (s : jsstring) : jsstring := rev (trimStart (rev s)).

Definition trim (s : jsstring) : jsstring := trimEnd (trimStart s).

(** [parts.join(sep)] *)
Fixpoint join (sep : jsstring) (parts : list jsstring) : jsstring :=
  match parts with
  | [] => []
  | [p] => p
  | p :: rest => p ++ sep ++ join sep rest
  end.

(** [s.split(sep)] for a one-character separator; [current] collects the
    part being read, last character first. *)
Fixpoint splitOn (sep : N) (current : jsstring) (s : jsstring) : list jsstring :=
  match s with
  | [] => [rev current]
  | c :: rest =>
    if c =? sep then rev current :: splitOn sep [] rest
    else splitOn sep (c :: current) rest
  end.

(** A string is falsy exactly when it is empty. *)
Definition truthy (s : jsstring) : bool :=
  match s with [] => false | _ => true end.

(** ** Roles *)

Inductive Role := viewer | editor | admin.

Global Instance Role_eq_dec : EqDecision Role.
Proof. solve_decision. Defined.

Definition getRoleRank (role : Role) : nat :=
  match role with
  | viewer => 0
  | editor => 1
  | admin => 2
  end%nat.

Definition roleName (r : Role) : jsstring :=
  match r with
  | viewer => lit "viewer"
  | editor => lit "editor"
  | admin => lit "admin"
  end.

(** [isRole] of persistence.ts, returning the role it recognises. *)
Definition isRole (value : jsstring) : option Role :=
  if decide (value = lit "viewer") then Some viewer
  else if decide (value = lit "editor") then Some editor
  else if decide (value = lit "admin") then Some admin
  else None.

(** ** Plain JavaScript values (results of [JSON.parse], token claims)

    Numbers are carried around and never computed with, so an integer
    stands for them. *)

Inductive Json :=
  | JNull
  | JBool (b : bool)
  | JNum (n : Z)
  | JStr (s : jsstring)
  | JArr (items : list Json)
  | JObj (fields : list (jsstring * Json)).

(** Property read [value.key] on an object; [None] is [undefined]. *)
Fixpoint assoc (key : jsstring) (fields : list (jsstring * Json)) : option Json :=
  match fields with
  | [] => None
  | (k, v) :: rest => if decide (k = key) then Some v else assoc key rest
  end.

(** An object literal with a repeated key keeps the last value. *)
Definition getField (key : jsstring) (value : Json) : option Json :=
  match value with
  | JObj fields => assoc key (rev fields)
  | _ => None
  end.

(** ** Yjs shared types *)

Inductive YValue :=
  | YNull
  | YBool (b : bool)
  | YNum (n : Z)
  | YStr (s : jsstring)
  | YArray (items : list jsstring)
  | YMap (entries : gmap jsstring YValue).

(** The named shared containers of a room's [Y.Doc] that the server reads.
    [other] stands for the containers the server never inspects. *)
Record Doc := {
  editor_files : gmap jsstring jsstring;
  file_tree_nodes : gmap jsstring (gmap jsstring YValue);
  file_tree_roots : list jsstring;
  editor_suggestions : gmap jsstring (gmap jsstring YValue);
  other : gmap jsstring YValue;
}.

Definition emptyDoc : Doc :=
  {| editor_files := ∅; file_tree_nodes := ∅; file_tree_roots := [];
     editor_suggestions := ∅; other := ∅ |}.

(** ** Path derivation ([sanitizePathSegment], [buildFilePathFromTree]) *)

(** The character class of the regular expression in [sanitizePathSegment]:
    backslash, slash, colon, star, question mark, double quote, angle brackets
    and the vertical bar. *)
Definition forbiddenInPath (c : N) : bool :=
  bool_decide (c ∈ [92; 47; 58; 42; 63; 34; 60; 62; 124]).

Definition replaceForbidden (segment : jsstring) : jsstring :=
  map (fun c => if forbiddenInPath c then 95 else c) segment.

Definition sanitizePathSegment (segment : jsstring) : jsstring :=
  let cleaned := trim (replaceForbidden segment) in
  if (0 <? length cleaned)%nat then cleaned else lit "untitled".

(** How one run of the [while] loop of [buildFilePathFromTree] can end. *)
Inductive LoopExit :=
  | ReturnNull
  | LoopDone (pathSegments : list jsstring)
  | OutOfFuel.

Fixpoint walkLoop (fuel : nat) (treeNodes : gmap jsstring (gmap jsstring YValue))
    (visited : gset jsstring) (pathSegments : list jsstring)
    (currentId : jsstring) : LoopExit :=
  match fuel with
  | O => OutOfFuel
  | S fuel' =>
    if negb (truthy currentId) then LoopDone pathSegments
    else if bool_decide (currentId ∈ visited) then ReturnNull
    else
      let visited' := {[currentId]} ∪ visited in
      match treeNodes !! currentId with
      | None =>
        if (length pathSegments =? 0)%nat then ReturnNull
        else LoopDone pathSegments
      | Some node =>
        match node !! lit "name" with
        | Some (YStr nodeName) =>
          let pathSegments' := pathSegments ++ [sanitizePathSegment nodeName] in
          match node !! lit "parentId" with
          | Some (YStr parentId) =>
            walkLoop fuel' treeNodes visited' pathSegments' parentId
          | Some YNull => LoopDone pathSegments'
          | _ => ReturnNull
          end
        | _ => ReturnNull
        end
      end
  end.

(** Every iteration that continues adds a fresh key of [treeNodes] to
    [visited], so one more iteration than the map has keys always suffices
    ([walkLoop_terminates] below). *)
Definition buildFilePathFromTree (fileId : jsstring)
    (treeNodes : gmap jsstring (gmap jsstring YValue)) : option jsstring :=
  match walkLoop (S (size treeNodes)) treeNodes ∅ [] fileId with
  | LoopDone pathSegments =>
    if (length pathSegments =? 0)%nat then None
    else Some (join (lit "/") (rev pathSegments))
  | ReturnNull => None
  | OutOfFuel => None
  end.

(** ** The document store (the mongoose models of models.ts) *)

Record FileRecord := {
  file_project_id : jsstring;
  file_path : jsstring;
  file_content : jsstring;
}.

Record SuggestionRecord := {
  suggestion_project_id : jsstring;
  suggestion_file_id : jsstring;
  suggestion_creator_id : jsstring;
  suggestion_text : jsstring;
  suggestion_votes : gmap jsstring Z;
}.

(** [permissions] is a [Map] of [String]: the schema does not restrict the
    values to role names. *)
Record ProjectRecord := {
  project_name : jsstring;
  project_created_at : Z;
  project_updated_at : Z;
  project_permissions : gmap jsstring jsstring;
}.

Record UserRecord := {
  user_username : jsstring;
  user_avatar : jsstring;
  user_join_date : Z;
  user_role : Role;
}.

(** Each collection is keyed by [_id]. *)
Record Store := {
  projects : gmap jsstring ProjectRecord;
  files : gmap jsstring FileRecord;
  suggestions : gmap jsstring SuggestionRecord;
  users : gmap jsstring UserRecord;
}.

Definition emptyStore : Store :=
  {| projects := ∅; files := ∅; suggestions := ∅; users := ∅ |}.

(** The store calls made by persistence.ts, in the order of the source. *)
Inductive StoreOp :=
  | ProjectUpdateOne
  | ProjectFindById
  | FileFind
  | SuggestionFind
  | FileBulkWrite
  | FileDeleteMany
  | SuggestionBulkWrite
  | UserBulkWrite
  | SuggestionDeleteMany.

Global Instance StoreOp_eq_dec : EqDecision StoreOp.
Proof. solve_decision. Defined.

(** What the process cannot control: the configured URI, whether
    [mongoose.connect] succeeds, which store calls fail, and whether a lean
    query result presents a [Map]-typed field as a [Map] instance. *)
Record DbEnv := {
  MONGODB_URI : option jsstring;
  connectSucceeds : bool;
  opFails : StoreOp -> bool;
  leanKeepsMaps : bool;
}.

(** Module state of persistence.ts: the cached [dbConnectionPromise] (the
    boolean it resolves to) and the store behind the models. *)
Record Db := {
  dbConnectionPromise : option bool;
  store : Store;
}.

(** How an [async] function settles. *)
Inductive Outcome (A : Type) :=
  | Resolved (value : A)
  | Rejected (failed : StoreOp).
Arguments Resolved {A} value.
Arguments Rejected {A} failed.

(** An [async] function of persistence.ts: it threads the module state and
    either resolves or rejects. *)
Definition Async (A : Type) : Type := Db -> Db * Outcome A.

Definition resolve {A} (a : A) : Async A := fun db => (db, Resolved a).

Definition andThen {A B} (m : Async A) (k : A -> Async B) : Async B :=
  fun db =>
    match m db with
    | (db', Resolved a) => k a db'
    | (db', Rejected op) => (db', Rejected op)
    end.

Notation "'await' x ':=' m 'in' k" := (andThen m (fun x => k))
  (at level 10, x pattern, m at level 100, k at level 200, only parsing).

Section Persistence.

Variable env : DbEnv.

(** A store call: rejects when the environment makes it fail (leaving the
    store as it was), otherwise runs [f] on the store. *)
Definition storeCall {A} (op : StoreOp) (f : Store -> Store * A) : Async A :=
  fun db =>
    if opFails env op then (db, Rejected op)
    else let '(st, a) := f (store db) in
         ({| dbConnectionPromise := dbConnectionPromise db; store := st |}, Resolved a).

Definition ensureDbConnection : Async bool :=
  fun db =>
    match dbConnectionPromise db with
    | Some connected => (db, Resolved connected)
    | None =>
      let connected :=
        match MONGODB_URI env with
        | Some uri => if truthy uri then connectSucceeds env else false
        | None => false
        end in
      ({| dbConnectionPromise := Some connected; store := store db |},
       Resolved connected)
    end.

(** *** Store primitives *)

Definition setFiles (f : gmap jsstring FileRecord) (st : Store) : Store :=
  {| projects := projects st; files := f;
     suggestions := suggestions st; users := users st |}.

Definition setSuggestions (g : gmap jsstring SuggestionRecord) (st : Store) : Store :=
  {| projects := projects st; files := files st;
     suggestions := g; users := users st |}.

Definition setProjects (g : gmap jsstring ProjectRecord) (st : Store) : Store :=
  {| projects := g; files := files st;
     suggestions := suggestions st; users := users st |}.

Definition setUsers (g : gmap jsstring UserRecord) (st : Store) : Store :=
  {| projects := projects st; files := files st;
     suggestions := suggestions st; users := g |}.

(** [ProjectModel.updateOne({_id}, {$setOnInsert: ..., $set: ...}, {upsert})]:
    [onInsert] is the inserted record, [onUpdate] the [$set] part. *)
Definition upsertProject (projectId : jsstring) (onInsert : ProjectRecord)
    (onUpdate : ProjectRecord -> ProjectRecord) (st : Store) : Store :=
  match projects st !! projectId with
  | Some p => setProjects (<[projectId := onUpdate p]> (projects st)) st
  | None => setProjects (<[projectId := onInsert]> (projects st)) st
  end.

(** [Model.find({project_id})], as [(_id, record)] pairs. *)
Definition findByProject {R} (project_id : R -> jsstring) (projectId : jsstring)
    (coll : gmap jsstring R) : list (jsstring * R) :=
  filter (fun kv => project_id kv.2 = projectId) (map_to_list coll).

(** [Model.deleteMany({project_id, _id: {$nin: ids}})] *)
Definition deleteManyNotIn {R} (project_id : R -> jsstring) (projectId : jsstring)
    (ids : list jsstring) (coll : gmap jsstring R) : gmap jsstring R :=
  filter (fun kv => ¬ (project_id kv.2 = projectId ∧ kv.1 ∉ ids)) coll.

(** [Model.bulkWrite] of [updateOne] upserts filtered by [_id], each [$set]
    replacing every field of the record. *)
Definition bulkUpsert {R} (rows : list (jsstring * R))
    (coll : gmap jsstring R) : gmap jsstring R :=
  foldl (fun acc row => <[row.1 := row.2]> acc) coll rows.

(** *** [loadProjectState] *)


Definition newTreeNode (name kind : jsstring) (parentId : option jsstring) : gmap jsstring YValue :=
  <[lit "name" := YStr name]>
  (<[lit "kind" := YStr kind]>
  (<[lit "parentId" := match parentId with Some p => YStr p | None => YNull end]>
  (<[lit "children" := YArray []]> ∅))).

(** [pushUnique(yArray, value)] *)
Definition pushUnique (yArray : list jsstring) (value : jsstring) : list jsstring :=
  if bool_decide (value ∈ yArray) then yArray else yArray ++ [value].

(** Attach [childId] to its parent's [children] array when that is a
    [Y.Array], or to the root list when there is no parent. *)
Definition attachChild (parentId : option jsstring) (childId : jsstring)
    (doc : Doc) : Doc :=
  match parentId with
  | Some p =>
    match file_tree_nodes doc !! p with
    | Some parentNode =>
      match parentNode !! lit "children" with
      | Some (YArray children) =>
        {| editor_files := editor_files doc;
           file_tree_nodes :=
             <[p := <[lit "children" := YArray (pushUnique children childId)]> parentNode]>
               (file_tree_nodes doc);
           file_tree_roots := file_tree_roots doc;
           editor_suggestions := editor_suggestions doc;
           other := other doc |}
      | _ => doc
      end
    | None => doc
    end
  | None =>
    {| editor_files := editor_files doc;
       file_tree_nodes := file_tree_nodes doc;
       file_tree_roots := pushUnique (file_tree_roots doc) childId;
       editor_suggestions := editor_suggestions doc;
       other := other doc |}
  end.

Definition setTreeNode (id : jsstring) (node : gmap jsstring YValue) (doc : Doc) : Doc :=
  {| editor_files := editor_files doc;
     file_tree_nodes := <[id := node]> (file_tree_nodes doc);
     file_tree_roots := file_tree_roots doc;
     editor_suggestions := editor_suggestions doc;
     other := other doc |}.

(** [if (parentFolderId)]: [null] and the empty string are falsy. *)
Definition truthyId (id : option jsstring) : option jsstring :=
  match id with
  | Some p => if truthy p then Some p else None
  | None => None
  end.

(** The inner [for] loop over [folderParts]: [done] holds the folder names
    already walked (so [folderPath] is [done ++ [folderName]] joined). *)
Fixpoint loadFolders (done todo : list jsstring) (parentFolderId : option jsstring)
    (doc : Doc) : option jsstring * Doc :=
  match todo with
  | [] => (parentFolderId, doc)
  | folderName :: rest =>
    let folderPath := join (lit "/") (done ++ [folderName]) in
    let folderId := lit "folder:" ++ folderPath in
    let doc' :=
      match file_tree_nodes doc !! folderId with
      | Some _ => doc
      | None =>
        attachChild (truthyId parentFolderId) folderId
          (setTreeNode folderId (newTreeNode folderName (lit "folder") parentFolderId) doc)
      end in
    loadFolders (done ++ [folderName]) rest (Some folderId) doc'
  end.

Definition loadFile (file : jsstring * FileRecord) (doc : Doc) : Doc :=
  let fileId := file.1 in
  let content := file_content file.2 in
  let path := file_path file.2 in
  let parts := filter (fun part => (0 < length part)%nat) (splitOn 47 [] path) in
  let doc1 :=
    {| editor_files := <[fileId := content]> (editor_files doc);
       file_tree_nodes := file_tree_nodes doc;
       file_tree_roots := file_tree_roots doc;
       editor_suggestions := editor_suggestions doc;
       other := other doc |} in
  let folderParts := take (Nat.max 0 (length parts - 1)) parts in
  let '(parentFolderId, doc2) := loadFolders [] folderParts None doc1 in
  let fileName := if (0 <? length parts)%nat then List.last parts fileId else fileId in
  attachChild (truthyId parentFolderId) fileId
    (setTreeNode fileId (newTreeNode fileName (lit "file") parentFolderId) doc2).

Definition loadSuggestion (suggestion : jsstring * SuggestionRecord) (doc : Doc) : Doc :=
  let suggestionId := suggestion.1 in
  let fileId := suggestion_file_id suggestion.2 in
  let creatorId := suggestion_creator_id suggestion.2 in
  let text := suggestion_text suggestion.2 in
  if negb (truthy fileId) || negb (truthy creatorId) || negb (truthy text) then doc
  else
    let votesMap : gmap jsstring YValue :=
      if leanKeepsMaps env then YNum <$> suggestion_votes suggestion.2 else ∅ in
    let entry : gmap jsstring YValue :=
      <[lit "votes" := YMap votesMap]>
      (<[lit "authorName" := YStr (take 8 creatorId)]>
      (<[lit "authorId" := YStr creatorId]>
      (<[lit "text" := YStr text]>
      (<[lit "endLine" := YNum 1]>
      (<[lit "startLine" := YNum 1]>
      (<[lit "fileId" := YStr fileId]> ∅)))))) in
    {| editor_files := editor_files doc;
       file_tree_nodes := file_tree_nodes doc;
       file_tree_roots := file_tree_roots doc;
       editor_suggestions := <[suggestionId := entry]> (editor_suggestions doc);
       other := other doc |}.

(** The body of [doc.transact] in [loadProjectState]. *)
Definition rebuildDoc (fileRecords : list (jsstring * FileRecord))
    (suggestionRecords : list (jsstring * SuggestionRecord)) (doc : Doc) : Doc :=
  let cleared :=
    {| editor_files := ∅; file_tree_nodes := ∅; file_tree_roots := [];
       editor_suggestions := ∅; other := other doc |} in
  foldl (fun d s => loadSuggestion s d)
    (foldl (fun d f => loadFile f d) cleared fileRecords)
    suggestionRecords.

(** The permission entries kept by [loadProjectState]: those whose value is
    a role name. Both branches of the source (a [Map] instance or a plain
    object) collect the same entries. *)
Definition permissionEntries (project : option ProjectRecord) : gmap jsstring Role :=
  match project with
  | Some p => omap isRole (project_permissions p)
  | None => ∅
  end.

Definition loadProjectState (projectId : jsstring) (doc : Doc) (now : Z)
    : Async (gmap jsstring Role * Doc) :=
  await connected := ensureDbConnection in
  if negb connected then resolve (∅, doc)
  else
    await _ := storeCall ProjectUpdateOne (fun st =>
      (upsertProject projectId
         {| project_name := projectId; project_created_at := now;
            project_updated_at := now; project_permissions := ∅ |}
         (fun p => p) st, tt)) in
    await project := storeCall ProjectFindById (fun st => (st, projects st !! projectId)) in
    await fileRecords := storeCall FileFind (fun st =>
      (st, findByProject file_project_id projectId (files st))) in
    await suggestionRecords := storeCall SuggestionFind (fun st =>
      (st, findByProject suggestion_project_id projectId (suggestions st))) in
    resolve (permissionEntries project, rebuildDoc fileRecords suggestionRecords doc).

(** *** [persistProjectState] *)

(** One element of [fileRows]. *)
Definition fileRow (projectId : jsstring)
    (treeNodes : gmap jsstring (gmap jsstring YValue))
    (entry : jsstring * jsstring) : jsstring * FileRecord :=
  let fileId := entry.1 in
  let treePath := buildFilePathFromTree fileId treeNodes in
  let fallbackName := sanitizePathSegment fileId ++ lit ".txt" in
  (fileId,
   {| file_project_id := projectId;
      file_path := match treePath with
                   | Some path => path
                   | None => lit "files/" ++ fallbackName
                   end;
      file_content := entry.2 |}).

Record SuggestionRow := {
  row_id : jsstring;
  row_record : SuggestionRecord;
  row_authorName : jsstring;
}.

(** The body of the loop over [ySuggestions.entries()]: [None] is the
    [continue] of the validation guard. *)
Definition suggestionRow (projectId : jsstring)
    (entry : jsstring * gmap jsstring YValue) : option SuggestionRow :=
  let raw := entry.2 in
  match raw !! lit "fileId", raw !! lit "authorId", raw !! lit "text", raw !! lit "votes" with
  | Some (YStr fileId), Some (YStr creatorId), Some (YStr text), Some (YMap votesRaw) =>
    let votes := omap (fun voteValue =>
                   match voteValue with YNum n => Some n | _ => None end) votesRaw in
    Some {| row_id := entry.1;
            row_record :=
              {| suggestion_project_id := projectId;
                 suggestion_file_id := fileId;
                 suggestion_creator_id := creatorId;
                 suggestion_text := text;
                 suggestion_votes := votes |};
            row_authorName :=
              match raw !! lit "authorName" with
              | Some (YStr authorName) => authorName
              | _ => creatorId
              end |}
  | _, _, _, _ => None
  end.

(** [UserModel.bulkWrite]: [$set] the username, [$setOnInsert] the avatar
    and join date (the role takes the schema default). *)
Definition upsertAuthors (rows : list SuggestionRow) (joinDate : Z)
    (coll : gmap jsstring UserRecord) : gmap jsstring UserRecord :=
  foldl (fun acc row =>
    let creatorId := suggestion_creator_id (row_record row) in
    match acc !! creatorId with
    | Some u =>
      <[creatorId := {| user_username := row_authorName row;
                        user_avatar := user_avatar u;
                        user_join_date := user_join_date u;
                        user_role := user_role u |}]> acc
    | None =>
      <[creatorId := {| user_username := row_authorName row;
                        user_avatar := [];
                        user_join_date := joinDate;
                        user_role := editor |}]> acc
    end) coll rows.

(** [doc] is a live object read at two points separated by awaits:
    [docAtFiles] is its state when the file rows are collected,
    [docAtSuggestions] its state when the suggestion rows are. *)
Definition persistProjectState (projectId : jsstring)
    (docAtFiles docAtSuggestions : Doc) (now joinDate : Z) : Async unit :=
  await connected := ensureDbConnection in
  if negb connected then resolve tt
  else
    await _ := storeCall ProjectUpdateOne (fun st =>
      (upsertProject projectId
         {| project_name := projectId; project_created_at := now;
            project_updated_at := now; project_permissions := ∅ |}
         (fun p => {| project_name := project_name p;
                      project_created_at := project_created_at p;
                      project_updated_at := now;
                      project_permissions := project_permissions p |}) st, tt)) in
    let fileRows := map (fileRow projectId (file_tree_nodes docAtFiles))
                        (map_to_list (editor_files docAtFiles)) in
    await _ := (if (0 <? length fileRows)%nat
                then storeCall FileBulkWrite (fun st =>
                       (setFiles (bulkUpsert fileRows (files st)) st, tt))
                else resolve tt) in
    let fileIds := fileRows.*1 in
    await _ := storeCall FileDeleteMany (fun st =>
      (setFiles (deleteManyNotIn file_project_id projectId fileIds (files st)) st, tt)) in
    let suggestionRows := omap (suggestionRow projectId)
                               (map_to_list (editor_suggestions docAtSuggestions)) in
    await _ := (if (0 <? length suggestionRows)%nat
                then
                  await _ := storeCall SuggestionBulkWrite (fun st =>
                    (setSuggestions
                       (bulkUpsert (map (fun r => (row_id r, row_record r)) suggestionRows)
                                   (suggestions st)) st, tt)) in
                  storeCall UserBulkWrite (fun st =>
                    (setUsers (upsertAuthors suggestionRows joinDate (users st)) st, tt))
                else resolve tt) in
    let suggestionIds := map row_id suggestionRows in
    storeCall SuggestionDeleteMany (fun st =>
      (setSuggestions
         (deleteManyNotIn suggestion_project_id projectId suggestionIds (suggestions st))
         st, tt)).

(** *** [setProjectPermission]

    [$set] of the key [permissions.<userId>] (a user id holding a dot would
    address a nested path instead; ids issued by the login path hold none). *)
Definition setProjectPermission (projectId userId : jsstring) (role : Role) (now : Z)
    : Async unit :=
  await connected := ensureDbConnection in
  if negb connected then resolve tt
  else
    storeCall ProjectUpdateOne (fun st =>
      (upsertProject projectId
         {| project_name := projectId; project_created_at := now;
            project_updated_at := now;
            project_permissions := {[userId := roleName role]} |}
         (fun p => {| project_name := project_name p;
                      project_created_at := project_created_at p;
                      project_updated_at := now;
                      project_permissions :=
                        <[userId := roleName role]> (project_permissions p) |}) st, tt)).

End Persistence.

(** ** The server (the entry point carried by models.ts) *)

Definition MESSAGE_TYPE_SYNC : N := 0.
Definition MESSAGE_TYPE_AWARENESS : N := 1.

(** Sockets, rooms and promises are objects: they are told apart by
    identity. *)
Abbreviation Socket := nat (only parsing).
Abbreviation RoomRef := nat (only parsing).
Abbreviation PromiseRef := nat (only parsing).

(** The presence registry of y-protocols: client id to clock and state. *)
Abbreviation Awareness := (gmap N (N * jsstring)) (only parsing).

Record AuthTokenPayload := {
  userId : jsstring;
  username : jsstring;
  role : Role;
}.

Record SocketContext := {
  roomId : jsstring;
  awarenessClientIds : gset N;
  user : AuthTokenPayload;
}.

Record Room := {
  doc : Doc;
  awareness : Awareness;
  sockets : gset nat;
  (** the armed timer, with the delay it was armed for *)
  persistTimer : option nat;
  persistInFlight : bool;
  persistRequested : bool;
  permissions : gmap jsstring Role;
}.

(** What a thrown exception was. *)
Inductive Exception :=
  | UnexpectedEndOfArray
  | IntegerOutOfRange
  | RangeError
  | LibraryError.

(** The libraries the server calls and does not own. A [None] result is a
    thrown exception. [Y_applyUpdate] yields the new document and, when the
    transaction changed it, the update its observer receives;
    [applyAwarenessUpdate] and [removeAwarenessStates] yield the new registry
    and the client ids reported as added, updated or removed. *)
Record Libs := {
  jwt_verify : jsstring -> jsstring -> option Json;
  JSON_parse : jsstring -> option Json;
  JSON_stringify : Json -> jsstring;
  Y_applyUpdate : Doc -> list byte -> option (Doc * option (list byte));
  Y_encodeStateAsUpdate : Doc -> list byte;
  Y_transactionUpdate : Doc -> Doc -> list byte;
  newAwareness : gmap N (N * jsstring);
  applyAwarenessUpdate : gmap N (N * jsstring) -> list byte
                         -> option (gmap N (N * jsstring) * list N);
  removeAwarenessStates : gmap N (N * jsstring) -> list N
                          -> gmap N (N * jsstring) * list N;
  encodeAwarenessUpdate : gmap N (N * jsstring) -> list N -> list byte;
}.

Record Config := {
  jwtSecret : jsstring;
  allowAllOrigins : bool;
  allowedOriginList : list jsstring;
}.

(** A frame on the wire and what a handler does to the outside. *)
Inductive Frame :=
  | Text (payload : jsstring)
  | Binary (payload : list byte).

Inductive Effect :=
  | Send (to : nat) (frame : Frame)
  | Close (socket : nat) (code : nat) (reason : jsstring).

Inductive Completion :=
  | Returns
  | Throws (e : Exception).

(** *** Wire format *)

Definition encodeMessage (type : N) (payload : list byte) : list byte :=
  match Byte.of_N (type mod 256) with
  | Some b => b :: payload
  | None => payload
  end.

Definition parseMessage (data : list byte) : option (N * list byte) :=
  match data with
  | [] => None
  | type :: payload => Some (Byte.to_N type, payload)
  end.

(** *** lib0 decoding, as used by [readAwarenessClientIds] *)

Inductive Decoded (A : Type) :=
  | Read (value : A) (rest : list byte)
  | DecodeThrows (e : Exception).
Arguments Read {A} value rest.
Arguments DecodeThrows {A} e.

Definition MAX_SAFE_INTEGER : N := 9007199254740991.

(** [decoding.readVarUint]: seven bits per byte, least significant group
    first, the top bit marking a continuation. The value is exact here; the
    source's doubles round it once it passes [MAX_SAFE_INTEGER], which can
    only happen on the last byte. *)
Fixpoint readVarUintFrom (num mult : N) (bytes : list byte) : Decoded N :=
  match bytes with
  | [] => DecodeThrows UnexpectedEndOfArray
  | r :: rest =>
    let num' := num + N.land (Byte.to_N r) 127 * mult in
    if Byte.to_N r <? 128 then Read num' rest
    else if MAX_SAFE_INTEGER <? num' then DecodeThrows IntegerOutOfRange
    else readVarUintFrom num' (mult * 128) rest
  end.

Definition readVarUint (bytes : list byte) : Decoded N :=
  readVarUintFrom 0 1 bytes.

(** [decoding.readVarString]: a length, then that many bytes of UTF-8 (the
    caller discards the text, so only the bytes consumed are kept). *)
Definition readVarString (bytes : list byte) : Decoded unit :=
  match readVarUint bytes with
  | Read len rest =>
    if (N.of_nat (length rest) <? len) then DecodeThrows RangeError
    else Read tt (drop (N.to_nat len) rest)
  | DecodeThrows e => DecodeThrows e
  end.

(** The [for] loop of [readAwarenessClientIds]. Each iteration consumes at
    least three bytes, so [fuel] iterations with [fuel] the number of bytes
    left cover every run that does not throw; with no fuel left there are no
    bytes left and the next read throws. *)
Fixpoint readClientEntries (fuel : nat) (remaining : N) (clientIds : list N)
    (bytes : list byte) : Decoded (list N) :=
  if remaining =? 0 then Read clientIds bytes
  else
    match fuel with
    | O => DecodeThrows UnexpectedEndOfArray
    | S fuel' =>
      match readVarUint bytes with
      | DecodeThrows e => DecodeThrows e
      | Read clientId rest1 =>
        match readVarUint rest1 with
        | DecodeThrows e => DecodeThrows e
        | Read _ rest2 =>
          match readVarString rest2 with
          | DecodeThrows e => DecodeThrows e
          | Read _ rest3 =>
            readClientEntries fuel' (remaining - 1) (clientIds ++ [clientId]) rest3
          end
        end
      end
    end.

Definition readAwarenessClientIds (update : list byte) : Decoded (list N) :=
  match readVarUint update with
  | DecodeThrows e => DecodeThrows e
  | Read clientCount rest => readClientEntries (length rest) clientCount [] rest
  end.

Section Server.

Variable lib : Libs.
Variable cfg : Config.
(** Whether a socket's [readyState] is [WebSocket.OPEN] when a handler
    runs. *)
Variable isOpen : nat -> bool.

(** *** Tokens and roles *)

Definition verifyToken (token : jsstring) : option AuthTokenPayload :=
  match jwt_verify lib token (jwtSecret cfg) with
  | None => None
  | Some decoded =>
    match decoded with
    | JObj _ | JArr _ =>
      match getField (lit "userId") decoded, getField (lit "username") decoded,
            getField (lit "role") decoded with
      | Some (JStr userId), Some (JStr username), Some (JStr role) =>
        match isRole role with
        | Some r => Some {| userId := userId; username := username; role := r |}
        | None => None
        end
      | _, _, _ => None
      end
    | _ => None
    end
  end.

Definition getEffectiveRole (room : Room) (user : AuthTokenPayload) : Role :=
  match permissions room !! userId user with
  | Some r => r
  | None => role user
  end.

Definition extractBearerToken (authorizationHeader : option jsstring) : option jsstring :=
  match authorizationHeader with
  | None => None
  | Some header =>
    if negb (truthy header) then None
    else
      match splitOn 32 [] header with
      | scheme :: token :: _ =>
        if bool_decide (scheme ≠ lit "Bearer") || negb (truthy token) then None
        else Some token
      | _ => None
      end
  end.

Definition isAllowedOrigin (originHeader : option jsstring) : bool :=
  match originHeader with
  | None => true
  | Some origin =>
    allowAllOrigins cfg || negb (truthy origin)
    || bool_decide (origin ∈ allowedOriginList cfg)
  end.

Definition isRoomIdChar (c : N) : bool :=
  ((97 <=? c) && (c <=? 122)) || ((65 <=? c) && (c <=? 90))
  || ((48 <=? c) && (c <=? 57)) || (c =? 95) || (c =? 45).

Definition isValidRoomId (roomId : jsstring) : bool :=
  (1 <=? length roomId)%nat && (length roomId <=? 64)%nat
  && forallb isRoomIdChar roomId.

(** *** Field updates of a [Room] object *)

Definition setDoc (d : Doc) (r : Room) : Room :=
  {| doc := d; awareness := awareness r; sockets := sockets r;
     persistTimer := persistTimer r; persistInFlight := persistInFlight r;
     persistRequested := persistRequested r; permissions := permissions r |}.

Definition setAwareness (a : gmap N (N * jsstring)) (r : Room) : Room :=
  {| doc := doc r; awareness := a; sockets := sockets r;
     persistTimer := persistTimer r; persistInFlight := persistInFlight r;
     persistRequested := persistRequested r; permissions := permissions r |}.

Definition setSockets (s : gset nat) (r : Room) : Room :=
  {| doc := doc r; awareness := awareness r; sockets := s;
     persistTimer := persistTimer r; persistInFlight := persistInFlight r;
     persistRequested := persistRequested r; permissions := permissions r |}.

Definition setPersistTimer (t : option nat) (r : Room) : Room :=
  {| doc := doc r; awareness := awareness r; sockets := sockets r;
     persistTimer := t; persistInFlight := persistInFlight r;
     persistRequested := persistRequested r; permissions := permissions r |}.

Definition setPersistInFlight (b : bool) (r : Room) : Room :=
  {| doc := doc r; awareness := awareness r; sockets := sockets r;
     persistTimer := persistTimer r; persistInFlight := b;
     persistRequested := persistRequested r; permissions := permissions r |}.

Definition setPersistRequested (b : bool) (r : Room) : Room :=
  {| doc := doc r; awareness := awareness r; sockets := sockets r;
     persistTimer := persistTimer r; persistInFlight := persistInFlight r;
     persistRequested := b; permissions := permissions r |}.

Definition setPermissions (p : gmap jsstring Role) (r : Room) : Room :=
  {| doc := doc r; awareness := awareness r; sockets := sockets r;
     persistTimer := persistTimer r; persistInFlight := persistInFlight r;
     persistRequested := persistRequested r; permissions := p |}.

(** *** Broadcasting

    The sockets a broadcast reaches, listed in the order of [elements]; the
    source iterates the set in insertion order, and nothing below depends
    on the order of sends to different sockets. *)

Definition recipients (room : Room) (exclude : option nat) : list nat :=
  filter (fun client => Some client ≠ exclude ∧ isOpen client = true)
         (elements (sockets room)).

Definition broadcast (room : Room) (type : N) (payload : list byte)
    (exclude : option nat) : list Effect :=
  let message := encodeMessage type payload in
  map (fun client => Send client (Binary message)) (recipients room exclude).

Definition broadcastText (room : Room) (payload : jsstring)
    (exclude : option nat) : list Effect :=
  map (fun client => Send client (Text payload)) (recipients room exclude).

(** *** Chat *)

(** The text of a well-formed chat message, trimmed; [None] is the [null]
    of the source (also returned when [JSON.parse] or a property read
    throws). *)
Definition parseIncomingChatMessage (data : jsstring) : option jsstring :=
  match JSON_parse lib data with
  | None => None
  | Some JNull => None
  | Some parsed =>
    match getField (lit "type") parsed, getField (lit "text") parsed with
    | Some (JStr type), Some (JStr text) =>
      if bool_decide (type ≠ lit "chat") then None
      else
        let text := trim text in
        if (length text =? 0)%nat then None else Some text
    | _, _ => None
    end
  end.

Definition outgoingChatMessage (id : jsstring) (sender : AuthTokenPayload)
    (text sentAt : jsstring) : Json :=
  JObj [ (lit "type", JStr (lit "chat"));
         (lit "id", JStr id);
         (lit "userId", JStr (userId sender));
         (lit "username", JStr (username sender));
         (lit "text", JStr text);
         (lit "sentAt", JStr sentAt) ].

(** *** The persist scheduler *)

Definition scheduleProjectPersist (room : Room) : Room :=
  let room := setPersistRequested true room in
  match persistTimer room with
  | Some _ => room
  | None => setPersistTimer (Some 1200%nat) room
  end.

(** [flushProjectPersist] up to its [await]: the room afterwards, and
    whether [persistProjectState] was called (the function is then suspended
    on that call; otherwise it has returned). *)
Definition flushProjectPersist_begin (room : Room) : Room * bool :=
  if persistInFlight room then (setPersistRequested true room, false)
  else if negb (persistRequested room) then (room, false)
  else (setPersistRequested false (setPersistInFlight true room), true).

(** [flushProjectPersist] from the point its [await] settles: [ok] tells
    whether [persistProjectState] resolved. *)
Definition flushProjectPersist_resume (ok : bool) (room : Room) : Room :=
  let room := if ok then room else setPersistRequested true room in
  let room := setPersistInFlight false room in
  match persistRequested room, persistTimer room with
  | true, None => setPersistTimer (Some 600%nat) room
  | _, _ => room
  end.

(** The callback of both timers. *)
Definition persistTimerFires (room : Room) : Room * bool :=
  flushProjectPersist_begin (setPersistTimer None room).

(** *** Rooms *)

Definition createRoom : Room :=
  {| doc := emptyDoc; awareness := newAwareness lib; sockets := ∅;
     persistTimer := None; persistInFlight := false;
     persistRequested := false; permissions := ∅ |}.

(** *** The room registry

    [rooms] and [pendingRooms] hold references; [heap] holds the [Room]
    objects ever constructed and [promises] the creation futures ever
    started, both indexed by reference. *)

Inductive Creation :=
  | Creating (roomId : jsstring) (newRoom : nat)
  | Fulfilled (room : nat)
  | Failed.

Record Registry := {
  rooms : gmap jsstring nat;
  pendingRooms : gmap jsstring nat;
  heap : list Room;
  promises : list Creation;
}.

Definition emptyRegistry : Registry :=
  {| rooms := ∅; pendingRooms := ∅; heap := []; promises := [] |}.

(** What a caller of [getOrCreateRoom] holds: a promise already resolved
    with a room, or one that follows a creation future. *)
Inductive Answer :=
  | Settled (room : nat)
  | Awaits (creation : nat).

(** [getOrCreateRoom] up to the first [await] of the creation it may
    start: [createRoom] has run and [loadProjectState] has been called. *)
Definition getOrCreateRoom (roomId : jsstring) (reg : Registry) : Registry * Answer :=
  match rooms reg !! roomId with
  | Some existingRoom => (reg, Settled existingRoom)
  | None =>
    match pendingRooms reg !! roomId with
    | Some pendingRoom => (reg, Awaits pendingRoom)
    | None =>
      let newRoom := length (heap reg) in
      let creatingRoom := length (promises reg) in
      ({| rooms := rooms reg;
          pendingRooms := <[roomId := creatingRoom]> (pendingRooms reg);
          heap := heap reg ++ [createRoom];
          promises := promises reg ++ [Creating roomId newRoom] |},
       Awaits creatingRoom)
    end
  end.

(** The rest of the creation, run when [loadProjectState] settles. A
    resolved load has rebuilt the new room's document ([docUpdated] tells
    whether that transaction changed it, which runs the room's update
    observer) and hands over the persisted permissions. *)
Definition creationSettles (creatingRoom : nat)
    (loaded : Outcome (gmap jsstring Role * Doc)) (docUpdated : bool)
    (reg : Registry) : option Registry :=
  match promises reg !! creatingRoom with
  | Some (Creating roomId newRoom) =>
    match loaded with
    | Resolved (persistedPermissions, doc') =>
      Some {| rooms := <[roomId := newRoom]> (rooms reg);
              pendingRooms := delete roomId (pendingRooms reg);
              heap := alter (fun r =>
                        setPermissions persistedPermissions
                          ((if docUpdated then scheduleProjectPersist else id)
                             (setDoc doc' r)))
                        newRoom (heap reg);
              promises := <[creatingRoom := Fulfilled newRoom]> (promises reg) |}
    | Rejected _ =>
      Some {| rooms := rooms reg;
              pendingRooms := delete roomId (pendingRooms reg);
              heap := heap reg;
              promises := <[creatingRoom := Failed]> (promises reg) |}
    end
  | _ => None
  end.

(** The last statement of the teardown started by [removeSocketFromRoom]:
    [rooms.delete(context.roomId)]. *)
Definition teardownCompletes (roomId : jsstring) (reg : Registry) : Registry :=
  {| rooms := delete roomId (rooms reg);
     pendingRooms := pendingRooms reg;
     heap := heap reg;
     promises := promises reg |}.

(** The room a caller ends up with, once its promise has settled. *)
Definition resolvesTo (reg : Registry) (a : Answer) : option nat :=
  match a with
  | Settled room => Some room
  | Awaits creation =>
    match promises reg !! creation with
    | Some (Fulfilled room) => Some room
    | _ => None
    end
  end.

(** Whether a caller's promise has rejected. *)
Definition rejects (reg : Registry) (a : Answer) : bool :=
  match a with
  | Settled _ => false
  | Awaits creation =>
    match promises reg !! creation with
    | Some Failed => true
    | _ => false
    end
  end.

(** What can happen to the registry, one event-loop turn each. *)
Inductive RegistryEvent :=
  | CallGetOrCreateRoom (roomId : jsstring)
  | LoadSettles (creatingRoom : nat)
      (loaded : Outcome (gmap jsstring Role * Doc)) (docUpdated : bool)
  | TeardownCompletes (roomId : jsstring).

Definition registryStep (e : RegistryEvent) (reg : Registry)
    : option (Registry * option (jsstring * Answer)) :=
  match e with
  | CallGetOrCreateRoom roomId =>
    let '(reg', a) := getOrCreateRoom roomId reg in Some (reg', Some (roomId, a))
  | LoadSettles p loaded docUpdated =>
    match creationSettles p loaded docUpdated reg with
    | Some reg' => Some (reg', None)
    | None => None
    end
  | TeardownCompletes roomId => Some (teardownCompletes roomId reg, None)
  end.

(** Run a sequence of events, collecting what each call of
    [getOrCreateRoom] was answered. *)
Fixpoint registryRun (events : list RegistryEvent) (reg : Registry)
    : option (Registry * list (jsstring * Answer)) :=
  match events with
  | [] => Some (reg, [])
  | e :: rest =>
    match registryStep e reg with
    | None => None
    | Some (reg', answered) =>
      match registryRun rest reg' with
      | None => None
      | Some (reg'', answers) =>
        Some (reg'', match answered with
                     | Some a => a :: answers
                     | None => answers
                     end)
      end
    end
  end.

Definition isTeardown (e : RegistryEvent) : bool :=
  match e with TeardownCompletes _ => true | _ => false end.

(** *** Accepting a connection *)

(** The upgrade request, as the handler sees it: the [Origin] header and
    the parsed query string. *)
Record UpgradeRequest := {
  origin : option jsstring;
  searchParams : list (jsstring * jsstring);
}.

(** [url.searchParams.get(name)] *)
Fixpoint searchParamsGet (name : jsstring) (params : list (jsstring * jsstring))
    : option jsstring :=
  match params with
  | [] => None
  | (k, v) :: rest => if decide (k = name) then Some v else searchParamsGet name rest
  end.

Inductive AcceptDecision :=
  | CloseSocket (code : nat) (reason : jsstring)
  | EnterRoom (roomId : jsstring) (user : AuthTokenPayload).

(** The synchronous part of the [connection] handler. *)
Definition acceptConnection (isShuttingDown : bool) (req : UpgradeRequest)
    : AcceptDecision :=
  if isShuttingDown then CloseSocket 1012 (lit "server shutting down")
  else if negb (isAllowedOrigin (origin req)) then CloseSocket 1008 (lit "origin not allowed")
  else
    match searchParamsGet (lit "token") (searchParams req) with
    | None => CloseSocket 1008 (lit "missing token")
    | Some token =>
      if negb (truthy token) then CloseSocket 1008 (lit "missing token")
      else
        match verifyToken token with
        | None => CloseSocket 1008 (lit "invalid token")
        | Some user =>
          let roomId :=
            match searchParamsGet (lit "room") (searchParams req) with
            | Some r => r
            | None => lit "default"
            end in
          if negb (isValidRoomId roomId) then CloseSocket 1008 (lit "invalid room id")
          else EnterRoom roomId user
        end
    end.

(** What a handler of one connection reads and writes: the module-level
    [socketContexts] and the [Room] object its closure captured. *)
Record Conn := {
  socketContexts : gmap nat SocketContext;
  room : Room;
}.

Definition userJson (u : AuthTokenPayload) : Json :=
  JObj [ (lit "userId", JStr (userId u));
         (lit "username", JStr (username u));
         (lit "role", JStr (roleName (role u))) ].

(** The asynchronous part of the [connection] handler, once
    [getOrCreateRoom] has resolved. *)
Definition enterRoom (socket : nat) (roomId : jsstring) (user : AuthTokenPayload)
    (c : Conn) : Conn * list Effect :=
  let room' := setSockets ({[socket]} ∪ sockets (room c)) (room c) in
  let contexts' :=
    <[socket := {| roomId := roomId; awarenessClientIds := ∅; user := user |}]>
      (socketContexts c) in
  let welcome :=
    JObj [ (lit "type", JStr (lit "welcome"));
           (lit "message", JStr (lit "connected"));
           (lit "roomId", JStr roomId);
           (lit "user", userJson user) ] in
  let existingAwarenessClients := (map_to_list (awareness room')).*1 in
  ({| socketContexts := contexts'; room := room' |},
   [ Send socket (Text (JSON_stringify lib welcome));
     Send socket (Binary (encodeMessage MESSAGE_TYPE_SYNC
                            (Y_encodeStateAsUpdate lib (doc room')))) ]
   ++ (if (0 <? length existingAwarenessClients)%nat
       then [ Send socket (Binary (encodeMessage MESSAGE_TYPE_AWARENESS
                 (encodeAwarenessUpdate lib (awareness room') existingAwarenessClients))) ]
       else [])).

(** ... and when it has rejected. *)
Definition roomInitFailed (socket : nat) : list Effect :=
  [ Close socket 1011 (lit "room init failed") ].

(** *** The [message] handler *)

Inductive Incoming :=
  | TextMessage (data : jsstring)
  | BinaryMessage (data : list byte).

(** The update observers that [createRoom] registers on the document and on
    the presence registry. *)
Definition onDocUpdate (update : list byte) (originSocket : option nat)
    (room : Room) : Room * list Effect :=
  (scheduleProjectPersist room, broadcast room MESSAGE_TYPE_SYNC update originSocket).

Definition onAwarenessUpdate (changedClients : list N) (originSocket : option nat)
    (room : Room) : list Effect :=
  if (length changedClients =? 0)%nat then []
  else broadcast room MESSAGE_TYPE_AWARENESS
         (encodeAwarenessUpdate lib (awareness room) changedClients) originSocket.

Definition errorFrame : Json :=
  JObj [ (lit "type", JStr (lit "error"));
         (lit "message", JStr (lit "insufficient permissions for editing")) ].

Definition addClientIds (ids : list N) (context : SocketContext) : SocketContext :=
  {| roomId := roomId context;
     awarenessClientIds := list_to_set ids ∪ awarenessClientIds context;
     user := user context |}.

(** [uuid] and [sentAt] are what [randomUUID()] and
    [new Date().toISOString()] return when the handler runs. *)
Definition onMessage (socket : nat) (message : Incoming) (uuid sentAt : jsstring)
    (c : Conn) : Conn * list Effect * Completion :=
  match message with
  | TextMessage data =>
    if decide (data = lit "ping") then (c, [Send socket (Text (lit "pong"))], Returns)
    else
      match socketContexts c !! socket with
      | None => (c, [], Returns)
      | Some context =>
        match parseIncomingChatMessage data with
        | Some text =>
          (c,
           broadcastText (room c)
             (JSON_stringify lib (outgoingChatMessage uuid (user context) text sentAt))
             None,
           Returns)
        | None => (c, [], Returns)
        end
      end
  | BinaryMessage data =>
    match parseMessage data with
    | None => (c, [], Returns)
    | Some (type, payload) =>
      if type =? MESSAGE_TYPE_SYNC then
        match socketContexts c !! socket with
        | None => (c, [], Returns)
        | Some context =>
          let currentRole := getEffectiveRole (room c) (user context) in
          if (getRoleRank currentRole <? getRoleRank editor)%nat then
            (c, [Send socket (Text (JSON_stringify lib errorFrame))], Returns)
          else
            match Y_applyUpdate lib (doc (room c)) payload with
            | None => (c, [], Throws LibraryError)
            | Some (doc', None) =>
              ({| socketContexts := socketContexts c; room := setDoc doc' (room c) |},
               [], Returns)
            | Some (doc', Some update) =>
              let '(room', sent) := onDocUpdate update (Some socket) (setDoc doc' (room c)) in
              ({| socketContexts := socketContexts c; room := room' |}, sent, Returns)
            end
        end
      else if type =? MESSAGE_TYPE_AWARENESS then
        let claimed :=
          match socketContexts c !! socket with
          | None => Read (socketContexts c) []
          | Some context =>
            match readAwarenessClientIds payload with
            | DecodeThrows e => DecodeThrows e
            | Read ids _ =>
              Read (<[socket := addClientIds ids context]> (socketContexts c)) []
            end
          end in
        match claimed with
        | DecodeThrows e => (c, [], Throws e)
        | Read contexts' _ =>
          match applyAwarenessUpdate lib (awareness (room c)) payload with
          | None =>
            ({| socketContexts := contexts'; room := room c |}, [], Throws LibraryError)
          | Some (awareness', changedClients) =>
            let room' := setAwareness awareness' (room c) in
            ({| socketContexts := contexts'; room := room' |},
             onAwarenessUpdate changedClients (Some socket) room', Returns)
          end
        end
      else (c, [], Returns)
    end
  end.

(** *** Leaving a room *)

(** The flush requested when the last socket leaves (and, for every live
    room, on shutdown): cancel the timer, request, flush. *)
Definition finalFlush (room : Room) : Room * bool :=
  flushProjectPersist_begin (setPersistRequested true (setPersistTimer None room)).

Definition setHeap (h : list Room) (reg : Registry) : Registry :=
  {| rooms := rooms reg; pendingRooms := pendingRooms reg;
     heap := h; promises := promises reg |}.

(** [removeSocketFromRoom] up to the [await] of its teardown; the last
    component names the room whose teardown was started, if any, and tells
    whether the final flush called [persistProjectState]. *)
Definition removeSocketFromRoom (socket : nat)
    (contexts : gmap nat SocketContext) (reg : Registry)
    : gmap nat SocketContext * Registry * list Effect * option (jsstring * bool) :=
  match contexts !! socket with
  | None => (contexts, reg, [], None)
  | Some context =>
    match rooms reg !! roomId context with
    | None => (delete socket contexts, reg, [], None)
    | Some ref =>
      match heap reg !! ref with
      | None => (delete socket contexts, reg, [], None)
      | Some room0 =>
        let room1 := setSockets (sockets room0 ∖ {[socket]}) room0 in
        let '(room2, sent) :=
          if (0 <? size (awarenessClientIds context))%nat then
            let '(awareness', removed) :=
              removeAwarenessStates lib (awareness room1)
                (elements (awarenessClientIds context)) in
            let room2 := setAwareness awareness' room1 in
            (room2, onAwarenessUpdate removed (Some socket) room2)
          else (room1, []) in
        if (size (sockets room2) =? 0)%nat then
          let '(room3, called) := finalFlush room2 in
          (delete socket contexts, setHeap (<[ref := room3]> (heap reg)) reg, sent,
           Some (roomId context, called))
        else
          (delete socket contexts, setHeap (<[ref := room2]> (heap reg)) reg, sent, None)
      end
    end
  end.

(** *** The scheduler of one room, over time

    A suspended call of [flushProjectPersist] waits for its
    [persistProjectState] call, which is running or has settled. *)
Inductive FlushWait :=
  | PersistRunning
  | PersistSettled (ok : bool).

Record SchedWorld := {
  sw_room : Room;
  sw_flushes : list FlushWait;
}.

Definition isRunning (f : FlushWait) : bool :=
  match f with PersistRunning => true | PersistSettled _ => false end.

(** The calls of [persistProjectState] in flight. *)
Definition inFlightCalls (w : SchedWorld) : nat :=
  length (filter (fun f => isRunning f = true) (sw_flushes w)).

Inductive SchedEvent :=
  | RequestPersist
  | TimerFires
  | FinalFlush
  | DirectFlush
  | PersistSettles (i : nat) (ok : bool)
  | FlushResumes (i : nat).

Definition afterFlushBegin (w : SchedWorld) (r : Room * bool) : SchedWorld :=
  {| sw_room := r.1;
     sw_flushes := if r.2 then sw_flushes w ++ [PersistRunning] else sw_flushes w |}.

Definition schedStep (e : SchedEvent) (w : SchedWorld) : option SchedWorld :=
  match e with
  | RequestPersist =>
    Some {| sw_room := scheduleProjectPersist (sw_room w); sw_flushes := sw_flushes w |}
  | TimerFires =>
    match persistTimer (sw_room w) with
    | Some _ => Some (afterFlushBegin w (persistTimerFires (sw_room w)))
    | None => None
    end
  | FinalFlush => Some (afterFlushBegin w (finalFlush (sw_room w)))
  | DirectFlush => Some (afterFlushBegin w (flushProjectPersist_begin (sw_room w)))
  | PersistSettles i ok =>
    match sw_flushes w !! i with
    | Some PersistRunning =>
      Some {| sw_room := sw_room w; sw_flushes := <[i := PersistSettled ok]> (sw_flushes w) |}
    | _ => None
    end
  | FlushResumes i =>
    match sw_flushes w !! i with
    | Some (PersistSettled ok) =>
      Some {| sw_room := flushProjectPersist_resume ok (sw_room w);
              sw_flushes := delete i (sw_flushes w) |}
    | _ => None
    end
  end.

Fixpoint schedRun (events : list SchedEvent) (w : SchedWorld) : option SchedWorld :=
  match events with
  | [] => Some w
  | e :: rest =>
    match schedStep e w with
    | Some w' => schedRun rest w'
    | None => None
    end
  end.

(** *** The REST surface (core subset) *)

Record RestRequest := {
  authorization : option jsstring;
  body : option Json;
}.

Inductive Response :=
  | Respond (status : nat) (payload : Json).

Definition errorBody (message : string) : Json :=
  JObj [ (lit "error", JStr (lit message)) ].

(** [req.body?.key] *)
Definition bodyField (key : jsstring) (req : RestRequest) : option Json :=
  match body req with
  | Some b => getField key b
  | None => None
  end.

Definition authenticate (req : RestRequest) : option AuthTokenPayload :=
  match extractBearerToken (authorization req) with
  | Some token => verifyToken token
  | None => None
  end.

(** [POST /api/projects/:id/permissions] before it acquires the room:
    a response, or the caller, the target user and the role to grant. *)
Definition permissionsRequest (isShuttingDown : bool) (req : RestRequest)
    : Response + (AuthTokenPayload * jsstring * Role) :=
  if isShuttingDown then inl (Respond 503 (errorBody "server is shutting down"))
  else
    match authenticate req with
    | None => inl (Respond 401 (errorBody "unauthorized"))
    | Some user =>
      match bodyField (lit "userId") req, bodyField (lit "role") req with
      | Some (JStr targetUserId), Some (JStr nextRole) =>
        match isRole nextRole with
        | Some r => inr (user, targetUserId, r)
        | None => inl (Respond 400 (errorBody "userId and valid role are required"))
        end
      | _, _ => inl (Respond 400 (errorBody "userId and valid role are required"))
      end
    end.

(** ... once it holds the room: either the 403 response, or the room with
    the permission written, the handler then awaiting
    [setProjectPermission]. *)
Definition permissionsInRoom (user : AuthTokenPayload) (targetUserId : jsstring)
    (nextRole : Role) (room : Room) : Room * option Response :=
  let requesterRole := getEffectiveRole room user in
  if bool_decide (requesterRole ≠ admin)
  then (room, Some (Respond 403 (errorBody "admin role required")))
  else (setPermissions (<[targetUserId := nextRole]> (permissions room)) room, None).

(** ... and once [setProjectPermission] has settled; a rejection leaves the
    request without a response. *)
Definition permissionsDone (targetUserId : jsstring) (nextRole : Role)
    (stored : Outcome unit) : option Response :=
  match stored with
  | Resolved _ =>
    Some (Respond 200 (JObj [ (lit "ok", JBool true);
                               (lit "userId", JStr targetUserId);
                               (lit "role", JStr (roleName nextRole)) ]))
  | Rejected _ => None
  end.

Definition setSuggestionsOf (g : gmap jsstring (gmap jsstring YValue)) (d : Doc) : Doc :=
  {| editor_files := editor_files d; file_tree_nodes := file_tree_nodes d;
     file_tree_roots := file_tree_roots d; editor_suggestions := g; other := other d |}.

(** [POST /api/projects/:id/suggestions/:suggestionId/approve] once it
    holds the room. *)
Definition approveInRoom (user : AuthTokenPayload) (suggestionId approvedAt : jsstring)
    (room : Room) : Room * list Effect * Response :=
  let requesterRole := getEffectiveRole room user in
  if bool_decide (requesterRole ≠ admin)
  then (room, [], Respond 403 (errorBody "admin role required"))
  else
    match editor_suggestions (doc room) !! suggestionId with
    | None => (room, [], Respond 404 (errorBody "suggestion not found"))
    | Some suggestion =>
      let suggestion' :=
        <[lit "approvedAt" := YStr approvedAt]>
        (<[lit "approvedBy" := YStr (userId user)]>
        (<[lit "approved" := YBool true]> suggestion)) in
      let doc' := setSuggestionsOf
                    (<[suggestionId := suggestion']> (editor_suggestions (doc room)))
                    (doc room) in
      let '(room', sent) :=
        onDocUpdate (Y_transactionUpdate lib (doc room) doc') None (setDoc doc' room) in
      (scheduleProjectPersist room', sent,
       Respond 200 (JObj [ (lit "ok", JBool true);
                            (lit "suggestionId", JStr suggestionId) ]))
    end.

End Server.

(** ** Typing of suggestion fields *)

(** [typeof v === 'string'] and [v instanceof Y.Map], on the result of a
    [raw.get(key)]. *)
Definition isString (v : option YValue) : bool :=
  match v with Some (YStr _) => true | _ => false end.

Definition isSharedMap (v : option YValue) : bool :=
  match v with Some (YMap _) => true | _ => false end.

(** The validation guard of the suggestion loop of [persistProjectState]. *)
Definition wellFormedSuggestion (raw : gmap jsstring YValue) : bool :=
  isString (raw !! lit "fileId") && isString (raw !! lit "authorId")
  && isString (raw !! lit "text") && isSharedMap (raw !! lit "votes").

(** ** Cycles in the file tree *)

(** The parent a walk moves to from [id]: the node exists and its
    [parentId] is a string. *)
Definition parentOf (treeNodes : gmap jsstring (gmap jsstring YValue))
    (id : jsstring) : option jsstring :=
  match treeNodes !! id with
  | Some node =>
    match node !! lit "parentId" with
    | Some (YStr parentId) => Some parentId
    | _ => None
    end
  | None => None
  end.

(** [walkReaches treeNodes id target]: following parents from [id] leads to
    [target], every id left behind being a non-empty string (the [while]
    condition). *)
Inductive walkReaches (treeNodes : gmap jsstring (gmap jsstring YValue))
    : jsstring -> jsstring -> Prop :=
  | reach_here id : walkReaches treeNodes id id
  | reach_up id parentId target :
      truthy id = true ->
      parentOf treeNodes id = Some parentId ->
      walkReaches treeNodes parentId target ->
      walkReaches treeNodes id target.

(** [id] lies on a cycle: following parents from it comes back to it. *)
Definition onCycle (treeNodes : gmap jsstring (gmap jsstring YValue))
    (id : jsstring) : Prop :=
  truthy id = true /\
  exists parentId, parentOf treeNodes id = Some parentId
                   /\ walkReaches treeNodes parentId id.

(** The parent walk from [fileId] revisits a node id. *)
Definition walkRevisits (treeNodes : gmap jsstring (gmap jsstring YValue))
    (fileId : jsstring) : Prop :=
  exists id, walkReaches treeNodes fileId id /\ onCycle treeNodes id.

(** ** Invariants and proof rules used below *)

(** [keeps P m]: whatever way [m] settles, a store satisfying [P] still
    does afterwards. *)
Definition keeps (P : Store -> Prop) {A} (m : Async A) : Prop :=
  forall db, P (store db) -> P (store (m db).1).

(** [ensures P m Q]: run from a store satisfying [P], [m] either rejects
    or resolves with a value and a store satisfying [Q]. *)
Definition ensures {A} (P : Store -> Prop) (m : Async A)
    (Q : A -> Store -> Prop) : Prop :=
  forall db, P (store db) ->
    match m db with
    | (db', Resolved a) => Q a (store db')
    | (_, Rejected _) => True
    end.

(** What ties the [persistInFlight] flag to the suspended flushes: there is
    at most one, and the flag is set exactly while there is one. *)
Definition schedInv (w : SchedWorld) : Prop :=
  (length (sw_flushes w) <= 1)%nat
  /\ (persistInFlight (sw_room w) = true <-> sw_flushes w <> []).

(** A pending entry belongs to a creation still under way for that id, whose
    room is not registered yet; a creation under way is the pending entry of
    its id. *)
Definition regInv (reg : Registry) : Prop :=
  (forall id p, pendingRooms reg !! id = Some p ->
     rooms reg !! id = None
     /\ exists newRoom, promises reg !! p = Some (Creating id newRoom))
  /\ (forall p id newRoom, promises reg !! p = Some (Creating id newRoom) ->
        pendingRooms reg !! id = Some p).

(** What the callers answered so far hold, against the current registry. *)
Definition answerInv (reg : Registry) (id : jsstring) (a : Answer) : Prop :=
  match a with
  | Settled r => rooms reg !! id = Some r
  | Awaits p =>
    match promises reg !! p with
    | Some (Creating id' _) => id' = id
    | Some (Fulfilled r) => rooms reg !! id = Some r
    | Some Failed => True
    | None => False
    end
  end.

Definition answersInv (reg : Registry) (answers : list (jsstring * Answer)) : Prop :=
  forall id a, (id, a) ∈ answers -> answerInv reg id a.

(** ** The login path ([getRequestIp], [consumeAuthRateLimit],
    [findOrCreateUserByUsername]) *)

Definition authWindowMs : Z := 60000.
Definition authLimit : Z := 30.

Record AuthAttempts := {
  attempt_count : Z;
  attempt_resetAt : Z;
}.

(** [a || b] on strings that may be missing. *)
Definition orElse (a : option jsstring) (b : jsstring) : jsstring :=
  match a with
  | Some s => if truthy s then s else b
  | None => b
  end.

(** [getRequestIp]: [forwarded] is the [x-forwarded-for] header, [ip] and
    [remoteAddress] are [req.ip] and [req.socket.remoteAddress]. *)
Definition getRequestIp (forwarded ip remoteAddress : option jsstring) : jsstring :=
  let fallback := orElse ip (orElse remoteAddress (lit "unknown")) in
  match forwarded with
  | Some header =>
    if truthy header then
      match splitOn 44 [] header with
      | first :: _ => if truthy (trim first) then trim first else fallback
      | [] => fallback
      end
    else fallback
  | None => fallback
  end.

(** [consumeAuthRateLimit], with [now] the value of [Date.now()]. *)
Definition consumeAuthRateLimit (ip : jsstring) (now : Z)
    (authAttemptsByIp : gmap jsstring AuthAttempts)
    : gmap jsstring AuthAttempts * bool :=
  let fresh := {| attempt_count := 1; attempt_resetAt := (now + authWindowMs)%Z |} in
  match authAttemptsByIp !! ip with
  | None => (<[ip := fresh]> authAttemptsByIp, true)
  | Some current =>
    if (attempt_resetAt current <=? now)%Z then (<[ip := fresh]> authAttemptsByIp, true)
    else if (authLimit <=? attempt_count current)%Z then (authAttemptsByIp, false)
    else (<[ip := {| attempt_count := (attempt_count current + 1)%Z;
                     attempt_resetAt := attempt_resetAt current |}]> authAttemptsByIp,
          true)
  end.

(** Login attempts from one address at the given times, in order. *)
Fixpoint consumeAll (ip : jsstring) (times : list Z)
    (authAttemptsByIp : gmap jsstring AuthAttempts)
    : gmap jsstring AuthAttempts * list bool :=
  match times with
  | [] => (authAttemptsByIp, [])
  | now :: rest =>
    let '(attempts', admitted) := consumeAuthRateLimit ip now authAttemptsByIp in
    let '(attempts'', results) := consumeAll ip rest attempts' in
    (attempts'', admitted :: results)
  end.

(** The store calls of [findOrCreateUserByUsername]. *)
Inductive UserOp :=
  | UserExists
  | UserFindOne
  | UserCreate.

Inductive LoginOutcome :=
  | Identified (identity : AuthTokenPayload)
  | LoginRejected (failed : UserOp).

(** [UserModel.findOne({ username })] *)
Definition findUserByUsername (name : jsstring) (coll : gmap jsstring UserRecord)
    : option (jsstring * UserRecord) :=
  head (filter (fun kv => user_username kv.2 = name) (map_to_list coll)).

(** [UserModel.exists({ role: 'admin' })] *)
Definition adminExists (coll : gmap jsstring UserRecord) : bool :=
  bool_decide (Exists (fun kv => user_role kv.2 = admin) (map_to_list coll)).

(** [findOrCreateUserByUsername]: [uuid] is what [randomUUID()] returns and
    [joinDate] the time of the call; [userOpFails] tells which store calls
    fail. [UserModel.create] also fails on a duplicate [_id], on a duplicate
    of the unique [username] and on an empty [username] (the field is
    required). [connected] is the boolean [ensureDbConnection] resolved
    with, which it has cached. *)
Definition findOrCreateUserByUsername (env : DbEnv) (userOpFails : UserOp -> bool)
    (username uuid : jsstring) (joinDate : Z) (db : Db) : Db * LoginOutcome :=
  let '(db1, _) := ensureDbConnection env db in
  let connected :=
    match dbConnectionPromise db1 with Some b => b | None => false end in
  let cleanUsername := trim username in
  if negb connected then
    (db1, Identified {| userId := uuid; username := cleanUsername; role := editor |})
  else if userOpFails UserExists then (db1, LoginRejected UserExists)
  else
    let hasAdmin := adminExists (users (store db1)) in
    if userOpFails UserFindOne then (db1, LoginRejected UserFindOne)
    else
      let existing := findUserByUsername cleanUsername (users (store db1)) in
      match existing with
      | Some (id, record) =>
        if truthy id then
          (db1, Identified {| userId := id; username := cleanUsername;
                              role := user_role record |})
        else (db1, LoginRejected UserCreate)
      | None =>
        let assignedRole := if hasAdmin then editor else admin in
        if userOpFails UserCreate
           || bool_decide (is_Some (users (store db1) !! uuid))
           || negb (truthy cleanUsername)
        then (db1, LoginRejected UserCreate)
        else
          ({| dbConnectionPromise := dbConnectionPromise db1;
              store := {| projects := projects (store db1);
                          files := files (store db1);
                          suggestions := suggestions (store db1);
                          users := <[uuid := {| user_username := cleanUsername;
                                                user_avatar := [];
                                                user_join_date := joinDate;
                                                user_role := assignedRole |}]>
                                     (users (store db1)) |} |},
           Identified {| userId := uuid; username := cleanUsername;
                         role := assignedRole |})
      end.

(** ** Paths that [buildFilePathFromTree] derives

    [pathChain treeNodes id names]: the walk from [id] collects the node
    names [names], leaf first, and stops at a node whose parent is [null],
    the empty string or an id missing from the map. *)
Inductive pathChain (treeNodes : gmap jsstring (gmap jsstring YValue))
    : jsstring -> list jsstring -> Prop :=
  | chain_root id node name :
      truthy id = true ->
      treeNodes !! id = Some node ->
      node !! lit "name" = Some (YStr name) ->
      node !! lit "parentId" = Some YNull ->
      pathChain treeNodes id [name]
  | chain_open id node name parentId :
      truthy id = true ->
      treeNodes !! id = Some node ->
      node !! lit "name" = Some (YStr name) ->
      node !! lit "parentId" = Some (YStr parentId) ->
      truthy parentId = false \/ treeNodes !! parentId = None ->
      pathChain treeNodes id [name]
  | chain_up id node name parentId names :
      truthy id = true ->
      treeNodes !! id = Some node ->
      node !! lit "name" = Some (YStr name) ->
      node !! lit "parentId" = Some (YStr parentId) ->
      pathChain treeNodes parentId names ->
      pathChain treeNodes id (name :: names).

(** ** What [persistProjectState] leaves in the store *)

(** The record [persistProjectState] builds for a suggestion id, if the
    document holds a well-formed suggestion under it. *)
Definition suggestionRecordOf (projectId : jsstring) (d : Doc) (id : jsstring)
    : option SuggestionRecord :=
  match editor_suggestions d !! id with
  | Some raw =>
    match suggestionRow projectId (id, raw) with
    | Some row => Some (row_record row)
    | None => None
    end
  | None => None
  end.

(** A record the tombstone pass of project [projectId] leaves alone: one of
    another project. *)
Definition survivor {R} (project_id : R -> jsstring) (projectId : jsstring)
    (old : option R) : option R :=
  match old with
  | Some r => if decide (project_id r = projectId) then None else Some r
  | None => None
  end.

(** ** Further invariants *)

(** A set request is never stranded: a timer is armed for it or a flush is
    suspended and will see it when it resumes. *)
Definition requestCovered (w : SchedWorld) : Prop :=
  persistRequested (sw_room w) = true ->
  is_Some (persistTimer (sw_room w)) \/ sw_flushes w <> [].

(** References point into the heap, and every Room object is registered or
    being created under one id only. *)
Definition heapInv (reg : Registry) : Prop :=
  (forall id r, rooms reg !! id = Some r -> (r < length (heap reg))%nat)
  /\ (forall p id r, promises reg !! p = Some (Creating id r) ->
        (r < length (heap reg))%nat
        /\ forall id', rooms reg !! id' <> Some r)
  /\ (forall id1 id2 r, rooms reg !! id1 = Some r -> rooms reg !! id2 = Some r ->
        id1 = id2)
  /\ (forall p q id1 id2 r,
        promises reg !! p = Some (Creating id1 r) ->
        promises reg !! q = Some (Creating id2 r) -> p = q).

(** ** Connections against the registry *)

(** The continuation of the [connection] handler after
    [await getOrCreateRoom(roomId)]: it runs once the promise [a] the handler
    holds has resolved, and enters the Room the promise resolved with. *)
Definition enterResolvedRoom (lib : Libs) (socket : nat) (roomId : jsstring)
    (user : AuthTokenPayload) (a : Answer)
    (contexts : gmap nat SocketContext) (reg : Registry)
    : option (gmap nat SocketContext * Registry * list Effect) :=
  match resolvesTo reg a with
  | Some ref =>
    match heap reg !! ref with
    | Some room0 =>
      let '(c, sent) :=
        enterRoom lib socket roomId user
          {| socketContexts := contexts; room := room0 |} in
      Some (socketContexts c, setHeap (<[ref := room c]> (heap reg)) reg, sent)
    | None => None
    end
  | None => None
  end.

(** Three sockets and one room id, in the order the event loop can run
    them when the store is slow. Socket 1 creates the room, enters it and
    closes, which starts the teardown; while the teardown awaits its flush
    socket 2 connects; the flush settles and the teardown deletes the
    registry entry; socket 3 connects. The result is the final contexts and
    registry, what [removeSocketFromRoom] said of the teardown, and the
    promises sockets 2 and 3 were answered with. *)
Definition teardownRace (lib : Libs) (isOpen : nat -> bool)
    (user1 user2 user3 : AuthTokenPayload)
    (permissions1 permissions3 : gmap jsstring Role) (doc1 doc3 : Doc)
    (docUpdated1 docUpdated3 : bool)
    : option (gmap nat SocketContext * Registry * option (jsstring * bool)
              * Answer * Answer) :=
  let id := lit "room1" in
  let '(reg, answer1) := getOrCreateRoom lib id emptyRegistry in
  reg ← creationSettles 0 (Resolved (permissions1, doc1)) docUpdated1 reg;
  '(contexts, reg, _) ← enterResolvedRoom lib 1 id user1 answer1 ∅ reg;
  let '(contexts, reg, _, teardown) :=
    removeSocketFromRoom lib isOpen 1 contexts reg in
  let '(reg, answer2) := getOrCreateRoom lib id reg in
  '(contexts, reg, _) ← enterResolvedRoom lib 2 id user2 answer2 contexts reg;
  let reg := teardownCompletes id reg in
  let '(reg, answer3) := getOrCreateRoom lib id reg in
  reg ← creationSettles 1 (Resolved (permissions3, doc3)) docUpdated3 reg;
  '(contexts, reg, _) ← enterResolvedRoom lib 3 id user3 answer3 contexts reg;
  Some (contexts, reg, teardown, answer2, answer3).

(** ** The tree that [loadProjectState] rebuilds *)

(** [path.split('/').filter((part) => part.length > 0)] *)
Definition pathParts (path : jsstring) : list jsstring :=
  filter (fun part => (0 < length part)%nat) (splitOn 47 [] path).

(** [parts.slice(0, Math.max(0, parts.length - 1))] *)
Definition folderPartsOf (path : jsstring) : list jsstring :=
  take (Nat.max 0 (length (pathParts path) - 1)) (pathParts path).

(** [parts.length > 0 ? parts[parts.length - 1] : fileId] *)
Definition fileNameOf (fileId path : jsstring) : jsstring :=
  if (0 <? length (pathParts path))%nat then List.last (pathParts path) fileId
  else fileId.

(** The node names from the root down to the file. *)
Definition nodeNamesOf (fileId path : jsstring) : list jsstring :=
  folderPartsOf path ++ [fileNameOf fileId path].

(** The id [loadProjectState] gives the folder reached through [folders]. *)
Definition folderId (folders : list jsstring) : jsstring :=
  lit "folder:" ++ join (lit "/") folders.

(** A part of a split path: not empty, and without a slash. *)
Definition okPart (part : jsstring) : Prop := part <> [] /\ 47 ∉ part.

(** The [parentId] of a node that lies in [folders]. *)
Definition parentRef (folders : list jsstring) : YValue :=
  match folders with [] => YNull | _ => YStr (folderId folders) end.

(** What [buildFilePathFromTree] reads of a node: its [name] and its
    [parentId]. *)
Definition shapeOf (treeNodes : gmap jsstring (gmap jsstring YValue)) (id : jsstring)
    : option (option YValue * option YValue) :=
  (fun node : gmap jsstring YValue => (node !! lit "name", node !! lit "parentId"))
    <$> treeNodes !! id.

(** The tree while the files [loaded] have been put in: every folder node
    carries its own name and points to the folder above it, which exists;
    every file node carries the last part of its path and points to its
    folder, which exists. *)
Definition treeInv (treeNodes : gmap jsstring (gmap jsstring YValue))
    (loaded : list (jsstring * FileRecord)) : Prop :=
  (forall folders name,
     Forall okPart (folders ++ [name]) ->
     is_Some (shapeOf treeNodes (folderId (folders ++ [name]))) ->
     shapeOf treeNodes (folderId (folders ++ [name]))
     = Some (Some (YStr name), Some (parentRef folders))
     /\ (folders <> [] -> is_Some (shapeOf treeNodes (folderId folders))))
  /\ (forall f, f ∈ loaded ->
        shapeOf treeNodes f.1
        = Some (Some (YStr (fileNameOf f.1 (file_path f.2))),
                Some (parentRef (folderPartsOf (file_path f.2))))
        /\ (folderPartsOf (file_path f.2) <> [] ->
            is_Some (shapeOf treeNodes (folderId (folderPartsOf (file_path f.2)))))).

(** A file id that no folder id can collide with. *)
Definition plainFileId (id : jsstring) : Prop :=
  id <> [] /\ take 7 id <> lit "folder:".

(** What a flush may do to the user collection, against the users [before]
    it: a user that was there is still there with the same role, avatar and
    join date, and a user that was not is an editor. *)
Definition rolesKept (before : gmap jsstring UserRecord) (st : Store) : Prop :=
  (forall id u, before !! id = Some u ->
     exists u', users st !! id = Some u'
                /\ user_role u' = user_role u
                /\ user_avatar u' = user_avatar u
                /\ user_join_date u' = user_join_date u)
  /\ (forall id u', users st !! id = Some u' -> before !! id = None ->
        user_role u' = editor).

(** A suggestion entry that carries none of the approval fields. *)
Definition unapproved (entry : gmap jsstring YValue) : Prop :=
  entry !! lit "approved" = None
  /\ entry !! lit "approvedBy" = None
  /\ entry !! lit "approvedAt" = None.

(** [succeeds P m Q]: run from a store satisfying [P], [m] resolves, with
    a value and a store satisfying [Q], and leaves the cached connection as
    it was. *)
Definition succeeds {A} (P : Store -> Prop) (m : Async A)
    (Q : A -> Store -> Prop) : Prop :=
  forall db, P (store db) ->
    exists db' a, m db = (db', Resolved a) /\ Q a (store db')
                  /\ dbConnectionPromise db' = dbConnectionPromise db.

(** ** Sample data used by the examples below *)

Definition quoted (s : string) : jsstring := [34] ++ lit s ++ [34].

Definition treeNode (name : string) (parentId : string) : gmap jsstring YValue :=
  {[ lit "name" := YStr (lit name); lit "parentId" := YStr (lit parentId) ]}.

(** Two folders that name each other as parent, and a file below one. *)
Definition cyclicTree : gmap jsstring (gmap jsstring YValue) :=
  {[ lit "a" := treeNode "A" "b"; lit "b" := treeNode "B" "a";
     lit "f" := treeNode "main.ts" "a" ]}.

Definition cyclicDoc : Doc :=
  {| editor_files := {[ lit "f" := lit "let x = 1" ]};
     file_tree_nodes := cyclicTree;
     file_tree_roots := [];
     editor_suggestions := ∅;
     other := ∅ |}.

Definition healthyEnv : DbEnv :=
  {| MONGODB_URI := Some (lit "mongodb://db/codesafe");
     connectSucceeds := true;
     opFails := fun _ => false;
     leanKeepsMaps := false |}.

Definition freshDb : Db := {| dbConnectionPromise := None; store := emptyStore |}.

(** A suggestion whose [votes] field is a number, and the record an earlier
    flush stored for it. *)
Definition brokenSuggestion : gmap jsstring YValue :=
  {[ lit "fileId" := YStr (lit "f"); lit "authorId" := YStr (lit "u1");
     lit "text" := YStr (lit "rename x"); lit "votes" := YNum 3 ]}.

Definition brokenDoc : Doc :=
  {| editor_files := ∅; file_tree_nodes := ∅; file_tree_roots := [];
     editor_suggestions := {[ lit "s1" := brokenSuggestion ]};
     other := ∅ |}.

Definition staleRecord : SuggestionRecord :=
  {| suggestion_project_id := lit "room1"; suggestion_file_id := lit "f";
     suggestion_creator_id := lit "u1"; suggestion_text := lit "rename x";
     suggestion_votes := ∅ |}.

Definition staleDb : Db :=
  {| dbConnectionPromise := None;
     store := {| projects := ∅; files := ∅;
                 suggestions := {[ lit "s1" := staleRecord ]}; users := ∅ |} |}.

(** A store that answers the connection and then fails the first call of
    [loadProjectState]. *)
Definition flakyEnv : DbEnv :=
  {| MONGODB_URI := Some (lit "mongodb://db/codesafe");
     connectSucceeds := true;
     opFails := fun op => bool_decide (op = ProjectUpdateOne);
     leanKeepsMaps := false |}.

(** No store configured. *)
Definition ephemeralEnv : DbEnv :=
  {| MONGODB_URI := None;
     connectSucceeds := false;
     opFails := fun _ => false;
     leanKeepsMaps := false |}.

(** The store calls of [loadProjectState], in order. *)
Definition loadCalls : list StoreOp :=
  [ProjectUpdateOne; ProjectFindById; FileFind; SuggestionFind].

Definition veraViewer : AuthTokenPayload :=
  {| userId := lit "u-viewer"; username := lit "vera"; role := viewer |}.

Definition adaAdmin : AuthTokenPayload :=
  {| userId := lit "u-admin"; username := lit "ada"; role := admin |}.

Definition claims (u : AuthTokenPayload) : Json :=
  JObj [ (lit "userId", JStr (userId u));
         (lit "username", JStr (username u));
         (lit "role", JStr (roleName (role u))) ].

(** The text of a chat frame: an object with [type] and [text]. *)
Definition chatFrame (text : string) : jsstring :=
  lit "{" ++ quoted "type" ++ lit ":" ++ quoted "chat" ++ lit ","
  ++ quoted "text" ++ lit ":" ++ quoted text ++ lit "}".

(** Stand-ins for the libraries, defined on the few inputs the examples
    use: two tokens, one chat frame, updates that are echoed as they are. *)
Definition sampleLibs : Libs :=
  {| jwt_verify := fun token _ =>
       if decide (token = lit "viewer-token") then Some (claims veraViewer)
       else if decide (token = lit "admin-token") then Some (claims adaAdmin)
       else None;
     JSON_parse := fun data =>
       if decide (data = chatFrame "  hello from vera ")
       then Some (JObj [ (lit "type", JStr (lit "chat"));
                         (lit "text", JStr (lit "  hello from vera ")) ])
       else None;
     JSON_stringify := fun value =>
       match value with
       | JObj ((_, JStr kind) :: _) => kind
       | _ => lit "null"
       end;
     Y_applyUpdate := fun d update =>
       match update with
       | [] => None
       | _ => Some (d, Some update)
       end;
     Y_encodeStateAsUpdate := fun _ => [];
     Y_transactionUpdate := fun _ _ => [];
     newAwareness := ∅;
     applyAwarenessUpdate := fun a _ => Some (a, []);
     removeAwarenessStates := fun a _ => (a, []);
     encodeAwarenessUpdate := fun _ _ => [] |}.

Definition sampleCfg : Config :=
  {| jwtSecret := lit "dev-jwt-secret"; allowAllOrigins := true;
     allowedOriginList := [] |}.

(** A room with two sockets: 1 is the viewer's, 2 the admin's. *)
Definition sampleRoom : Room :=
  {| doc := emptyDoc; awareness := ∅; sockets := {[1%nat; 2%nat]};
     persistTimer := None; persistInFlight := false;
     persistRequested := false; permissions := ∅ |}.

Definition sampleConn : Conn :=
  {| socketContexts :=
       {[ 1%nat := {| roomId := lit "room1"; awarenessClientIds := ∅;
                      user := veraViewer |};
          2%nat := {| roomId := lit "room1"; awarenessClientIds := ∅;
                      user := adaAdmin |} ]};
     room := sampleRoom |}.

(** Two callers ask for the same room, its load resolves, a third asks. *)
Definition sampleStorm : list RegistryEvent :=
  [ CallGetOrCreateRoom (lit "room1");
    CallGetOrCreateRoom (lit "room1");
    LoadSettles 0 (Resolved (∅, emptyDoc)) false;
    CallGetOrCreateRoom (lit "room1") ].

(** Two stored files that share a folder. *)
Definition sampleFiles : list (jsstring * FileRecord) :=
  [ (lit "f1", {| file_project_id := lit "room1"; file_path := lit "src/main.ts";
                  file_content := lit "let x = 1" |});
    (lit "f2", {| file_project_id := lit "room1"; file_path := lit "src/lib/util.ts";
                  file_content := [] |}) ].

(** An upgrade request with a token and no [room] parameter. *)
Definition requestWithoutRoom : UpgradeRequest :=
  {| origin := None;
     searchParams := [ (lit "token", lit "viewer-token") ] |}.

(** Two different literal keys. *)
Ltac other_key := let H := fresh in intros H; vm_compute in H; discriminate H.

(** ** Path derivation: proofs *)

Lemma trimStart_suffix s : exists pre, s = pre ++ trimStart s.
Proof.
  induction s as [|c s [pre IH]]; simpl.
  - by exists [].
  - destruct (isWhiteSpace c).
    + exists (c :: pre). simpl. by f_equal.
    + by exists [].
Qed.

Lemma trim_Forall (P : N -> Prop) s : Forall P s -> Forall P (trim s).
Proof.
  intros H. unfold trim, trimEnd.
  destruct (trimStart_suffix s) as [pre Hs].
  assert (H1 : Forall P (trimStart s)).
  { rewrite Hs in H. by apply Forall_app in H as [_ ?]. }
  destruct (trimStart_suffix (rev (trimStart s))) as [pre' Hs'].
  assert (H2 : Forall P (rev (trimStart s))) by by apply Forall_rev.
  rewrite Hs' in H2. apply Forall_app in H2 as [_ H2].
  by apply Forall_rev.
Qed.

Lemma sanitizePathSegment_nonempty s : sanitizePathSegment s <> [].
Proof.
  unfold sanitizePathSegment.
  destruct (trim (replaceForbidden s)) as [|c cleaned]; simpl; [|done].
  by vm_compute.
Qed.

Lemma sanitizePathSegment_clean s :
  Forall (fun c => forbiddenInPath c = false) (sanitizePathSegment s).
Proof.
  unfold sanitizePathSegment.
  destruct (0 <? length (trim (replaceForbidden s)))%nat.
  - apply trim_Forall. unfold replaceForbidden.
    induction s as [|c0 s IH]; simpl; constructor; [|done].
    destruct (forbiddenInPath c0) eqn:E; [by vm_compute | done].
  - repeat constructor.
Qed.

Lemma walkReaches_truthy_cycle treeNodes cur :
  (exists id, walkReaches treeNodes cur id /\ onCycle treeNodes id) ->
  truthy cur = true /\
  exists p, parentOf treeNodes cur = Some p /\
            exists id, walkReaches treeNodes p id /\ onCycle treeNodes id.
Proof.
  intros (id & Hreach & Hcyc).
  destruct Hreach as [id | id p target Ht Hp Hrest].
  - destruct Hcyc as (Ht & p & Hp & Hback).
    split; [done|]. exists p. split; [done|].
    exists id. split; [done|]. split; [done|]. by exists p.
  - split; [done|]. exists p. split; [done|]. by exists target.
Qed.

(** On a walk that revisits, the loop never leaves through its exit or a
    [break]: it returns [null] (or the model runs out of fuel). *)
Lemma walkLoop_cycle fuel treeNodes visited pathSegments cur :
  (exists id, walkReaches treeNodes cur id /\ onCycle treeNodes id) ->
  walkLoop fuel treeNodes visited pathSegments cur = ReturnNull
  \/ walkLoop fuel treeNodes visited pathSegments cur = OutOfFuel.
Proof.
  revert visited pathSegments cur.
  induction fuel as [|fuel IH]; intros visited pathSegments cur Hcyc; simpl.
  - by right.
  - destruct (walkReaches_truthy_cycle _ _ Hcyc) as (Ht & p & Hp & Hnext).
    rewrite Ht. simpl.
    case_bool_decide; [by left|].
    unfold parentOf in Hp.
    destruct (treeNodes !! cur) as [node|]; [|done].
    destruct (node !! lit "parentId") as [[| | | parentId | |]|] eqn:Hpar; try done.
    injection Hp as ->.
    destruct (node !! lit "name") as [[| | | nodeName | |]|]; try by left.
    by apply IH.
Qed.

(** The fuel handed out by [buildFilePathFromTree] is never used up. *)
Lemma walkLoop_fuel fuel treeNodes visited pathSegments cur :
  visited ⊆ dom treeNodes ->
  (size (dom treeNodes ∖ visited) < fuel)%nat ->
  walkLoop fuel treeNodes visited pathSegments cur <> OutOfFuel.
Proof.
  revert visited pathSegments cur.
  induction fuel as [|fuel IH]; intros visited pathSegments cur Hsub Hlt; [lia|].
  simpl. destruct (truthy cur); simpl; [|done].
  case_bool_decide as Hvis; [done|].
  destruct (treeNodes !! cur) as [node|] eqn:Hnode.
  - destruct (node !! lit "name") as [[| | | nodeName | |]|]; try done.
    destruct (node !! lit "parentId") as [[| | | parentId | |]|]; try done.
    assert (Hin : cur ∈ dom treeNodes) by (apply elem_of_dom; eauto).
    apply IH.
    + set_solver.
    + assert (Hsz : (size (dom treeNodes ∖ ({[cur]} ∪ visited))
                    < size (dom treeNodes ∖ visited))%nat).
      { apply subset_size. set_solver. }
      lia.
  - destruct (length pathSegments =? 0)%nat; done.
Qed.

Lemma walkLoop_terminates fileId treeNodes :
  walkLoop (S (size treeNodes)) treeNodes ∅ [] fileId <> OutOfFuel.
Proof.
  apply walkLoop_fuel; [set_solver|].
  rewrite difference_empty_L, size_dom. lia.
Qed.

Lemma cycle_returns_null fileId treeNodes :
  walkRevisits treeNodes fileId ->
  walkLoop (S (size treeNodes)) treeNodes ∅ [] fileId = ReturnNull.
Proof.
  intros Hcyc.
  destruct (walkLoop_cycle (S (size treeNodes)) treeNodes ∅ [] fileId Hcyc) as [H|H];
    [done|].
  by apply walkLoop_terminates in H.
Qed.

(** ** Persistence: proofs *)

Lemma bulkUpsert_other {R} (rows : list (jsstring * R)) coll k :
  k ∉ rows.*1 -> bulkUpsert rows coll !! k = coll !! k.
Proof.
  revert coll. induction rows as [|[k' v'] rows IH]; intros coll Hk; [done|].
  unfold bulkUpsert in *. simpl in *.
  apply not_elem_of_cons in Hk as [Hne Hk].
  rewrite IH by done. by rewrite lookup_insert_ne.
Qed.

Lemma bulkUpsert_written {R} (rows : list (jsstring * R)) coll k v :
  NoDup rows.*1 -> (k, v) ∈ rows -> bulkUpsert rows coll !! k = Some v.
Proof.
  revert coll. induction rows as [|[k' v'] rows IH]; intros coll Hnd Hin.
  - by apply elem_of_nil in Hin.
  - simpl in Hnd. apply NoDup_cons in Hnd as [Hfresh Hnd].
    apply elem_of_cons in Hin as [Heq|Hin].
    + injection Heq as <- <-.
      change (bulkUpsert rows (<[k:=v]> coll) !! k = Some v).
      rewrite bulkUpsert_other by done. by rewrite lookup_insert_eq.
    + change (bulkUpsert rows (<[k':=v']> coll) !! k = Some v). by apply IH.
Qed.

Lemma deleteManyNotIn_lookup {R} (project_id : R -> jsstring)
    (projectId : jsstring) (ids : list jsstring) (coll : gmap jsstring R)
    (k : jsstring) :
  deleteManyNotIn project_id projectId ids coll !! k =
  match coll !! k with
  | Some r => if decide (project_id r = projectId /\ k ∉ ids) then None else Some r
  | None => None
  end.
Proof.
  unfold deleteManyNotIn.
  destruct (coll !! k) as [r|] eqn:Hk.
  - destruct (decide _) as [Hd|Hd].
    + apply map_lookup_filter_None. right. intros r' Hr'. simpl.
      rewrite Hk in Hr'. injection Hr' as <-. tauto.
    + apply map_lookup_filter_Some. split; [done|]. simpl. tauto.
  - apply map_lookup_filter_None. by left.
Qed.

Lemma fileRows_keys projectId treeNodes (entries : list (jsstring * jsstring)) :
  (map (fileRow projectId treeNodes) entries).*1 = entries.*1.
Proof. induction entries as [|e entries IH]; simpl; [done|]. by f_equal. Qed.

Lemma ensureDbConnection_store env db :
  store (ensureDbConnection env db).1 = store db.
Proof. unfold ensureDbConnection. by destruct (dbConnectionPromise db). Qed.

(** Running an [async] function, one [await] at a time. *)
Lemma andThen_resolved {A B} (m : Async A) (k : A -> Async B) db db' a :
  m db = (db', Resolved a) -> andThen m k db = k a db'.
Proof. intros H. unfold andThen. by rewrite H. Qed.

Lemma andThen_rejected {A B} (m : Async A) (k : A -> Async B) db db' op :
  m db = (db', Rejected op) -> andThen m k db = (db', Rejected op).
Proof. intros H. unfold andThen. by rewrite H. Qed.

Lemma storeCall_ok env {A} op (f : Store -> Store * A) db :
  opFails env op = false ->
  storeCall env op f db =
  ({| dbConnectionPromise := dbConnectionPromise db; store := (f (store db)).1 |},
   Resolved (f (store db)).2).
Proof. intros H. unfold storeCall. rewrite H. by destruct (f (store db)). Qed.

Lemma storeCall_fails env {A} op (f : Store -> Store * A) db :
  opFails env op = true -> storeCall env op f db = (db, Rejected op).
Proof. intros H. unfold storeCall. by rewrite H. Qed.

Lemma keeps_resolve P {A} (a : A) : keeps P (resolve a).
Proof. by intros db H. Qed.

Lemma keeps_andThen P {A B} (m : Async A) (k : A -> Async B) :
  keeps P m -> (forall a, keeps P (k a)) -> keeps P (andThen m k).
Proof.
  intros Hm Hk db H. unfold andThen.
  specialize (Hm db H). destruct (m db) as [db' [a|op]]; simpl in *.
  - by apply Hk.
  - done.
Qed.

Lemma keeps_storeCall env P {A} op (f : Store -> Store * A) :
  (forall st, P st -> P (f st).1) -> keeps P (storeCall env op f).
Proof.
  intros Hf db H. unfold storeCall.
  destruct (opFails env op); [done|].
  specialize (Hf _ H). by destruct (f (store db)).
Qed.

Lemma keeps_if P {A} (b : bool) (m1 m2 : Async A) :
  keeps P m1 -> keeps P m2 -> keeps P (if b then m1 else m2).
Proof. by destruct b. Qed.

(** The files collection once [persistProjectState] has settled, when the
    connection is up and the two calls before and at the file write succeed:
    the record written for a file of the document is still there. *)
Lemma persist_writes_file env projectId docAtFiles docAtSuggestions now joinDate db
    fileId content :
  editor_files docAtFiles !! fileId = Some content ->
  (ensureDbConnection env db).2 = Resolved true ->
  opFails env ProjectUpdateOne = false ->
  opFails env FileBulkWrite = false ->
  files (store (persistProjectState env projectId docAtFiles docAtSuggestions
                  now joinDate db).1) !! fileId
  = Some (fileRow projectId (file_tree_nodes docAtFiles) (fileId, content)).2.
Proof.
  intros Hfile Hconn Hup Hbw.
  set (row := (fileRow projectId (file_tree_nodes docAtFiles) (fileId, content)).2).
  set (rows := map (fileRow projectId (file_tree_nodes docAtFiles))
                   (map_to_list (editor_files docAtFiles))).
  assert (Hin : (fileId, row) ∈ rows).
  { unfold rows. apply list_elem_of_fmap.
    exists (fileId, content). split; [done|]. by apply elem_of_map_to_list. }
  assert (Hnd : NoDup rows.*1).
  { unfold rows. rewrite fileRows_keys. apply NoDup_fst_map_to_list. }
  assert (Hlen : (0 <? length rows)%nat = true).
  { apply Nat.ltb_lt. destruct rows; [by apply elem_of_nil in Hin | simpl; lia]. }
  assert (Hkey : fileId ∈ rows.*1).
  { apply list_elem_of_fmap. by exists (fileId, row). }
  unfold persistProjectState.
  destruct (ensureDbConnection env db) as [db1 o] eqn:Hens.
  simpl in Hconn. subst o.
  rewrite (andThen_resolved _ _ _ _ _ Hens). cbn [negb].
  erewrite andThen_resolved by (by apply storeCall_ok).
  fold rows. rewrite Hlen.
  erewrite andThen_resolved by (by apply storeCall_ok).
  match goal with |- files (store (?m ?d).1) !! _ = _ =>
    assert (Hk : keeps (fun st => files st !! fileId = Some row) m); [|apply (Hk d)]
  end.
  - apply keeps_andThen.
    + apply keeps_storeCall. intros st Hst. cbn.
      rewrite deleteManyNotIn_lookup, Hst.
      by destruct (decide _) as [[_ Hn]|].
    + intros _. apply keeps_andThen.
      * apply keeps_if; [|apply keeps_resolve].
        apply keeps_andThen; [|intros _]; by apply keeps_storeCall.
      * intros _. by apply keeps_storeCall.
  - cbn. by apply bulkUpsert_written.
Qed.

(** C8. When the parent walk from [fileId] revisits a node id,
    [buildFilePathFromTree] returns no path (through its explicit
    [return null], never by exhausting the walk), and [persistProjectState]
    stores the file under [files/<sanitized fileId>.txt]; sanitizing replaces
    each of the nine reserved characters by an underscore, trims, and yields
    [untitled] for an empty result. *)
Theorem cyclic_file_persisted_under_fallback
    env projectId docAtFiles docAtSuggestions now joinDate db fileId content :
  walkRevisits (file_tree_nodes docAtFiles) fileId ->
  editor_files docAtFiles !! fileId = Some content ->
  (ensureDbConnection env db).2 = Resolved true ->
  opFails env ProjectUpdateOne = false ->
  opFails env FileBulkWrite = false ->
  walkLoop (S (size (file_tree_nodes docAtFiles))) (file_tree_nodes docAtFiles)
           ∅ [] fileId = ReturnNull
  /\ buildFilePathFromTree fileId (file_tree_nodes docAtFiles) = None
  /\ files (store (persistProjectState env projectId docAtFiles docAtSuggestions
                     now joinDate db).1) !! fileId
     = Some {| file_project_id := projectId;
               file_path := lit "files/" ++ sanitizePathSegment fileId ++ lit ".txt";
               file_content := content |}
  /\ sanitizePathSegment fileId
     = match trim (map (fun c => if bool_decide (c ∈ [92; 47; 58; 42; 63; 34; 60; 62; 124])
                                 then 95 else c) fileId) with
       | [] => lit "untitled"
       | cleaned => cleaned
       end
  /\ Forall (fun c => c ∉ [92; 47; 58; 42; 63; 34; 60; 62; 124])
            (sanitizePathSegment fileId).
Proof.
  intros Hcyc Hfile Hconn Hup Hbw.
  pose proof (cycle_returns_null _ _ Hcyc) as Hnull.
  assert (Hbuild : buildFilePathFromTree fileId (file_tree_nodes docAtFiles) = None).
  { unfold buildFilePathFromTree. by rewrite Hnull. }
  repeat split; [done|done| | |].
  - rewrite (persist_writes_file _ _ _ _ _ _ _ _ _ Hfile Hconn Hup Hbw).
    unfold fileRow. cbn [fst snd]. by rewrite Hbuild.
  - unfold sanitizePathSegment, replaceForbidden, forbiddenInPath.
    by destruct (trim _).
  - eapply Forall_impl; [apply sanitizePathSegment_clean|].
    intros c Hc. unfold forbiddenInPath in Hc. by apply bool_decide_eq_false in Hc.
Qed.

Lemma cyclicTree_revisits : walkRevisits cyclicTree (lit "f").
Proof.
  exists (lit "a"). split.
  - apply (reach_up _ _ (lit "a")); [done|by vm_compute|apply reach_here].
  - split; [done|]. exists (lit "b"). split; [by vm_compute|].
    apply (reach_up _ _ (lit "a")); [done|by vm_compute|apply reach_here].
Qed.

Lemma cyclic_file_persisted_under_fallback_witness :
  buildFilePathFromTree (lit "f") cyclicTree = None
  /\ files (store (persistProjectState healthyEnv (lit "room1") cyclicDoc cyclicDoc
                     0 0 freshDb).1) !! lit "f"
     = Some {| file_project_id := lit "room1";
               file_path := lit "files/f.txt";
               file_content := lit "let x = 1" |}.
Proof.
  pose proof (cyclic_file_persisted_under_fallback healthyEnv (lit "room1")
    cyclicDoc cyclicDoc 0%Z 0%Z freshDb (lit "f") (lit "let x = 1")
    cyclicTree_revisits eq_refl eq_refl eq_refl eq_refl) as (_ & Hb & Hp & _).
  split; [exact Hb | exact Hp].
Defined.

Lemma ensures_resolve {A} (P : Store -> Prop) (a : A) (Q : A -> Store -> Prop) :
  (forall st, P st -> Q a st) -> ensures P (resolve a) Q.
Proof. intros H db HP. by apply H. Qed.

Lemma ensures_andThen {A B} P (m : Async A) R (k : A -> Async B) Q :
  ensures P m R -> (forall a, ensures (R a) (k a) Q) -> ensures P (andThen m k) Q.
Proof.
  intros Hm Hk db HP. unfold andThen.
  specialize (Hm db HP). destruct (m db) as [db' [a|op]]; [|done].
  by apply Hk.
Qed.

Lemma ensures_storeCall env {A} P op (f : Store -> Store * A) Q :
  (forall st, P st -> Q (f st).2 (f st).1) -> ensures P (storeCall env op f) Q.
Proof.
  intros Hf db HP. unfold storeCall.
  destruct (opFails env op); [done|].
  specialize (Hf _ HP). by destruct (f (store db)).
Qed.

Lemma suggestionRow_malformed projectId sid raw :
  wellFormedSuggestion raw = false -> suggestionRow projectId (sid, raw) = None.
Proof.
  unfold wellFormedSuggestion, suggestionRow, isString, isSharedMap. cbn [fst snd].
  intros H.
  destruct (raw !! lit "fileId") as [[]|]; try done;
  destruct (raw !! lit "authorId") as [[]|]; try done;
  destruct (raw !! lit "text") as [[]|]; try done;
  destruct (raw !! lit "votes") as [[]|]; done.
Qed.

Lemma suggestionRow_id projectId entry row :
  suggestionRow projectId entry = Some row -> row_id row = entry.1.
Proof.
  unfold suggestionRow.
  destruct (entry.2 !! lit "fileId") as [[]|]; try done;
  destruct (entry.2 !! lit "authorId") as [[]|]; try done;
  destruct (entry.2 !! lit "text") as [[]|]; try done;
  destruct (entry.2 !! lit "votes") as [[]|]; try done.
  by intros [= <-].
Qed.

(** The id of a malformed suggestion is not among the ids of the rows. *)
Lemma malformed_not_in_rows (projectId : jsstring)
    (entries : gmap jsstring (gmap jsstring YValue)) (sid : jsstring)
    (raw : gmap jsstring YValue) :
  entries !! sid = Some raw ->
  wellFormedSuggestion raw = false ->
  sid ∉ map row_id (omap (suggestionRow projectId) (map_to_list entries)).
Proof.
  intros Hsid Hbad Hin.
  apply list_elem_of_In, in_map_iff in Hin as (row & Hid & Hrow).
  apply list_elem_of_In, list_elem_of_omap in Hrow as ([k raw'] & Hentry & Hsome).
  apply suggestionRow_id in Hsome as Hk. cbn in Hk.
  apply elem_of_map_to_list in Hentry.
  assert (k = sid) by congruence. subst k.
  assert (raw' = raw) by congruence. subst raw'.
  by rewrite (suggestionRow_malformed _ _ _ Hbad) in Hsome.
Qed.

Lemma suggestion_rows_keys (rows : list SuggestionRow) :
  (map (fun r => (row_id r, row_record r)) rows).*1 = map row_id rows.
Proof. induction rows as [|r rows IH]; simpl; [done|]. by f_equal. Qed.

Lemma keeps_ensureDbConnection env P : keeps P (ensureDbConnection env).
Proof. intros db H. by rewrite ensureDbConnection_store. Qed.

(** C10. A suggestion of the document that fails the validation guard (no
    string [fileId], [authorId] or [text], or a [votes] field that is not a
    shared map) is treated as absent by [persistProjectState]: no row is
    built for it, however the call settles its store record is never written
    (it is gone or left as it was), and when the call resolves on a live
    connection a record stored earlier under that id for the project has
    been deleted by the tombstone pass. *)
Theorem malformed_suggestion_treated_as_absent
    env projectId docAtFiles docAtSuggestions now joinDate db sid raw :
  editor_suggestions docAtSuggestions !! sid = Some raw ->
  wellFormedSuggestion raw = false ->
  let settled := persistProjectState env projectId docAtFiles docAtSuggestions
                   now joinDate db in
  suggestionRow projectId (sid, raw) = None
  /\ (suggestions (store settled.1) !! sid = None
      \/ suggestions (store settled.1) !! sid = suggestions (store db) !! sid)
  /\ ((ensureDbConnection env db).2 = Resolved true ->
      settled.2 = Resolved tt ->
      forall old, suggestions (store db) !! sid = Some old ->
                  suggestion_project_id old = projectId ->
                  suggestions (store settled.1) !! sid = None).
Proof.
  intros Hsid Hbad settled.
  pose proof (malformed_not_in_rows projectId _ _ _ Hsid Hbad) as Hnotin.
  split; [by apply suggestionRow_malformed|]. split.
  - (* never written *)
    set (P := fun st : Store =>
                suggestions st !! sid = None
                \/ suggestions st !! sid = suggestions (store db) !! sid).
    assert (Hk : keeps P (persistProjectState env projectId docAtFiles
                            docAtSuggestions now joinDate)).
    { unfold persistProjectState.
      apply keeps_andThen; [apply keeps_ensureDbConnection|].
      intros connected. apply keeps_if; [apply keeps_resolve|].
      apply keeps_andThen.
      { apply keeps_storeCall. intros st Hst. cbn.
        unfold upsertProject. by destruct (projects st !! projectId). }
      intros _. apply keeps_andThen.
      { apply keeps_if; [|apply keeps_resolve]. by apply keeps_storeCall. }
      intros _. apply keeps_andThen; [by apply keeps_storeCall|].
      intros _. apply keeps_andThen.
      { apply keeps_if; [|apply keeps_resolve].
        apply keeps_andThen; [|intros _; by apply keeps_storeCall].
        apply keeps_storeCall. intros st Hst. unfold P. cbn.
        rewrite bulkUpsert_other; [done|]. by rewrite suggestion_rows_keys. }
      intros _. apply keeps_storeCall. intros st Hst. unfold P in *. cbn.
      rewrite deleteManyNotIn_lookup.
      destruct (suggestions st !! sid) as [r|]; [|by left].
      destruct (decide _); [by left|done]. }
    apply (Hk db). by right.
  - (* the tombstone pass *)
    subst settled. intros Hconn. unfold persistProjectState.
    destruct (ensureDbConnection env db) as [db1 o] eqn:Hens.
    simpl in Hconn. subst o.
    assert (Hst1 : store db1 = store db).
    { pose proof (ensureDbConnection_store env db) as E. by rewrite Hens in E. }
    rewrite (andThen_resolved _ _ _ _ _ Hens). cbn [negb].
    match goal with |- (?m db1).2 = _ -> _ =>
      assert (He : forall old, suggestion_project_id old = projectId ->
                     ensures (fun st => suggestions st !! sid = Some old) m
                             (fun _ st => suggestions st !! sid = None))
    end.
    { intros old Hproj.
      set (R := fun (_ : unit) (st : Store) => suggestions st !! sid = Some old).
      apply (ensures_andThen _ _ R).
      { apply ensures_storeCall. intros st Hst. unfold R. cbn.
        unfold upsertProject. by destruct (projects st !! projectId). }
      intros []. apply (ensures_andThen _ _ R).
      { destruct (0 <? length _)%nat.
        - by apply ensures_storeCall.
        - by apply ensures_resolve. }
      intros []. apply (ensures_andThen _ _ R); [by apply ensures_storeCall|].
      intros []. apply (ensures_andThen _ _ R).
      { destruct (0 <? length _)%nat; [|by apply ensures_resolve].
        apply (ensures_andThen _ _ R); [|intros []; by apply ensures_storeCall].
        apply ensures_storeCall. intros st Hst. unfold R. cbn.
        rewrite bulkUpsert_other; [done|]. by rewrite suggestion_rows_keys. }
      intros []. apply ensures_storeCall. intros st Hst. cbn.
      rewrite deleteManyNotIn_lookup, Hst.
      destruct (decide _) as [|Hn]; [done|]. by destruct Hn. }
    intros Hdone old Hold Hproj.
    specialize (He old Hproj db1). rewrite Hst1 in He. specialize (He Hold).
    match type of Hdone with (?m ?d).2 = _ =>
      destruct (m d) as [db2 [[]|op]]
    end; [exact He | done].
Qed.

Lemma malformed_suggestion_treated_as_absent_witness :
  suggestionRow (lit "room1") (lit "s1", brokenSuggestion) = None
  /\ suggestions (store (persistProjectState healthyEnv (lit "room1") brokenDoc
                           brokenDoc 0 0 staleDb).1) !! lit "s1" = None.
Proof.
  pose proof (malformed_suggestion_treated_as_absent healthyEnv (lit "room1")
    brokenDoc brokenDoc 0%Z 0%Z staleDb (lit "s1") brokenSuggestion
    eq_refl eq_refl) as (Hrow & _ & Htomb).
  split; [exact Hrow|].
  exact (Htomb eq_refl eq_refl staleRecord eq_refl eq_refl).
Defined.

(** ** The message handler: proofs *)

(** C1. A SYNC frame from a socket whose user's effective role ranks below
    [editor] leaves the handler's whole state as it was (the room's
    document included), and the only thing sent is one text frame to that
    socket, the error object; nothing goes to any other socket. *)
Theorem viewer_sync_is_refused lib isOpen socket data payload uuid sentAt c context :
  parseMessage data = Some (MESSAGE_TYPE_SYNC, payload) ->
  socketContexts c !! socket = Some context ->
  (getRoleRank (getEffectiveRole (room c) (user context)) < getRoleRank editor)%nat ->
  onMessage lib isOpen socket (BinaryMessage data) uuid sentAt c
  = (c,
     [Send socket (Text (JSON_stringify lib
        (JObj [ (lit "type", JStr (lit "error"));
                (lit "message", JStr (lit "insufficient permissions for editing")) ])))],
     Returns).
Proof.
  intros Hparse Hctx Hrank. unfold onMessage.
  rewrite Hparse, Hctx. cbn [N.eqb MESSAGE_TYPE_SYNC].
  apply Nat.ltb_lt in Hrank. by rewrite Hrank.
Qed.

Lemma viewer_sync_is_refused_witness :
  onMessage sampleLibs (fun _ => true) 1 (BinaryMessage [x00; x2a]) [] [] sampleConn
  = (sampleConn, [Send 1%nat (Text (lit "error"))], Returns).
Proof.
  apply (viewer_sync_is_refused sampleLibs (fun _ => true) 1%nat [x00; x2a] [x2a] [] []
           sampleConn {| roomId := lit "room1"; awarenessClientIds := ∅;
                         user := veraViewer |}).
  - reflexivity.
  - reflexivity.
  - vm_compute. lia.
Defined.

(** C9. An AWARENESS frame whose payload [readAwarenessClientIds] cannot
    decode makes the message handler throw: the exception of the decoder
    leaves the handler, which has changed nothing and sent nothing. *)
Theorem malformed_awareness_frame_throws
    lib isOpen socket payload e uuid sentAt c context :
  socketContexts c !! socket = Some context ->
  readAwarenessClientIds payload = DecodeThrows e ->
  onMessage lib isOpen socket (BinaryMessage (x01 :: payload)) uuid sentAt c
  = (c, [], Throws e).
Proof.
  intros Hctx Hdec. unfold onMessage. cbn [parseMessage].
  change (Byte.to_N x01) with 1.
  cbn [N.eqb MESSAGE_TYPE_SYNC MESSAGE_TYPE_AWARENESS Pos.eqb].
  by rewrite Hctx, Hdec.
Qed.

Lemma malformed_awareness_frame_throws_witness :
  onMessage sampleLibs (fun _ => true) 1 (BinaryMessage [x01]) [] [] sampleConn
  = (sampleConn, [], Throws UnexpectedEndOfArray).
Proof.
  apply (malformed_awareness_frame_throws sampleLibs (fun _ => true) 1%nat []
           UnexpectedEndOfArray [] [] sampleConn
           {| roomId := lit "room1"; awarenessClientIds := ∅; user := veraViewer |}).
  - reflexivity.
  - reflexivity.
Defined.

(** An update the CRDT library refuses also leaves the handler as an
    exception: the SYNC branch does not catch it either. *)
Lemma refused_update_throws lib isOpen socket payload uuid sentAt c context :
  socketContexts c !! socket = Some context ->
  (getRoleRank editor <= getRoleRank (getEffectiveRole (room c) (user context)))%nat ->
  Y_applyUpdate lib (doc (room c)) payload = None ->
  onMessage lib isOpen socket (BinaryMessage (x00 :: payload)) uuid sentAt c
  = (c, [], Throws LibraryError).
Proof.
  intros Hctx Hrank Hthrow. unfold onMessage. cbn [parseMessage].
  change (Byte.to_N x00) with 0. cbn [N.eqb MESSAGE_TYPE_SYNC].
  rewrite Hctx, Hthrow.
  destruct (getRoleRank _ <? getRoleRank editor)%nat eqn:E; [|done].
  apply Nat.ltb_lt in E. lia.
Qed.

(** Frames the handler does drop in silence: the empty binary frame, an
    unknown frame type, and text that is not a chat message. *)
Lemma dropped_frames lib isOpen socket uuid sentAt c :
  onMessage lib isOpen socket (BinaryMessage []) uuid sentAt c = (c, [], Returns)
  /\ (forall type payload,
        Byte.to_N type <> 0 -> Byte.to_N type <> 1 ->
        onMessage lib isOpen socket (BinaryMessage (type :: payload)) uuid sentAt c
        = (c, [], Returns))
  /\ (forall data,
        data <> lit "ping" -> JSON_parse lib data = None ->
        onMessage lib isOpen socket (TextMessage data) uuid sentAt c
        = (c, [], Returns)).
Proof.
  split; [done|]. split.
  - intros type payload H0 H1. unfold onMessage. cbn [parseMessage].
    apply N.eqb_neq in H0, H1. unfold MESSAGE_TYPE_SYNC, MESSAGE_TYPE_AWARENESS.
    by rewrite H0, H1.
  - intros data Hping Hparse. unfold onMessage.
    destruct (decide (data = lit "ping")); [done|].
    unfold parseIncomingChatMessage. rewrite Hparse.
    by destruct (socketContexts c !! socket).
Qed.

Lemma elem_of_recipients isOpen (r : Room) (exclude : option nat) (client : nat) :
  client ∈ recipients isOpen r exclude
  <-> client ∈ sockets r /\ Some client <> exclude /\ isOpen client = true.
Proof.
  unfold recipients. rewrite list_elem_of_filter, elem_of_elements. tauto.
Qed.

Lemma NoDup_recipients isOpen (r : Room) (exclude : option nat) :
  NoDup (recipients isOpen r exclude).
Proof. unfold recipients. apply NoDup_filter, NoDup_elements. Qed.

Lemma broadcastText_spec isOpen (r : Room) payload exclude :
  NoDup (broadcastText isOpen r payload exclude)
  /\ forall e, e ∈ broadcastText isOpen r payload exclude
       <-> exists client, e = Send client (Text payload)
                          /\ client ∈ sockets r /\ Some client <> exclude
                          /\ isOpen client = true.
Proof.
  unfold broadcastText. split.
  - assert (Hinj : Inj eq eq (fun client => Send client (Text payload)))
      by (by intros x y [= ->]).
    apply (NoDup_fmap_2 (fun client => Send client (Text payload))).
    apply NoDup_recipients.
  - intros e. split.
    + intros He. apply list_elem_of_fmap in He as (client & -> & Hc).
      exists client. split; [done|]. by apply elem_of_recipients.
    + intros (client & -> & Hc).
      apply (list_elem_of_fmap_2 (fun client => Send client (Text payload))).
      by apply elem_of_recipients.
Qed.

(** Against C5 as worded: the chat frame is not sent to a socket of the room
    that is not open. Socket 2 is in the room and gets nothing. *)
Lemma chat_skips_socket_not_open :
  2%nat ∈ sockets (room sampleConn)
  /\ (onMessage sampleLibs (fun client => (client =? 1)%nat) 1
        (TextMessage (chatFrame "  hello from vera ")) (lit "id-1") (lit "t0")
        sampleConn).1.2
     = [Send 1%nat (Text (JSON_stringify sampleLibs
          (outgoingChatMessage (lit "id-1") veraViewer (lit "hello from vera") (lit "t0"))))].
Proof. split; [set_solver | by vm_compute]. Qed.

(** C5, as the code has it. For a text frame that parses to an object of
    type [chat]: when its [text] is a string whose trim is not empty, the
    server builds the chat message from the sender's authenticated identity
    and the trimmed text and sends it, once each, to exactly the sockets of
    the room whose connection is open (the sender not excepted); otherwise
    nothing is sent. The handler's state is unchanged either way. *)
Theorem chat_is_broadcast_to_open_sockets
    lib isOpen socket data uuid sentAt c context parsed :
  data <> lit "ping" ->
  socketContexts c !! socket = Some context ->
  JSON_parse lib data = Some parsed ->
  getField (lit "type") parsed = Some (JStr (lit "chat")) ->
  let settled := onMessage lib isOpen socket (TextMessage data) uuid sentAt c in
  settled.1.1 = c /\ settled.2 = Returns /\
  match getField (lit "text") parsed with
  | Some (JStr text) =>
    if decide (trim text = []) then settled.1.2 = []
    else
      let frame :=
        Text (JSON_stringify lib
          (JObj [ (lit "type", JStr (lit "chat"));
                  (lit "id", JStr uuid);
                  (lit "userId", JStr (userId (user context)));
                  (lit "username", JStr (username (user context)));
                  (lit "text", JStr (trim text));
                  (lit "sentAt", JStr sentAt) ])) in
      NoDup settled.1.2
      /\ forall e, e ∈ settled.1.2
           <-> exists client, e = Send client frame
                              /\ client ∈ sockets (room c) /\ isOpen client = true
  | _ => settled.1.2 = []
  end.
Proof.
  intros Hping Hctx Hparse Htype settled. subst settled.
  unfold onMessage. destruct (decide (data = lit "ping")) as [|_]; [done|].
  rewrite Hctx. unfold parseIncomingChatMessage. rewrite Hparse.
  destruct parsed as [| | | | |fields]; try done.
  rewrite Htype.
  destruct (getField (lit "text") (JObj fields)) as [[| | |text| |]|]; try done.
  rewrite bool_decide_eq_false_2 by (by intros H; apply H).
  destruct (decide (trim text = [])) as [Hempty|Hfull].
  - by rewrite Hempty.
  - destruct (trim text) as [|ch rest] eqn:Htrim; [done|].
    cbn [length Nat.eqb fst snd]. split; [done|]. split; [done|].
    destruct (broadcastText_spec isOpen (room c)
                (JSON_stringify lib
                   (outgoingChatMessage uuid (user context) (ch :: rest) sentAt)) None)
      as [Hnd Hin].
    split; [exact Hnd|].
    intros e. rewrite Hin. split.
    + intros (client & -> & ? & _ & ?). by exists client.
    + intros (client & -> & ? & ?). exists client. by repeat split.
Qed.

Lemma chat_is_broadcast_to_open_sockets_witness :
  (onMessage sampleLibs (fun _ => true) 1
     (TextMessage (chatFrame "  hello from vera ")) (lit "id-1") (lit "t0")
     sampleConn).1.1 = sampleConn.
Proof.
  exact (proj1 (chat_is_broadcast_to_open_sockets sampleLibs (fun _ => true) 1%nat
    (chatFrame "  hello from vera ") (lit "id-1") (lit "t0") sampleConn
    {| roomId := lit "room1"; awarenessClientIds := ∅; user := veraViewer |}
    (JObj [ (lit "type", JStr (lit "chat"));
            (lit "text", JStr (lit "  hello from vera ")) ])
    ltac:(by vm_compute) eq_refl eq_refl eq_refl)).
Defined.

(** ** Accepting a connection: proofs *)




(** ** [loadProjectState]: proofs *)

(** Against C7 as worded: with the connection up, a failing store call
    makes [loadProjectState] reject, so the error reaches the caller. *)
Lemma loadProjectState_store_error_propagates :
  (ensureDbConnection flakyEnv freshDb).2 = Resolved true
  /\ (loadProjectState flakyEnv (lit "room1") emptyDoc 0 freshDb).2
     = Rejected ProjectUpdateOne.
Proof. split; by vm_compute. Qed.

Lemma ensureDbConnection_resolves env db :
  exists connected, (ensureDbConnection env db).2 = Resolved connected.
Proof.
  unfold ensureDbConnection. destruct (dbConnectionPromise db); simpl; eauto.
Qed.

(** C7, as the code has it. [loadProjectState] swallows one failure only,
    that of the connection: without a live connection it resolves with an
    empty permissions map and leaves the document and the store alone. With
    the connection up, the first of its store calls that fails rejects the
    whole call with that error, and it resolves when none fails. *)
Theorem loadProjectState_failure_policy env projectId doc now db :
  ((ensureDbConnection env db).2 = Resolved false ->
     (loadProjectState env projectId doc now db).2 = Resolved (∅, doc)
     /\ store (loadProjectState env projectId doc now db).1 = store db)
  /\ ((ensureDbConnection env db).2 = Resolved true ->
      match find (opFails env) loadCalls with
      | Some op => (loadProjectState env projectId doc now db).2 = Rejected op
      | None => exists persistedPermissions doc',
          (loadProjectState env projectId doc now db).2
          = Resolved (persistedPermissions, doc')
      end).
Proof.
  unfold loadProjectState.
  destruct (ensureDbConnection env db) as [db1 o] eqn:Hens.
  pose proof (ensureDbConnection_store env db) as Hstore. rewrite Hens in Hstore.
  cbn [snd fst] in *. split; intros ->.
  - by rewrite (andThen_resolved _ _ _ _ _ Hens).
  - rewrite (andThen_resolved _ _ _ _ _ Hens). cbn [negb].
    unfold loadCalls. cbn [find].
    destruct (opFails env ProjectUpdateOne) eqn:H1.
    { by erewrite andThen_rejected by (by apply storeCall_fails). }
    erewrite andThen_resolved by (by apply storeCall_ok).
    destruct (opFails env ProjectFindById) eqn:H2.
    { by erewrite andThen_rejected by (by apply storeCall_fails). }
    erewrite andThen_resolved by (by apply storeCall_ok).
    destruct (opFails env FileFind) eqn:H3.
    { by erewrite andThen_rejected by (by apply storeCall_fails). }
    erewrite andThen_resolved by (by apply storeCall_ok).
    destruct (opFails env SuggestionFind) eqn:H4.
    { by erewrite andThen_rejected by (by apply storeCall_fails). }
    erewrite andThen_resolved by (by apply storeCall_ok).
    unfold resolve. cbn [snd]. eauto.
Qed.

Lemma loadProjectState_failure_policy_witness :
  (loadProjectState ephemeralEnv (lit "room1") emptyDoc 0 freshDb).2
  = Resolved (∅, emptyDoc).
Proof.
  exact (proj1 (proj1 (loadProjectState_failure_policy ephemeralEnv (lit "room1")
                         emptyDoc 0%Z freshDb) eq_refl)).
Defined.

(** ** Effective roles: proofs *)

Lemma getEffectiveRole_eq (r : Room) (u : AuthTokenPayload) :
  getEffectiveRole r u = default (role u) (permissions r !! userId u).
Proof. unfold getEffectiveRole. by destruct (permissions r !! userId u). Qed.

(** C2. The effective role of a user in a room is the room's permissions
    entry for the user id when there is one and the token's role otherwise.
    That holds of the room before a permission change performed by an admin
    and of the room after it (whose map is the old one with the target's
    entry set). The three authorization decisions are functions of that
    value: a SYNC frame is refused exactly when it ranks below [editor], a
    permission change and a suggestion approval are answered 403 exactly
    when it is not [admin]. *)
Theorem effective_role_is_override_else_token
    lib isOpen (r : Room) (requester u : AuthTokenPayload)
    (targetUserId : jsstring) (nextRole : Role) :
  getEffectiveRole r requester = admin ->
  let effective (ρ : Room) (v : AuthTokenPayload) :=
    default (role v) (permissions ρ !! userId v) in
  let r' := (permissionsInRoom requester targetUserId nextRole r).1 in
  getEffectiveRole r u = effective r u
  /\ permissions r' = <[targetUserId := nextRole]> (permissions r)
  /\ getEffectiveRole r' u = effective r' u
  /\ getEffectiveRole r' u
     = (if decide (userId u = targetUserId) then nextRole else getEffectiveRole r u)
  /\ (forall (ρ : Room) contexts socket context data payload uuid sentAt,
        parseMessage data = Some (MESSAGE_TYPE_SYNC, payload) ->
        contexts !! socket = Some context ->
        let c := {| socketContexts := contexts; room := ρ |} in
        let settled := onMessage lib isOpen socket (BinaryMessage data) uuid sentAt c in
        if (getRoleRank (effective ρ (user context)) <? getRoleRank editor)%nat
        then settled = (c, [Send socket (Text (JSON_stringify lib errorFrame))], Returns)
        else forall doc' update,
               Y_applyUpdate lib (doc ρ) payload = Some (doc', update) ->
               doc (room settled.1.1) = doc' /\ settled.2 = Returns)
  /\ (forall (ρ : Room) v target next,
        permissionsInRoom v target next ρ
        = if decide (effective ρ v = admin)
          then (setPermissions (<[target := next]> (permissions ρ)) ρ, None)
          else (ρ, Some (Respond 403 (errorBody "admin role required"))))
  /\ (forall (ρ : Room) v suggestionId approvedAt,
        if decide (effective ρ v = admin)
        then forall payload,
               (approveInRoom lib isOpen v suggestionId approvedAt ρ).2
               <> Respond 403 payload
        else approveInRoom lib isOpen v suggestionId approvedAt ρ
             = (ρ, [], Respond 403 (errorBody "admin role required"))).
Proof.
  intros Hadmin effective r'.
  assert (Hr' : permissions r' = <[targetUserId := nextRole]> (permissions r)).
  { subst r'. unfold permissionsInRoom. rewrite Hadmin.
    by rewrite bool_decide_eq_false_2 by (by intros H; apply H). }
  split; [apply getEffectiveRole_eq|].
  split; [exact Hr'|].
  split; [apply getEffectiveRole_eq|].
  split.
  { unfold getEffectiveRole. rewrite Hr'.
    destruct (decide (userId u = targetUserId)) as [->|Hne].
    - by rewrite lookup_insert_eq.
    - by rewrite lookup_insert_ne. }
  split.
  { intros ρ contexts socket context data payload uuid sentAt Hparse Hctx c settled.
    subst settled c effective. cbn beta. rewrite <- getEffectiveRole_eq.
    unfold onMessage. rewrite Hparse. cbn [N.eqb MESSAGE_TYPE_SYNC socketContexts room].
    rewrite Hctx.
    destruct (getRoleRank _ <? getRoleRank editor)%nat; [done|].
    intros doc' update ->.
    destruct update; unfold onDocUpdate, scheduleProjectPersist; cbn; [|done].
    by destruct (persistTimer ρ). }
  split.
  { intros ρ v target next. subst effective. cbn beta.
    rewrite <- getEffectiveRole_eq. unfold permissionsInRoom.
    destruct (decide (getEffectiveRole ρ v = admin)) as [He|He].
    - rewrite bool_decide_eq_false_2; [done|]. by intros H.
    - by rewrite bool_decide_eq_true_2. }
  intros ρ v suggestionId approvedAt. subst effective. cbn beta.
  rewrite <- getEffectiveRole_eq. unfold approveInRoom.
  destruct (decide (getEffectiveRole ρ v = admin)) as [He|He].
  - rewrite bool_decide_eq_false_2 by (by intros H).
    intros payload. by destruct (editor_suggestions (doc ρ) !! suggestionId).
  - by rewrite bool_decide_eq_true_2.
Qed.

Lemma effective_role_is_override_else_token_witness :
  getEffectiveRole
    (permissionsInRoom adaAdmin (lit "u-viewer") editor sampleRoom).1 veraViewer
  = editor.
Proof.
  pose proof (effective_role_is_override_else_token sampleLibs (fun _ => true)
    sampleRoom adaAdmin veraViewer (lit "u-viewer") editor eq_refl)
    as (_ & _ & _ & H & _).
  exact H.
Defined.

(** ** The persist scheduler: proofs *)

Lemma scheduleProjectPersist_inFlight r :
  persistInFlight (scheduleProjectPersist r) = persistInFlight r.
Proof. unfold scheduleProjectPersist. cbn. by destruct (persistTimer r). Qed.

Lemma flushProjectPersist_begin_busy r :
  persistInFlight r = true ->
  flushProjectPersist_begin r = (setPersistRequested true r, false).
Proof. intros H. unfold flushProjectPersist_begin. by rewrite H. Qed.

Lemma flushProjectPersist_begin_calls r r' :
  flushProjectPersist_begin r = (r', true) ->
  persistInFlight r = false /\ persistRequested r = true
  /\ persistInFlight r' = true /\ persistRequested r' = false.
Proof.
  unfold flushProjectPersist_begin.
  destruct (persistInFlight r); [by intros [= ]|].
  destruct (persistRequested r); cbn; [|by intros [= ]].
  by intros [= <-].
Qed.

Lemma flushProjectPersist_begin_returns r r' :
  flushProjectPersist_begin r = (r', false) ->
  persistInFlight r' = persistInFlight r.
Proof.
  unfold flushProjectPersist_begin.
  destruct (persistInFlight r) eqn:E; [by intros [= <-]|].
  destruct (persistRequested r); cbn; [by intros [= ]|].
  by intros [= <-].
Qed.

Lemma flushProjectPersist_resume_inFlight ok r :
  persistInFlight (flushProjectPersist_resume ok r) = false.
Proof.
  unfold flushProjectPersist_resume.
  destruct ok; cbn; destruct (persistRequested r), (persistTimer r); done.
Qed.

(** Starting a flush from a room whose flag agrees with [flushes]. *)
Lemma afterFlushBegin_inv w (r : Room) :
  schedInv w ->
  persistInFlight r = persistInFlight (sw_room w) ->
  schedInv (afterFlushBegin w (flushProjectPersist_begin r)).
Proof.
  intros [Hlen Hflag] Hsame.
  destruct (flushProjectPersist_begin r) as [r' called] eqn:Hbegin.
  unfold afterFlushBegin, schedInv. cbn [fst snd sw_room sw_flushes].
  destruct called.
  - apply flushProjectPersist_begin_calls in Hbegin as (Hidle & _ & Hset & _).
    rewrite Hsame in Hidle.
    assert (Hnone : sw_flushes w = []).
    { destruct (sw_flushes w) as [|f fs] eqn:E; [done|].
      assert (persistInFlight (sw_room w) = true) by (by apply Hflag).
      congruence. }
    rewrite Hnone. cbn. split; [lia|]. by rewrite Hset.
  - apply flushProjectPersist_begin_returns in Hbegin.
    rewrite Hbegin, Hsame. by split.
Qed.

Lemma schedStep_inv e w w' :
  schedInv w -> schedStep e w = Some w' -> schedInv w'.
Proof.
  intros Hinv Hstep. destruct e; cbn in Hstep.
  - injection Hstep as <-. destruct Hinv as [Hlen Hflag].
    split; cbn; [done|]. by rewrite scheduleProjectPersist_inFlight.
  - destruct (persistTimer (sw_room w)); [|done]. injection Hstep as <-.
    by apply afterFlushBegin_inv.
  - injection Hstep as <-. by apply afterFlushBegin_inv.
  - injection Hstep as <-. by apply afterFlushBegin_inv.
  - destruct (sw_flushes w !! i) as [[|]|] eqn:Hi; try done.
    injection Hstep as <-. destruct Hinv as [Hlen Hflag].
    split; cbn.
    + by rewrite length_insert.
    + rewrite Hflag. split; intros H E.
      * apply (f_equal length) in E. rewrite length_insert in E.
        by destruct (sw_flushes w).
      * subst. by rewrite E in Hi.
  - destruct (sw_flushes w !! i) as [[|ok]|] eqn:Hi; try done.
    injection Hstep as <-. destruct Hinv as [Hlen Hflag].
    assert (Hone : exists f, sw_flushes w = [f]).
    { destruct (sw_flushes w) as [|f [|g fs]]; [done| by exists f | cbn in Hlen; lia]. }
    destruct Hone as [f Hone]. rewrite Hone in *.
    destruct i as [|i]; [|done].
    split; cbn; [lia|]. by rewrite flushProjectPersist_resume_inFlight.
Qed.

Lemma schedRun_inv events w w' :
  schedInv w -> schedRun events w = Some w' -> schedInv w'.
Proof.
  revert w. induction events as [|e events IH]; intros w Hinv Hrun; cbn in Hrun.
  - by injection Hrun as <-.
  - destruct (schedStep e w) as [w1|] eqn:Hstep; [|done].
    eapply IH; [|done]. by eapply schedStep_inv.
Qed.

Lemma inFlightCalls_le w : (inFlightCalls w <= length (sw_flushes w))%nat.
Proof. unfold inFlightCalls. apply length_filter. Qed.

(** C4. Whatever happens to a room created idle (requests, timers firing,
    the final flush of a teardown or shutdown, direct flushes, persist calls
    settling, suspended flushes resuming, in any order), at most one call
    of [persistProjectState] is in flight, and while one is the
    [persistInFlight] flag is set. [flushProjectPersist] entered with the
    flag set re-requests and returns without calling; when it does call, the
    flag was clear and is set before the call; the flag is cleared only by
    the continuation that runs after the call has settled. *)
Theorem at_most_one_persist_in_flight room0 events w :
  persistInFlight room0 = false ->
  schedRun events {| sw_room := room0; sw_flushes := [] |} = Some w ->
  (inFlightCalls w <= 1)%nat
  /\ (inFlightCalls w = 1%nat -> persistInFlight (sw_room w) = true)
  /\ (forall r, persistInFlight r = true ->
        flushProjectPersist_begin r = (setPersistRequested true r, false))
  /\ (forall r r', flushProjectPersist_begin r = (r', true) ->
        persistInFlight r = false /\ persistInFlight r' = true)
  /\ (forall e w', schedStep e w = Some w' ->
        persistInFlight (sw_room w) = true ->
        persistInFlight (sw_room w') = false ->
        exists i ok, e = FlushResumes i
                     /\ sw_flushes w !! i = Some (PersistSettled ok)
                     /\ inFlightCalls w = 0%nat).
Proof.
  intros Hidle Hrun.
  assert (Hinv : schedInv w).
  { eapply schedRun_inv; [|exact Hrun]. split; cbn; [lia|]. by rewrite Hidle. }
  pose proof (inFlightCalls_le w) as Hle. destruct Hinv as [Hlen Hflag].
  split; [lia|]. split.
  { intros Hone. apply Hflag. intros E. rewrite E in Hle. cbn in Hle. lia. }
  split; [apply flushProjectPersist_begin_busy|].
  split.
  { intros r r' Hb. by apply flushProjectPersist_begin_calls in Hb as (? & _ & ? & _). }
  intros e w' Hstep Hset Hclear.
  destruct e; cbn in Hstep.
  - injection Hstep as <-. cbn in Hclear.
    rewrite scheduleProjectPersist_inFlight in Hclear. congruence.
  - destruct (persistTimer (sw_room w)); [|done]. injection Hstep as <-.
    unfold persistTimerFires in Hclear.
    rewrite flushProjectPersist_begin_busy in Hclear by done. cbn in Hclear. congruence.
  - injection Hstep as <-. unfold finalFlush in Hclear.
    rewrite flushProjectPersist_begin_busy in Hclear by done. cbn in Hclear. congruence.
  - injection Hstep as <-.
    rewrite flushProjectPersist_begin_busy in Hclear by done. cbn in Hclear. congruence.
  - destruct (sw_flushes w !! i) as [[|]|]; try done.
    injection Hstep as <-. cbn in Hclear. congruence.
  - destruct (sw_flushes w !! i) as [[|ok]|] eqn:Hi; try done.
    exists i, ok. split; [done|]. split; [done|].
    destruct (sw_flushes w) as [|f [|g fs]] eqn:E; [done| |cbn in Hlen; lia].
    destruct i; [|done]. cbn in Hi. injection Hi as ->.
    unfold inFlightCalls. by rewrite E.
Qed.

Lemma at_most_one_persist_in_flight_witness :
  exists w,
    schedRun [RequestPersist; TimerFires; RequestPersist; FinalFlush; DirectFlush]
      {| sw_room := sampleRoom; sw_flushes := [] |} = Some w
    /\ (inFlightCalls w <= 1)%nat.
Proof.
  eexists. split.
  - vm_compute. reflexivity.
  - apply (at_most_one_persist_in_flight sampleRoom
             [RequestPersist; TimerFires; RequestPersist; FinalFlush; DirectFlush]).
    + reflexivity.
    + vm_compute. reflexivity.
Defined.

(** ** The room registry: proofs *)

Lemma regInv_empty : regInv emptyRegistry.
Proof. split; [intros id p H | intros p id r H]; by cbn in H. Qed.

Lemma getOrCreateRoom_inv lib id reg reg' a :
  regInv reg -> getOrCreateRoom lib id reg = (reg', a) -> regInv reg'.
Proof.
  intros [H1 H2]. unfold getOrCreateRoom.
  destruct (rooms reg !! id) as [r|] eqn:Hr; [by intros [= <- <-]|].
  destruct (pendingRooms reg !! id) as [p|] eqn:Hp; [by intros [= <- <-]|].
  intros [= <- <-]. split; cbn.
  - intros id' p'. destruct (decide (id = id')) as [<-|Hne].
    + rewrite lookup_insert_eq. intros [= <-]. split; [done|].
      exists (length (heap reg)). by rewrite lookup_app_r, Nat.sub_diag.
    + rewrite lookup_insert_ne by done. intros Hp'.
      destruct (H1 _ _ Hp') as (Hnone & r' & Hpr). split; [done|].
      exists r'. by apply lookup_app_l_Some.
  - intros p' id' r'. intros Hl.
    apply lookup_app_Some in Hl as [Hl|[Hge Hl]].
    + pose proof (H2 _ _ _ Hl) as Hpend.
      destruct (decide (id = id')) as [<-|Hne]; [congruence|].
      by rewrite lookup_insert_ne.
    + destruct (p' - length (promises reg))%nat as [|n] eqn:E; cbn in Hl; [|done].
      injection Hl as <- <-. rewrite lookup_insert_eq. f_equal. lia.
Qed.

Lemma creationSettles_inv p loaded docUpdated reg reg' :
  regInv reg -> creationSettles p loaded docUpdated reg = Some reg' -> regInv reg'.
Proof.
  intros [H1 H2]. unfold creationSettles.
  destruct (promises reg !! p) as [[id newRoom| |]|] eqn:Hp; try done.
  pose proof (H2 _ _ _ Hp) as Hpend.
  assert (Hlt : (p < length (promises reg))%nat) by (by eapply lookup_lt_Some).
  assert (Hgoal : forall rooms' heap' state,
            (forall id', rooms reg !! id' = None -> id' <> id -> rooms' !! id' = None) ->
            state <> Creating id newRoom ->
            (forall i r, state <> Creating i r) ->
            regInv {| rooms := rooms'; pendingRooms := delete id (pendingRooms reg);
                      heap := heap'; promises := <[p := state]> (promises reg) |}).
  { intros rooms' heap' state Hrooms _ Hstate. split; cbn.
    - intros id' p'. destruct (decide (id = id')) as [<-|Hne].
      + by rewrite lookup_delete_eq.
      + rewrite lookup_delete_ne by done. intros Hp'.
        destruct (H1 _ _ Hp') as (Hnone & r' & Hpr).
        split; [by apply Hrooms|]. exists r'.
        destruct (decide (p = p')) as [<-|Hpne]; [congruence|].
        by rewrite list_lookup_insert_ne.
    - intros p' id' r' Hl.
      destruct (decide (p = p')) as [<-|Hpne].
      + rewrite list_lookup_insert_eq in Hl by done. injection Hl as Hl.
        by apply Hstate in Hl.
      + rewrite list_lookup_insert_ne in Hl by done.
        pose proof (H2 _ _ _ Hl) as Hpend'.
        destruct (decide (id = id')) as [<-|Hne]; [congruence|].
        by rewrite lookup_delete_ne. }
  destruct loaded as [[perms doc']|op]; intros [= <-].
  - apply Hgoal; [|done|done]. intros id' Hnone Hne. by rewrite lookup_insert_ne.
  - by apply Hgoal.
Qed.

Lemma teardownCompletes_inv id reg : regInv reg -> regInv (teardownCompletes id reg).
Proof.
  intros [H1 H2]. split; cbn; [|done].
  intros id' p Hp. destruct (H1 _ _ Hp) as [Hnone Hpr]. split; [|done].
  destruct (decide (id = id')) as [<-|Hne].
  - by rewrite lookup_delete_eq.
  - by rewrite lookup_delete_ne.
Qed.

Lemma registryStep_inv lib e reg reg' answered :
  regInv reg -> registryStep lib e reg = Some (reg', answered) -> regInv reg'.
Proof.
  intros Hinv. destruct e as [id|p loaded docUpdated|id]; cbn.
  - destruct (getOrCreateRoom lib id reg) as [reg1 a] eqn:Hg. intros [= <- <-].
    by eapply getOrCreateRoom_inv.
  - destruct (creationSettles p loaded docUpdated reg) as [reg1|] eqn:Hc; [|done].
    intros [= <- <-]. by eapply creationSettles_inv.
  - intros [= <- <-]. by apply teardownCompletes_inv.
Qed.

Lemma registryRun_inv lib events reg reg' answers :
  regInv reg -> registryRun lib events reg = Some (reg', answers) -> regInv reg'.
Proof.
  revert reg answers.
  induction events as [|e events IH]; intros reg answers Hinv; cbn.
  - by intros [= <- <-].
  - destruct (registryStep lib e reg) as [[reg1 answered]|] eqn:Hstep; [|done].
    destruct (registryRun lib events reg1) as [[reg2 answers2]|] eqn:Hrun; [|done].
    intros [= <- <-]. eapply IH; [|done]. by eapply registryStep_inv.
Qed.

Lemma answerInv_getOrCreateRoom lib id0 reg reg' a0 id a :
  regInv reg ->
  getOrCreateRoom lib id0 reg = (reg', a0) ->
  answerInv reg id a -> answerInv reg' id a.
Proof.
  intros [H1 H2]. unfold getOrCreateRoom.
  destruct (rooms reg !! id0) as [r|] eqn:Hr; [by intros [= <- <-]|].
  destruct (pendingRooms reg !! id0) as [p|] eqn:Hp; [by intros [= <- <-]|].
  intros [= <- <-]. destruct a as [r|p]; cbn; [done|].
  destruct (promises reg !! p) as [state|] eqn:Hstate; [|done].
  by rewrite (lookup_app_l_Some _ _ _ _ Hstate).
Qed.

Lemma answerInv_new lib id reg reg' a :
  regInv reg -> getOrCreateRoom lib id reg = (reg', a) -> answerInv reg' id a.
Proof.
  intros [H1 H2]. unfold getOrCreateRoom.
  destruct (rooms reg !! id) as [r|] eqn:Hr; [by intros [= <- <-]|].
  destruct (pendingRooms reg !! id) as [p|] eqn:Hp.
  - intros [= <- <-]. cbn. destruct (H1 _ _ Hp) as (_ & r & Hpr). by rewrite Hpr.
  - intros [= <- <-]. cbn. by rewrite lookup_app_r, Nat.sub_diag.
Qed.

Lemma answerInv_creationSettles p loaded docUpdated reg reg' id a :
  regInv reg ->
  creationSettles p loaded docUpdated reg = Some reg' ->
  answerInv reg id a -> answerInv reg' id a.
Proof.
  intros [H1 H2]. unfold creationSettles.
  destruct (promises reg !! p) as [[id0 newRoom| |]|] eqn:Hp; try done.
  pose proof (H2 _ _ _ Hp) as Hpend.
  destruct (H1 _ _ Hpend) as [Hfree _].
  assert (Hlt : (p < length (promises reg))%nat) by (by eapply lookup_lt_Some).
  destruct loaded as [[perms doc']|op]; intros [= <-].
  - destruct a as [r|q]; cbn.
    + intros Hr. destruct (decide (id0 = id)) as [->|Hne]; [congruence|].
      by rewrite lookup_insert_ne.
    + destruct (decide (p = q)) as [<-|Hpq].
      * rewrite Hp. intros <-.
        by rewrite list_lookup_insert_eq, lookup_insert_eq.
      * rewrite list_lookup_insert_ne by done.
        destruct (promises reg !! q) as [[id1 r1|r1|]|]; try done.
        intros Hr. destruct (decide (id0 = id)) as [->|Hne]; [congruence|].
        by rewrite lookup_insert_ne.
  - destruct a as [r|q]; cbn; [done|].
    destruct (decide (p = q)) as [<-|Hpq].
    + by rewrite list_lookup_insert_eq.
    + by rewrite list_lookup_insert_ne.
Qed.

Lemma registryStep_answers lib e reg reg' answered answers :
  isTeardown e = false ->
  regInv reg ->
  registryStep lib e reg = Some (reg', answered) ->
  answersInv reg answers ->
  answersInv reg' (answers ++ match answered with Some a => [a] | None => [] end).
Proof.
  intros Hkind Hinv Hstep Hanswers.
  destruct e as [id0|p loaded docUpdated|id0]; cbn in Hstep; [| |done].
  - destruct (getOrCreateRoom lib id0 reg) as [reg1 a0] eqn:Hg.
    injection Hstep as <- <-. intros id a Hin.
    apply elem_of_app in Hin as [Hin|Hin].
    + eapply answerInv_getOrCreateRoom; eauto.
    + apply list_elem_of_singleton in Hin. injection Hin as -> ->.
      by eapply answerInv_new.
  - destruct (creationSettles p loaded docUpdated reg) as [reg1|] eqn:Hc; [|done].
    injection Hstep as <- <-. rewrite app_nil_r. intros id a Hin.
    eapply answerInv_creationSettles; eauto.
Qed.

Lemma registryRun_answers lib events reg reg' before answers :
  forallb (fun e => negb (isTeardown e)) events = true ->
  regInv reg ->
  registryRun lib events reg = Some (reg', answers) ->
  answersInv reg before ->
  answersInv reg' (before ++ answers).
Proof.
  revert reg before answers.
  induction events as [|e events IH]; intros reg before answers Hkinds Hinv; cbn.
  - intros [= <- <-]. by rewrite app_nil_r.
  - cbn in Hkinds. apply andb_true_iff in Hkinds as [Hkind Hkinds].
    apply negb_true_iff in Hkind.
    destruct (registryStep lib e reg) as [[reg1 answered]|] eqn:Hstep; [|done].
    destruct (registryRun lib events reg1) as [[reg2 answers2]|] eqn:Hrun; [|done].
    intros [= <- <-] Hbefore.
    pose proof (registryStep_answers _ _ _ _ _ _ Hkind Hinv Hstep Hbefore) as Hnext.
    pose proof (registryStep_inv _ _ _ _ _ Hinv Hstep) as Hinv1.
    specialize (IH _ _ _ Hkinds Hinv1 Hrun Hnext).
    destruct answered as [a|]; [|by rewrite app_nil_r in IH].
    by rewrite <- app_assoc in IH.
Qed.

Lemma answerInv_resolvesTo reg id a r :
  answerInv reg id a -> resolvesTo reg a = Some r -> rooms reg !! id = Some r.
Proof.
  destruct a as [r'|p]; cbn; [by intros ? [= <-]|].
  destruct (promises reg !! p) as [[| |]|]; try done. by intros ? [= <-].
Qed.

(** What does hold of the registry. Take any registry reached from the
    empty one ([history], teardowns included) and any further run in which no
    teardown completes ([storm]).
    Then: no room id is both registered and pending, and at most one
    creation is under way per id, so at most one Room per id is registered
    or being created; all the calls of [getOrCreateRoom] for one id made
    during the storm that resolve, resolve to one and the same Room, the one
    registered under the id. A further call returns the registered room,
    else follows the pending creation, else installs a new pending entry
    whose completion registers exactly the one Room it constructed and
    removes the entry. When the load of a creation rejects, its pending
    entry is removed, nothing is registered, and the promise the callers
    await rejects. *)
Theorem getOrCreateRoom_yields_one_room
    lib (history storm : list RegistryEvent) reg0 answers0 reg answers :
  registryRun lib history emptyRegistry = Some (reg0, answers0) ->
  forallb (fun e => negb (isTeardown e)) storm = true ->
  registryRun lib storm reg0 = Some (reg, answers) ->
  (forall id, rooms reg !! id = None \/ pendingRooms reg !! id = None)
  /\ (forall p q id r r',
        promises reg !! p = Some (Creating id r) ->
        promises reg !! q = Some (Creating id r') -> p = q)
  /\ (forall id a1 a2 r1 r2,
        (id, a1) ∈ answers -> (id, a2) ∈ answers ->
        resolvesTo reg a1 = Some r1 -> resolvesTo reg a2 = Some r2 ->
        r1 = r2 /\ rooms reg !! id = Some r1)
  /\ (forall id,
        match rooms reg !! id, pendingRooms reg !! id with
        | Some existingRoom, _ =>
          getOrCreateRoom lib id reg = (reg, Settled existingRoom)
        | None, Some pendingRoom =>
          getOrCreateRoom lib id reg = (reg, Awaits pendingRoom)
        | None, None =>
          let creatingRoom := length (promises reg) in
          let newRoom := length (heap reg) in
          let reg' := (getOrCreateRoom lib id reg).1 in
          (getOrCreateRoom lib id reg).2 = Awaits creatingRoom
          /\ pendingRooms reg' = <[id := creatingRoom]> (pendingRooms reg)
          /\ rooms reg' = rooms reg
          /\ forall persistedPermissions doc' docUpdated,
               exists reg'',
                 creationSettles creatingRoom
                   (Resolved (persistedPermissions, doc')) docUpdated reg' = Some reg''
                 /\ rooms reg'' = <[id := newRoom]> (rooms reg)
                 /\ pendingRooms reg'' = pendingRooms reg
                 /\ resolvesTo reg'' (Awaits creatingRoom) = Some newRoom
        end)
  /\ (forall p id newRoom op docUpdated,
        promises reg !! p = Some (Creating id newRoom) ->
        exists reg',
          creationSettles p (Rejected op) docUpdated reg = Some reg'
          /\ pendingRooms reg !! id = Some p
          /\ pendingRooms reg' !! id = None
          /\ rooms reg' = rooms reg
          /\ rejects reg' (Awaits p) = true).
Proof.
  intros Hhistory Hstorm Hrun.
  pose proof (registryRun_inv _ _ _ _ _ regInv_empty Hhistory) as Hinv0.
  pose proof (registryRun_inv _ _ _ _ _ Hinv0 Hrun) as Hinv.
  assert (Hanswers : answersInv reg answers).
  { apply (registryRun_answers lib storm reg0 reg [] answers); try done.
    intros id a Hin. by apply elem_of_nil in Hin. }
  destruct Hinv as [H1 H2].
  split.
  { intros id. destruct (pendingRooms reg !! id) as [p|] eqn:Hp; [|by right].
    left. by destruct (H1 _ _ Hp). }
  split.
  { intros p q id r r' Hp Hq. apply H2 in Hp, Hq. congruence. }
  split.
  { intros id a1 a2 r1 r2 Hin1 Hin2 Hr1 Hr2.
    pose proof (answerInv_resolvesTo _ _ _ _ (Hanswers _ _ Hin1) Hr1) as E1.
    pose proof (answerInv_resolvesTo _ _ _ _ (Hanswers _ _ Hin2) Hr2) as E2.
    split; [congruence|done]. }
  split.
  { intros id. unfold getOrCreateRoom.
    destruct (rooms reg !! id) as [r|] eqn:Hr; [done|].
    destruct (pendingRooms reg !! id) as [p|] eqn:Hp; [done|].
    cbn. split; [done|]. split; [done|]. split; [done|].
    intros perms doc' docUpdated. unfold creationSettles. cbn.
    rewrite lookup_app_r, Nat.sub_diag by done. cbn.
    eexists. split; [done|]. cbn. split; [done|]. split.
    - rewrite delete_insert_eq. by apply delete_id.
    - rewrite list_lookup_insert_eq; [done|]. rewrite length_app. cbn. lia. }
  intros p id newRoom op docUpdated Hp.
  unfold creationSettles. rewrite Hp.
  eexists. split; [done|]. cbn. split; [by eapply H2|].
  split; [by rewrite lookup_delete_eq|]. split; [done|].
  rewrite list_lookup_insert_eq; [done|]. by eapply lookup_lt_Some.
Qed.

Lemma getOrCreateRoom_yields_one_room_witness :
  exists reg answers,
    registryRun sampleLibs sampleStorm emptyRegistry = Some (reg, answers)
    /\ answers = [ (lit "room1", Awaits 0%nat); (lit "room1", Awaits 0%nat);
                   (lit "room1", Settled 0%nat) ]
    /\ rooms reg !! lit "room1" = Some 0%nat.
Proof.
  eexists. eexists. split; [vm_compute; reflexivity|]. split; [reflexivity|].
  refine (proj2 (proj1 (proj2 (proj2
    (getOrCreateRoom_yields_one_room sampleLibs [] sampleStorm emptyRegistry []
       _ _ eq_refl eq_refl _)))
    (lit "room1") (Awaits 0%nat) (Settled 0%nat) 0%nat 0%nat _ _ _ _)).
  - vm_compute. reflexivity.
  - apply list_elem_of_here.
  - do 2 apply list_elem_of_further. apply list_elem_of_here.
  - reflexivity.
  - reflexivity.
Defined.

(** C3. The claim does not hold of the code. The teardown that
    [removeSocketFromRoom] starts awaits the final flush and then runs
    [rooms.delete(roomId)] without looking at [room.sockets] again, while
    [getOrCreateRoom] keeps answering with the registered Room during that
    flush. In the run [teardownRace], whatever the library, the users and the
    stored state: closing socket 1 starts the teardown with a
    [persistProjectState] call in flight; socket 2 is answered with the Room
    socket 1 left (object 0) and enters it; the teardown then unregisters
    that Room; socket 3 is answered with a new Room (object 1). So the two
    acquisitions of the one id resolve to different Room objects, and both
    Rooms exist at once, each holding a socket whose context names that id,
    only the second being registered. *)
Theorem teardown_race_gives_two_rooms (lib : Libs) (isOpen : nat -> bool)
    (user1 user2 user3 : AuthTokenPayload)
    (permissions1 permissions3 : gmap jsstring Role) (doc1 doc3 : Doc)
    (docUpdated1 docUpdated3 : bool) :
  match teardownRace lib isOpen user1 user2 user3 permissions1 permissions3
          doc1 doc3 docUpdated1 docUpdated3 with
  | Some (contexts, reg, teardown, answer2, answer3) =>
    teardown = Some (lit "room1", true)
    /\ resolvesTo reg answer2 = Some 0%nat
    /\ resolvesTo reg answer3 = Some 1%nat
    /\ roomId <$> contexts !! 2%nat = Some (lit "room1")
    /\ roomId <$> contexts !! 3%nat = Some (lit "room1")
    /\ sockets <$> heap reg !! 0%nat = Some ({[2%nat]} : gset nat)
    /\ sockets <$> heap reg !! 1%nat = Some ({[3%nat]} : gset nat)
    /\ rooms reg !! lit "room1" = Some 1%nat
  | None => False
  end.
Proof. destruct docUpdated1, docUpdated3; vm_compute; by repeat split. Qed.

(** ** The decoder: the fuel of [readClientEntries] is enough *)

Lemma readVarUintFrom_shorter num mult bytes value rest :
  readVarUintFrom num mult bytes = Read value rest ->
  (length rest < length bytes)%nat.
Proof.
  revert num mult. induction bytes as [|r bytes IH]; intros num mult; cbn; [done|].
  destruct (Byte.to_N r <? 128).
  - intros [= _ <-]. lia.
  - destruct (MAX_SAFE_INTEGER <? _); [done|].
    intros H. apply IH in H. lia.
Qed.

Lemma readVarString_shorter bytes rest :
  readVarString bytes = Read tt rest -> (length rest < length bytes)%nat.
Proof.
  unfold readVarString, readVarUint.
  destruct (readVarUintFrom 0 1 bytes) as [len rest0|e] eqn:Hlen; [|done].
  apply readVarUintFrom_shorter in Hlen.
  destruct (N.of_nat (length rest0) <? len); [done|].
  intros [= <-]. rewrite length_drop. lia.
Qed.

(** Any fuel not below the number of bytes left gives the same result:
    running out of fuel coincides with reading past the end. *)
Lemma readClientEntries_fuel fuel1 fuel2 remaining clientIds bytes :
  (length bytes <= fuel1)%nat -> (length bytes <= fuel2)%nat ->
  readClientEntries fuel1 remaining clientIds bytes
  = readClientEntries fuel2 remaining clientIds bytes.
Proof.
  revert fuel2 remaining clientIds bytes.
  induction fuel1 as [|fuel1 IH]; intros fuel2 remaining clientIds bytes H1 H2.
  - destruct bytes; [|cbn in H1; lia].
    destruct fuel2; cbn; [done|]. by destruct (remaining =? 0).
  - destruct fuel2 as [|fuel2].
    + destruct bytes; [|cbn in H2; lia]. cbn. by destruct (remaining =? 0).
    + cbn. destruct (remaining =? 0); [done|].
      destruct (readVarUint bytes) as [clientId rest1|e] eqn:E1; [|done].
      destruct (readVarUint rest1) as [clock rest2|e] eqn:E2; [|done].
      destruct (readVarString rest2) as [[] rest3|e] eqn:E3; [|done].
      apply readVarUintFrom_shorter in E1, E2.
      apply readVarString_shorter in E3.
      apply IH; lia.
Qed.

(** ** The definitions at work *)

Example sanitize_slash : sanitizePathSegment (lit "a/b") = lit "a_b".
Proof. reflexivity. Qed.

Example sanitize_blank : sanitizePathSegment (lit "   ") = lit "untitled".
Proof. reflexivity. Qed.

Example sanitize_trims : sanitizePathSegment (lit "  a:b*c  ") = lit "a_b_c".
Proof. reflexivity. Qed.

(** A file two folders deep. *)
Example path_of_nested_file :
  buildFilePathFromTree (lit "f")
    {[ lit "f" := treeNode "main.ts" "src";
       lit "src" := treeNode "src" "root";
       lit "root" := {[ lit "name" := YStr (lit "app"); lit "parentId" := YNull ]} ]}
  = Some (lit "app/src/main.ts").
Proof. by vm_compute. Qed.

(** A parent that is missing from the map ends the walk once a segment has
    been collected; a missing file id yields no path. *)
Example path_with_missing_parent :
  buildFilePathFromTree (lit "f") {[ lit "f" := treeNode "main.ts" "gone" ]}
  = Some (lit "main.ts")
  /\ buildFilePathFromTree (lit "gone") {[ lit "f" := treeNode "main.ts" "gone" ]}
     = None.
Proof. split; by vm_compute. Qed.

(** The empty string is a falsy id: a parent chain through it ends the walk
    there, so such a chain is not a revisit even when it closes up. *)
Example path_through_empty_id :
  buildFilePathFromTree (lit "a")
    {[ lit "a" := treeNode "A" ""; lit "" := treeNode "E" "a" ]}
  = Some (lit "A").
Proof. by vm_compute. Qed.

Example cyclic_path_is_null : buildFilePathFromTree (lit "f") cyclicTree = None.
Proof. by vm_compute. Qed.

Example room_ids :
  isValidRoomId [] = false
  /\ isValidRoomId (lit "a") = true
  /\ isValidRoomId (repeat 97 64) = true
  /\ isValidRoomId (repeat 97 65) = false
  /\ isValidRoomId (lit "a/b") = false
  /\ isValidRoomId (lit "a.b") = false
  /\ isValidRoomId (lit "chat-room_1") = true.
Proof. repeat split; by vm_compute. Qed.

Example varuint_examples :
  readVarUint [x05] = Read 5 []
  /\ readVarUint [x80; x01; xff] = Read 128 [xff]
  /\ readVarUint [x80] = DecodeThrows UnexpectedEndOfArray
  /\ readVarUint [] = DecodeThrows UnexpectedEndOfArray.
Proof. repeat split; by vm_compute. Qed.

(** One client, id 7, clock 1, state [{}]; the same update cut short. *)
Example awareness_client_ids :
  readAwarenessClientIds [x01; x07; x01; x02; x7b; x7d] = Read [7] []
  /\ readAwarenessClientIds [x01; x07; x01; x02; x7b]
     = DecodeThrows RangeError
  /\ readAwarenessClientIds [x02; x07; x01; x02; x7b; x7d]
     = DecodeThrows UnexpectedEndOfArray.
Proof. repeat split; by vm_compute. Qed.

Example bearer_tokens :
  extractBearerToken (Some (lit "Bearer abc")) = Some (lit "abc")
  /\ extractBearerToken (Some (lit "Basic abc")) = None
  /\ extractBearerToken (Some (lit "Bearer")) = None
  /\ extractBearerToken None = None.
Proof. repeat split; by vm_compute. Qed.

(** An editor's SYNC frame is applied: the update reaches the other open
    socket, not the sender, and a persist is scheduled. *)
Example editor_sync_is_applied :
  let c := {| socketContexts := socketContexts sampleConn;
              room := setPermissions {[ lit "u-viewer" := editor ]} sampleRoom |} in
  let settled := onMessage sampleLibs (fun _ => true) 1
                   (BinaryMessage [x00; x2a]) [] [] c in
  settled.1.2 = [Send 2%nat (Binary [x00; x2a])]
  /\ persistTimer (room settled.1.1) = Some 1200%nat
  /\ persistRequested (room settled.1.1) = true.
Proof. repeat split; by vm_compute. Qed.

(** A request, the timer, a failing persist: the retry timer is armed for
    600 ms and the request is kept. *)
Example failed_persist_is_retried :
  match schedRun [RequestPersist; TimerFires; PersistSettles 0 false; FlushResumes 0]
          {| sw_room := sampleRoom; sw_flushes := [] |} with
  | Some w => persistTimer (sw_room w) = Some 600%nat
              /\ persistRequested (sw_room w) = true
              /\ persistInFlight (sw_room w) = false
              /\ sw_flushes w = []
  | None => False
  end.
Proof. by vm_compute. Qed.

(** * Further properties of the code *)

(** ** Wire format and strings *)

(** X1. Framing round trip: parsing an encoded message gives back the type
    byte (the type modulo 256, as a [Uint8Array] stores it) and the payload
    untouched; an encoded message is never empty, and only the empty frame
    fails to parse. *)
Theorem parseMessage_encodeMessage (type : N) (payload : list byte) :
  parseMessage (encodeMessage type payload) = Some (type mod 256, payload)
  /\ encodeMessage type payload <> []
  /\ (forall data, parseMessage data = None <-> data = []).
Proof.
  assert (Hlt : type mod 256 < 256) by (by apply N.mod_lt).
  unfold encodeMessage.
  destruct (Byte.of_N (type mod 256)) as [b|] eqn:Hb.
  - split; [|split; [done|]].
    + cbn. by erewrite Byte.to_of_N by exact Hb.
    + intros [|d data]; by split.
  - exfalso. apply Byte.of_N_None_iff in Hb. lia.
Qed.

Lemma trimStart_fixed s :
  match s with c :: _ => isWhiteSpace c = false | [] => True end ->
  trimStart s = s.
Proof. destruct s as [|c s]; [done|]. cbn. by intros ->. Qed.

Lemma trimStart_head s :
  match trimStart s with c :: _ => isWhiteSpace c = false | [] => True end.
Proof.
  induction s as [|c s IH]; [done|]. cbn.
  destruct (isWhiteSpace c) eqn:E; [done|]. by rewrite E.
Qed.

Lemma trim_fixed s :
  match s with c :: _ => isWhiteSpace c = false | [] => True end ->
  match rev s with c :: _ => isWhiteSpace c = false | [] => True end ->
  trim s = s.
Proof.
  intros H1 H2. unfold trim, trimEnd.
  by rewrite (trimStart_fixed s H1), (trimStart_fixed _ H2), rev_involutive.
Qed.

(** A trimmed string starts and ends with a character that is not white
    space. *)
Lemma trim_head s :
  match trim s with c :: _ => isWhiteSpace c = false | [] => True end
  /\ match rev (trim s) with c :: _ => isWhiteSpace c = false | [] => True end.
Proof.
  unfold trim, trimEnd. split; [|rewrite rev_involutive; apply trimStart_head].
  pose proof (trimStart_head s) as Hy.
  destruct (trimStart_suffix (rev (trimStart s))) as [pre Hpre].
  apply (f_equal (@rev N)) in Hpre. rewrite rev_involutive, rev_app_distr in Hpre.
  destruct (rev (trimStart (rev (trimStart s)))) as [|c z]; [done|].
  rewrite Hpre in Hy. exact Hy.
Qed.

Lemma trim_idempotent s : trim (trim s) = trim s.
Proof. destruct (trim_head s). by apply trim_fixed. Qed.

Lemma replaceForbidden_clean s :
  Forall (fun c => forbiddenInPath c = false) s -> replaceForbidden s = s.
Proof.
  induction 1 as [|c s Hc _ IH]; [done|].
  unfold replaceForbidden in *. cbn. by rewrite Hc, IH.
Qed.

(** X2. Sanitizing is idempotent, and a sanitized segment is never empty,
    holds none of the reserved characters, and neither starts nor ends with
    white space. *)
Theorem sanitizePathSegment_idempotent (segment : jsstring) :
  sanitizePathSegment (sanitizePathSegment segment) = sanitizePathSegment segment
  /\ sanitizePathSegment segment <> []
  /\ Forall (fun c => c ∉ [92; 47; 58; 42; 63; 34; 60; 62; 124])
            (sanitizePathSegment segment)
  /\ trim (sanitizePathSegment segment) = sanitizePathSegment segment.
Proof.
  assert (Hfix : trim (sanitizePathSegment segment) = sanitizePathSegment segment).
  { unfold sanitizePathSegment.
    destruct (0 <? length (trim (replaceForbidden segment)))%nat.
    - apply trim_idempotent.
    - by vm_compute. }
  split; [|split; [apply sanitizePathSegment_nonempty|split; [|exact Hfix]]].
  - pose proof (sanitizePathSegment_clean segment) as Hclean.
    pose proof (sanitizePathSegment_nonempty segment) as Hne.
    unfold sanitizePathSegment at 1.
    rewrite (replaceForbidden_clean _ Hclean), Hfix.
    destruct (sanitizePathSegment segment); [done|]. done.
  - eapply Forall_impl; [apply sanitizePathSegment_clean|].
    intros c Hc. unfold forbiddenInPath in Hc. by apply bool_decide_eq_false in Hc.
Qed.

Lemma isRoomIdChar_plain c :
  isRoomIdChar c = true -> isWhiteSpace c = false /\ forbiddenInPath c = false.
Proof.
  unfold isRoomIdChar, isWhiteSpace, forbiddenInPath. intros H.
  rewrite !orb_true_iff, !andb_true_iff, !N.leb_le, !N.eqb_eq in H.
  split.
  - apply orb_false_intro.
    + apply bool_decide_eq_false_2. intros Hin.
      repeat (apply elem_of_cons in Hin as [->|Hin]; [lia|]).
      by apply elem_of_nil in Hin.
    + apply andb_false_iff. rewrite !N.leb_gt. lia.
  - apply bool_decide_eq_false_2. intros Hin.
    repeat (apply elem_of_cons in Hin as [->|Hin]; [lia|]).
    by apply elem_of_nil in Hin.
Qed.

(** X3. A room id the server accepts is a safe path segment as it is:
    sanitizing leaves it unchanged (it is not empty and holds no reserved
    character and no white space). *)
Theorem valid_room_id_is_sanitized (roomId : jsstring) :
  isValidRoomId roomId = true ->
  sanitizePathSegment roomId = roomId
  /\ (1 <= length roomId <= 64)%nat.
Proof.
  unfold isValidRoomId. rewrite !andb_true_iff, !Nat.leb_le, forallb_forall.
  intros [[Hlo Hhi] Hchars].
  assert (Hall : Forall (fun c => isWhiteSpace c = false /\ forbiddenInPath c = false)
                        roomId).
  { apply List.Forall_forall. intros c Hc. by apply isRoomIdChar_plain, Hchars. }
  split; [|lia].
  unfold sanitizePathSegment.
  rewrite replaceForbidden_clean by (eapply Forall_impl; [exact Hall|]; by intros c []).
  rewrite trim_fixed.
  - destruct roomId; [cbn in Hlo; lia|done].
  - destruct Hall as [|c s [Hc _] _]; done.
  - apply Forall_rev in Hall. destruct Hall as [|c s [Hc _] _]; done.
Qed.

Lemma valid_room_id_is_sanitized_witness :
  sanitizePathSegment (lit "chat-room_1") = lit "chat-room_1".
Proof.
  exact (proj1 (valid_room_id_is_sanitized (lit "chat-room_1") eq_refl)).
Defined.

(** ** Path derivation, the successful walks *)

Lemma pathChain_start treeNodes id names :
  pathChain treeNodes id names ->
  truthy id = true /\ is_Some (treeNodes !! id) /\ names <> [].
Proof. destruct 1; eauto. Qed.

Lemma pathChain_deterministic treeNodes id names1 names2 :
  pathChain treeNodes id names1 -> pathChain treeNodes id names2 -> names1 = names2.
Proof.
  intros H1. revert names2.
  induction H1 as [id node name Ht Hn Hname Hpar
                  |id node name parentId Ht Hn Hname Hpar Hstop
                  |id node name parentId names Ht Hn Hname Hpar Hrest IH];
    intros names2 H2;
    destruct H2 as [id node' name' Ht' Hn' Hname' Hpar'
                   |id node' name' parentId' Ht' Hn' Hname' Hpar' Hstop'
                   |id node' name' parentId' names' Ht' Hn' Hname' Hpar' Hrest'];
    assert (node' = node) by congruence; subst node';
    try congruence.
  - assert (parentId' = parentId) by congruence. subst.
    apply pathChain_start in Hrest' as (Hp & [n Hsome] & _).
    destruct Hstop as [Hstop|Hstop]; congruence.
  - assert (parentId' = parentId) by congruence. subst.
    apply pathChain_start in Hrest as (Hp & [n Hsome] & _).
    destruct Hstop' as [Hstop'|Hstop']; congruence.
  - assert (parentId' = parentId) by congruence. subst.
    assert (name' = name) by congruence. subst.
    f_equal. by apply IH.
Qed.

(** Along a chain the loop collects the sanitized names; the ids already
    visited all have longer chains, so none is met again. *)
Lemma walkLoop_chain fuel treeNodes visited pathSegments cur names :
  pathChain treeNodes cur names ->
  (forall v, v ∈ visited ->
     exists chain, pathChain treeNodes v chain /\ (length names < length chain)%nat) ->
  walkLoop fuel treeNodes visited pathSegments cur = OutOfFuel
  \/ walkLoop fuel treeNodes visited pathSegments cur
     = LoopDone (pathSegments ++ map sanitizePathSegment names).
Proof.
  revert visited pathSegments cur names.
  induction fuel as [|fuel IH]; intros visited pathSegments cur names Hchain Hvis;
    [by left|].
  assert (Hfresh : cur ∉ visited).
  { intros Hin. destruct (Hvis _ Hin) as (chain & Hc & Hlt).
    rewrite (pathChain_deterministic _ _ _ _ Hc Hchain) in Hlt. lia. }
  cbn [walkLoop].
  destruct Hchain as [id node name Ht Hn Hname Hpar
                     |id node name parentId Ht Hn Hname Hpar Hstop
                     |id node name parentId names Ht Hn Hname Hpar Hrest];
    rewrite Ht; cbn [negb]; rewrite bool_decide_eq_false_2 by done;
    rewrite Hn, Hname, Hpar.
  - by right.
  - destruct fuel as [|fuel]; [by left|]. right. cbn [walkLoop map].
    destruct Hstop as [Hfalsy|Hmissing].
    + by rewrite Hfalsy.
    + destruct (truthy parentId); cbn [negb]; [|done].
      rewrite bool_decide_eq_false_2.
      * rewrite Hmissing. rewrite length_app. cbn.
        by rewrite Nat.add_1_r.
      * intros Hin. apply elem_of_union in Hin as [Hin|Hin].
        -- apply elem_of_singleton in Hin. congruence.
        -- destruct (Hvis _ Hin) as (chain & Hc & _).
           apply pathChain_start in Hc as (_ & [n Hsome] & _). congruence.
  - destruct (IH ({[id]} ∪ visited) (pathSegments ++ [sanitizePathSegment name])
                parentId names Hrest) as [H|H].
    + intros v Hin. apply elem_of_union in Hin as [Hin|Hin].
      * apply elem_of_singleton in Hin. subst v.
        exists (name :: names). split; [by eapply chain_up|cbn; lia].
      * destruct (Hvis _ Hin) as (chain & Hc & Hlt).
        exists chain. split; [done|]. cbn in Hlt. lia.
    + by left.
    + right. rewrite H. cbn [map]. by rewrite <- app_assoc.
Qed.

(** What a completed loop collected, read back as a chain. *)
Lemma walkLoop_done fuel treeNodes visited pathSegments cur collected :
  walkLoop fuel treeNodes visited pathSegments cur = LoopDone collected ->
  (collected = pathSegments
   /\ (truthy cur = false \/ (treeNodes !! cur = None /\ pathSegments <> [])))
  \/ exists names, pathChain treeNodes cur names
                   /\ collected = pathSegments ++ map sanitizePathSegment names.
Proof.
  revert visited pathSegments cur.
  induction fuel as [|fuel IH]; intros visited pathSegments cur; [done|].
  cbn [walkLoop]. destruct (truthy cur) eqn:Ht; cbn [negb].
  2:{ intros [= <-]. left. split; [done|by left]. }
  case_bool_decide; [done|].
  destruct (treeNodes !! cur) as [node|] eqn:Hn.
  2:{ destruct pathSegments as [|seg segs]; cbn; [done|].
      intros [= <-]. left. split; [done|]. right. by split. }
  destruct (node !! lit "name") as [[| | |name| |]|] eqn:Hname; try done.
  destruct (node !! lit "parentId") as [[| | |parentId| |]|] eqn:Hpar; try done.
  - intros [= <-]. right. exists [name]. split; [by eapply chain_root|done].
  - intros Hrec. right.
    destruct (IH _ _ _ Hrec) as [[-> Hstop]|(names & Hchain & ->)].
    + exists [name]. split; [|done].
      eapply chain_open; eauto. destruct Hstop as [?|[? _]]; eauto.
    + exists (name :: names). split; [by eapply chain_up|].
      cbn [map]. by rewrite <- app_assoc.
Qed.

Lemma join_nonempty sep (parts : list jsstring) :
  parts <> [] -> Forall (fun part => part <> []) parts -> join sep parts <> [].
Proof.
  destruct parts as [|part [|part' rest]]; [done| |].
  - intros _ Hall. by apply Forall_inv in Hall.
  - intros _ Hall. apply Forall_inv in Hall. cbn. by destruct part.
Qed.

Lemma buildFilePathFromTree_Some (fileId : jsstring)
    (treeNodes : gmap jsstring (gmap jsstring YValue)) (path : jsstring) :
  buildFilePathFromTree fileId treeNodes = Some path ->
  exists names,
    pathChain treeNodes fileId names
    /\ path = join (lit "/") (rev (map sanitizePathSegment names))
    /\ path <> [].
Proof.
  unfold buildFilePathFromTree.
  destruct (walkLoop _ _ _ _ _) as [|collected|] eqn:Hloop; try done.
  destruct (length collected =? 0)%nat eqn:Hlen; [done|].
  intros [= <-].
  apply walkLoop_done in Hloop as [[Hnil _]|(names & Hchain & Heq)];
    [by rewrite Hnil in Hlen|].
  change ([] ++ map sanitizePathSegment names)
    with (map sanitizePathSegment names) in Heq.
  exists names. split; [done|]. split; [by rewrite Heq|].
  apply join_nonempty.
  - intros E. apply (f_equal (@rev jsstring)) in E.
    rewrite rev_involutive in E. by rewrite E in Hlen.
  - apply Forall_rev. rewrite Heq. apply List.Forall_forall.
    intros part Hin. apply in_map_iff in Hin as (name & <- & _).
    apply sanitizePathSegment_nonempty.
Qed.

(** X4. [buildFilePathFromTree] returns a path exactly for the ids from
    which the parent walk is a chain of nodes with string names that ends at
    a node whose parent is [null], empty or missing; the path is then the
    sanitized names joined by slashes, outermost folder first, and it is
    never empty. *)
Theorem buildFilePathFromTree_chain (fileId : jsstring)
    (treeNodes : gmap jsstring (gmap jsstring YValue)) (path : jsstring) :
  buildFilePathFromTree fileId treeNodes = Some path
  <-> exists names,
        pathChain treeNodes fileId names
        /\ path = join (lit "/") (rev (map sanitizePathSegment names))
        /\ path <> [].
Proof.
  split; [apply buildFilePathFromTree_Some|].
  intros (names & Hchain & -> & _). unfold buildFilePathFromTree.
  pose proof (walkLoop_terminates fileId treeNodes) as Hfuel.
  destruct (walkLoop_chain (S (size treeNodes)) treeNodes ∅ [] fileId names Hchain)
    as [H|H]; [set_solver|done|].
  rewrite H. cbn [app].
  apply pathChain_start in Hchain as (_ & _ & Hne).
  destruct names as [|name names]; [done|]. done.
Qed.

(** X5. No path comes out for the empty id or for an id missing from the
    node map, and a path that comes out holds none of the reserved
    characters other than the slashes that separate its segments. *)
Theorem buildFilePathFromTree_edges (fileId : jsstring)
    (treeNodes : gmap jsstring (gmap jsstring YValue)) :
  (fileId = [] \/ treeNodes !! fileId = None ->
   buildFilePathFromTree fileId treeNodes = None)
  /\ (forall path, buildFilePathFromTree fileId treeNodes = Some path ->
        Forall (fun c => c ∉ [92; 58; 42; 63; 34; 60; 62; 124]) path).
Proof.
  split.
  - intros Hedge. destruct (buildFilePathFromTree fileId treeNodes) as [path|] eqn:E;
      [|done].
    apply buildFilePathFromTree_Some in E as (names & Hchain & _).
    apply pathChain_start in Hchain as (Ht & [n Hn] & _).
    destruct Hedge as [->|Hnone]; [done|congruence].
  - intros path E. apply buildFilePathFromTree_Some in E as (names & _ & -> & _).
    assert (Hparts : Forall (Forall (fun c => c ∉ [92; 58; 42; 63; 34; 60; 62; 124]))
                            (rev (map sanitizePathSegment names))).
    { apply Forall_rev, List.Forall_forall. intros part Hin.
      apply in_map_iff in Hin as (name & <- & _).
      eapply Forall_impl; [apply sanitizePathSegment_clean|].
      intros c Hc Hin. unfold forbiddenInPath in Hc.
      apply bool_decide_eq_false in Hc. apply Hc.
      repeat (apply elem_of_cons in Hin as [->|Hin]; [set_solver|]).
      by apply elem_of_nil in Hin. }
    induction Hparts as [|part parts Hpart Hparts IH]; [constructor|].
    destruct parts as [|part' parts']; [done|].
    change (join (lit "/") (part :: part' :: parts'))
      with (part ++ lit "/" ++ join (lit "/") (part' :: parts')).
    apply Forall_app. split; [done|]. apply Forall_app. split; [|done].
    change (lit "/") with [47]. apply Forall_singleton. intros Hin.
    repeat (apply elem_of_cons in Hin as [Hin|Hin]; [done|]).
    by apply elem_of_nil in Hin.
Qed.

Lemma buildFilePathFromTree_edges_witness :
  buildFilePathFromTree [] cyclicTree = None.
Proof.
  exact (proj1 (buildFilePathFromTree_edges [] cyclicTree) (or_introl eq_refl)).
Defined.

(** ** The presence decoder *)

Lemma readClientEntries_count fuel remaining clientIds bytes ids rest :
  readClientEntries fuel remaining clientIds bytes = Read ids rest ->
  length ids = (length clientIds + N.to_nat remaining)%nat
  /\ (3 * N.to_nat remaining + length rest <= length bytes)%nat.
Proof.
  revert remaining clientIds bytes.
  induction fuel as [|fuel IH]; intros remaining clientIds bytes; cbn.
  - destruct (remaining =? 0) eqn:E; [|done].
    apply N.eqb_eq in E. subst. intros [= <- <-]. cbn. lia.
  - destruct (remaining =? 0) eqn:E.
    + apply N.eqb_eq in E. subst. intros [= <- <-]. cbn. lia.
    + apply N.eqb_neq in E.
      destruct (readVarUint bytes) as [clientId rest1|e] eqn:E1; [|done].
      destruct (readVarUint rest1) as [clock rest2|e] eqn:E2; [|done].
      destruct (readVarString rest2) as [[] rest3|e] eqn:E3; [|done].
      apply readVarUintFrom_shorter in E1, E2. apply readVarString_shorter in E3.
      intros Hrec. apply IH in Hrec as [Hlen Hbytes].
      rewrite length_app in Hlen. cbn in Hlen. lia.
Qed.

(** X6. When [readAwarenessClientIds] returns, it returns exactly as many
    client ids as the update's header announces, and the update is at least
    three bytes per id longer than its header: a frame of n bytes claims
    fewer than n/3 ids; a shorter update makes it throw. *)
Theorem readAwarenessClientIds_count (update : list byte) (ids : list N)
    (rest : list byte) :
  readAwarenessClientIds update = Read ids rest ->
  exists clientCount afterHeader,
    readVarUint update = Read clientCount afterHeader
    /\ N.of_nat (length ids) = clientCount
    /\ (3 * length ids + length rest < length update)%nat.
Proof.
  unfold readAwarenessClientIds.
  destruct (readVarUint update) as [clientCount afterHeader|e] eqn:Hhead; [|done].
  intros Hrun. exists clientCount, afterHeader. split; [done|].
  apply readClientEntries_count in Hrun as [Hlen Hbytes]. cbn in Hlen.
  apply readVarUintFrom_shorter in Hhead. split; lia.
Qed.

Lemma readAwarenessClientIds_count_witness :
  exists clientCount afterHeader,
    readVarUint [x01; x07; x01; x02; x7b; x7d] = Read clientCount afterHeader
    /\ N.of_nat (length [7]) = clientCount
    /\ (3 * length [7] + length (@nil byte) < 6)%nat.
Proof.
  exact (readAwarenessClientIds_count [x01; x07; x01; x02; x7b; x7d] [7] [] eq_refl).
Defined.

(** ** Tokens *)

Lemma isRole_roleName (value : jsstring) (r : Role) :
  isRole value = Some r <-> value = roleName r.
Proof.
  unfold isRole. split.
  - repeat case_decide; intros [= <-]; by subst.
  - intros ->. by destruct r.
Qed.

(** X7. [verifyToken] yields an identity exactly when the library verifies
    the token against the server's secret and the decoded claims carry a
    string [userId], a string [username] and one of the three role names;
    the identity is then those three claims and nothing else. *)
Theorem verifyToken_claims lib cfg (token : jsstring) (u : AuthTokenPayload) :
  verifyToken lib cfg token = Some u
  <-> exists decoded,
        jwt_verify lib token (jwtSecret cfg) = Some decoded
        /\ getField (lit "userId") decoded = Some (JStr (userId u))
        /\ getField (lit "username") decoded = Some (JStr (username u))
        /\ getField (lit "role") decoded = Some (JStr (roleName (role u))).
Proof.
  unfold verifyToken. split.
  - destruct (jwt_verify lib token (jwtSecret cfg)) as [decoded|]; [|done].
    intros H. exists decoded. split; [done|].
    destruct decoded as [| | | |items|fields]; try done.
    destruct (getField (lit "userId") (JObj fields)) as [[| | |uid| |]|]; try done.
    destruct (getField (lit "username") (JObj fields)) as [[| | |name| |]|]; try done.
    destruct (getField (lit "role") (JObj fields)) as [[| | |rname| |]|]; try done.
    destruct (isRole rname) as [r|] eqn:Hr; [|done].
    injection H as <-. cbn. apply isRole_roleName in Hr. by subst.
  - intros (decoded & -> & Huid & Hname & Hrole).
    destruct decoded as [| | | |items|fields]; try done.
    rewrite Huid, Hname, Hrole.
    rewrite (proj2 (isRole_roleName _ _) eq_refl). by destruct u.
Qed.

Lemma splitOn_without sep (current s : jsstring) :
  sep ∉ s -> splitOn sep current s = [rev current ++ s].
Proof.
  revert current. induction s as [|c s IH]; intros current Hs; cbn.
  - by rewrite app_nil_r.
  - apply not_elem_of_cons in Hs as [Hc Hs].
    destruct (c =? sep) eqn:E; [apply N.eqb_eq in E; congruence|].
    rewrite IH by done. cbn. by rewrite <- app_assoc.
Qed.

Lemma splitOn_at sep (current part s : jsstring) :
  sep ∉ part ->
  splitOn sep current (part ++ sep :: s) = (rev current ++ part) :: splitOn sep [] s.
Proof.
  revert current. induction part as [|c part IH]; intros current Hp; cbn.
  - by rewrite N.eqb_refl, app_nil_r.
  - apply not_elem_of_cons in Hp as [Hc Hp].
    destruct (c =? sep) eqn:E; [apply N.eqb_eq in E; congruence|].
    rewrite IH by done. cbn. by rewrite <- app_assoc.
Qed.

Lemma first_separator sep (s : jsstring) :
  sep ∉ s \/ exists part rest, s = part ++ sep :: rest /\ sep ∉ part.
Proof.
  induction s as [|c s IH]; [left; by apply not_elem_of_nil|].
  destruct (decide (c = sep)) as [->|Hne].
  - right. exists [], s. split; [done|]. by apply not_elem_of_nil.
  - destruct IH as [Hno|(part & rest & -> & Hpart)].
    + left. by apply not_elem_of_cons.
    + right. exists (c :: part), rest. split; [done|]. by apply not_elem_of_cons.
Qed.

(** X8. [extractBearerToken] returns a token exactly when the header reads
    [Bearer], one space, and a non-empty token without spaces, followed by
    nothing or by a space and anything; the token is returned as it is. In
    particular a header with two spaces after [Bearer] is refused. *)
Theorem extractBearerToken_shape (header token : jsstring) :
  extractBearerToken (Some header) = Some token
  <-> token <> [] /\ (32 ∉ token)
      /\ (header = lit "Bearer " ++ token
          \/ exists rest, header = lit "Bearer " ++ token ++ (32 :: rest)).
Proof.
  unfold extractBearerToken. split.
  - destruct (truthy header); cbn [negb]; [|done].
    destruct (first_separator 32 header) as [Hno|(scheme & rest & -> & Hscheme)].
    { by rewrite splitOn_without. }
    rewrite splitOn_at by done. cbn [rev app].
    destruct (first_separator 32 rest) as [Hno|(tok & rest' & -> & Htok)].
    + rewrite splitOn_without by done. cbn [rev app].
      case_bool_decide as Hs; cbn [orb]; [done|].
      destruct (truthy rest) eqn:Ht; cbn [negb]; [|done].
      intros [= <-]. subst scheme.
      split; [by destruct rest|]. split; [done|]. by left.
    + rewrite splitOn_at by done. cbn [rev app].
      case_bool_decide as Hs; cbn [orb]; [done|].
      destruct (truthy tok) eqn:Ht; cbn [negb]; [|done].
      intros [= <-]. subst scheme.
      split; [by destruct tok|]. split; [done|]. right. by exists rest'.
  - intros (Hne & Hno & Hshape).
    assert (Hb : 32 ∉ lit "Bearer").
    { intros Hin. change (lit "Bearer") with [66; 101; 97; 114; 101; 114] in Hin.
      repeat (apply elem_of_cons in Hin as [Hin|Hin]; [done|]).
      by apply elem_of_nil in Hin. }
    assert (Htruthy : truthy token = true) by (by destruct token).
    destruct Hshape as [->|(rest & ->)];
      change (lit "Bearer " ++ ?x) with (lit "Bearer" ++ 32 :: x).
    + cbn [truthy negb app]. rewrite splitOn_at by done.
      rewrite splitOn_without by done. cbn [rev app].
      rewrite bool_decide_eq_false_2 by (by intros H; apply H).
      by rewrite Htruthy.
    + cbn [truthy negb app]. rewrite splitOn_at by done.
      rewrite splitOn_at by done. cbn [rev app].
      rewrite bool_decide_eq_false_2 by (by intros H; apply H).
      by rewrite Htruthy.
Qed.

(** ** The connection handler *)

(** X9. A connection enters a room only when the server is not shutting
    down, the origin is allowed, the query carries a non-empty token that
    verifies to the user it enters as, and the room id (the [room]
    parameter, or [default] without one) is valid. Every refusal closes the
    socket with 1012 when shutting down and with 1008 otherwise. *)
Theorem acceptConnection_sound lib cfg (isShuttingDown : bool) (req : UpgradeRequest) :
  match acceptConnection lib cfg isShuttingDown req with
  | EnterRoom roomId user =>
    isShuttingDown = false
    /\ isAllowedOrigin cfg (origin req) = true
    /\ isValidRoomId roomId = true
    /\ roomId = default (lit "default") (searchParamsGet (lit "room") (searchParams req))
    /\ exists token,
         searchParamsGet (lit "token") (searchParams req) = Some token
         /\ token <> [] /\ verifyToken lib cfg token = Some user
  | CloseSocket code _ =>
    code = (if isShuttingDown then 1012 else 1008)%nat
  end.
Proof.
  unfold acceptConnection.
  destruct isShuttingDown; [done|].
  destruct (isAllowedOrigin cfg (origin req)); cbn [negb]; [|done].
  destruct (searchParamsGet (lit "token") (searchParams req)) as [token|]; [|done].
  destruct (truthy token) eqn:Ht; cbn [negb]; [|done].
  destruct (verifyToken lib cfg token) as [user|] eqn:Hv; [|done].
  destruct (searchParamsGet (lit "room") (searchParams req)) as [r|]; cbn [default].
  - destruct (isValidRoomId r) eqn:Hr; cbn [negb]; [|done].
    repeat split; try done. exists token. repeat split; try done. by destruct token.
  - destruct (isValidRoomId (lit "default")) eqn:Hr; cbn [negb]; [|done].
    repeat split; try done. exists token. repeat split; try done. by destruct token.
Qed.

Lemma scheduleProjectPersist_frame (r : Room) :
  doc (scheduleProjectPersist r) = doc r
  /\ awareness (scheduleProjectPersist r) = awareness r
  /\ sockets (scheduleProjectPersist r) = sockets r
  /\ permissions (scheduleProjectPersist r) = permissions r
  /\ persistInFlight (scheduleProjectPersist r) = persistInFlight r.
Proof. unfold scheduleProjectPersist. cbn. by destruct (persistTimer r). Qed.

(** What [onMessage] leaves alone. *)
Lemma onMessage_keeps lib isOpen (socket : nat) (message : Incoming)
    (uuid sentAt : jsstring) (c : Conn) :
  let settled := onMessage lib isOpen socket message uuid sentAt c in
  let c' := settled.1.1 in
  sockets (room c') = sockets (room c)
  /\ permissions (room c') = permissions (room c)
  /\ (forall other, other <> socket ->
        socketContexts c' !! other = socketContexts c !! other)
  /\ match socketContexts c !! socket with
     | Some context =>
       exists context',
         socketContexts c' !! socket = Some context'
         /\ user context' = user context
         /\ roomId context' = roomId context
         /\ awarenessClientIds context ⊆ awarenessClientIds context'
     | None => socketContexts c' !! socket = None
     end
  /\ (forall e, e ∈ settled.1.2 -> exists client frame, e = Send client frame).
Proof.
  assert (Hsame : forall (effects : list Effect) (completion : Completion),
            (forall e, e ∈ effects -> exists client frame, e = Send client frame) ->
            let settled := (c, effects, completion) in
            sockets (room settled.1.1) = sockets (room c)
            /\ permissions (room settled.1.1) = permissions (room c)
            /\ (forall other, other <> socket ->
                  socketContexts settled.1.1 !! other = socketContexts c !! other)
            /\ match socketContexts c !! socket with
               | Some context =>
                 exists context',
                   socketContexts settled.1.1 !! socket = Some context'
                   /\ user context' = user context
                   /\ roomId context' = roomId context
                   /\ awarenessClientIds context ⊆ awarenessClientIds context'
               | None => socketContexts settled.1.1 !! socket = None
               end
            /\ (forall e, e ∈ settled.1.2 -> exists client frame, e = Send client frame)).
  { intros effects completion Heff. cbn. repeat split; try done.
    destruct (socketContexts c !! socket) as [context|] eqn:E; [|done].
    by exists context. }
  assert (Hnone : forall e : Effect,
            e ∈ (@nil Effect) -> exists client frame, e = Send client frame).
  { intros e He. by apply elem_of_nil in He. }
  assert (Hone : forall client frame (e : Effect),
            e ∈ [Send client frame] -> exists client frame, e = Send client frame).
  { intros client frame e He. apply list_elem_of_singleton in He. eauto. }
  assert (Hcast : forall r type payload exclude (e : Effect),
            e ∈ broadcast isOpen r type payload exclude ->
            exists client frame, e = Send client frame).
  { intros r type payload exclude e He. unfold broadcast in He.
    apply list_elem_of_fmap in He as (client & -> & _). eauto. }
  unfold onMessage. destruct message as [data|data].
  - destruct (decide (data = lit "ping")); [by apply Hsame, Hone|].
    destruct (socketContexts c !! socket) as [context|] eqn:Hctx;
      [|apply Hsame, Hnone].
    destruct (parseIncomingChatMessage lib data); [|apply Hsame, Hnone].
    apply Hsame. intros e He. unfold broadcastText in He.
    apply list_elem_of_fmap in He as (client & -> & _). eauto.
  - destruct (parseMessage data) as [[type payload]|]; [|apply Hsame, Hnone].
    destruct (type =? MESSAGE_TYPE_SYNC).
    + destruct (socketContexts c !! socket) as [context|] eqn:Hctx;
        [|apply Hsame, Hnone].
      destruct (getRoleRank _ <? getRoleRank editor)%nat; [by apply Hsame, Hone|].
      destruct (Y_applyUpdate lib (doc (room c)) payload) as [[doc' [update|]]|];
        [| |apply Hsame, Hnone].
      * unfold onDocUpdate. cbn.
        destruct (scheduleProjectPersist_frame (setDoc doc' (room c)))
          as (_ & _ & Hs & Hp & _).
        rewrite Hs, Hp. repeat split; try done; [by exists context|apply Hcast].
      * cbn. repeat split; try done. by exists context.
    + destruct (type =? MESSAGE_TYPE_AWARENESS); [|apply Hsame, Hnone].
      destruct (socketContexts c !! socket) as [context|] eqn:Hctx.
      * destruct (readAwarenessClientIds payload) as [ids rest|e];
          [|apply Hsame, Hnone].
        destruct (applyAwarenessUpdate lib (awareness (room c)) payload)
          as [[awareness' changed]|]; cbn.
        -- repeat split; try done.
           ++ intros other Hne. by rewrite lookup_insert_ne.
           ++ rewrite lookup_insert_eq. eexists. repeat split; try done.
              cbn. set_solver.
           ++ unfold onAwarenessUpdate. destruct (length changed =? 0)%nat;
                [apply Hnone|apply Hcast].
        -- repeat split; try done.
           ++ intros other Hne. by rewrite lookup_insert_ne.
           ++ rewrite lookup_insert_eq. eexists. repeat split; try done.
              cbn. set_solver.
      * destruct (applyAwarenessUpdate lib (awareness (room c)) payload)
          as [[awareness' changed]|]; cbn.
        -- repeat split; try done.
           unfold onAwarenessUpdate. destruct (length changed =? 0)%nat;
             [apply Hnone|apply Hcast].
        -- repeat split; done.
Qed.

(** X10. Whatever the frame and however the handler ends, [onMessage]
    leaves the room's socket set and permissions alone, touches no other
    socket's context, never changes the identity or room recorded for the
    sender, only ever adds to the presence client ids the sender has
    claimed, and does nothing to the outside but send frames. *)
Theorem onMessage_frame lib isOpen (socket : nat) (message : Incoming)
    (uuid sentAt : jsstring) (c : Conn) :
  let settled := onMessage lib isOpen socket message uuid sentAt c in
  let c' := settled.1.1 in
  sockets (room c') = sockets (room c)
  /\ permissions (room c') = permissions (room c)
  /\ (forall other, other <> socket ->
        socketContexts c' !! other = socketContexts c !! other)
  /\ match socketContexts c !! socket with
     | Some context =>
       exists context',
         socketContexts c' !! socket = Some context'
         /\ user context' = user context
         /\ roomId context' = roomId context
         /\ awarenessClientIds context ⊆ awarenessClientIds context'
     | None => socketContexts c' !! socket = None
     end
  /\ (forall e, e ∈ settled.1.2 -> exists client frame, e = Send client frame).
Proof.
  intros settled c'. subst settled c'.
  apply (onMessage_keeps lib isOpen socket message uuid sentAt c).
Qed.

(** Every socket of the room has a context. *)
Lemma enterRoom_contexts lib (socket : nat) (rid : jsstring)
    (u : AuthTokenPayload) (c : Conn) :
  let c' := (enterRoom lib socket rid u c).1 in
  socketContexts c' !! socket
  = Some {| roomId := rid; awarenessClientIds := ∅; user := u |}
  /\ sockets (room c') = {[socket]} ∪ sockets (room c)
  /\ (forall other, other <> socket ->
        socketContexts c' !! other = socketContexts c !! other).
Proof.
  cbn. split; [by rewrite lookup_insert_eq|]. split; [done|].
  intros other Hne. by rewrite lookup_insert_ne.
Qed.

(** X11. The handlers of a connection keep every socket of the room paired
    with a context: if that holds before a socket enters or before a message
    is handled, it holds after; the socket that entered is in the room with
    a context carrying its room id, its identity and no presence ids, and
    everything [enterRoom] sends goes to that socket, the welcome first and
    the full document state second. *)
Theorem sockets_keep_their_context lib isOpen (c : Conn) :
  (forall s, s ∈ sockets (room c) -> is_Some (socketContexts c !! s)) ->
  (forall socket rid u,
     let entered := enterRoom lib socket rid u c in
     (forall s, s ∈ sockets (room entered.1) -> is_Some (socketContexts entered.1 !! s))
     /\ socket ∈ sockets (room entered.1)
     /\ socketContexts entered.1 !! socket
        = Some {| roomId := rid; awarenessClientIds := ∅; user := u |}
     /\ (forall e, e ∈ entered.2 -> exists frame, e = Send socket frame)
     /\ exists welcome rest,
          entered.2 = Send socket (Text welcome)
                      :: Send socket (Binary (encodeMessage MESSAGE_TYPE_SYNC
                                                (Y_encodeStateAsUpdate lib (doc (room c)))))
                      :: rest)
  /\ (forall socket message uuid sentAt,
        let c' := (onMessage lib isOpen socket message uuid sentAt c).1.1 in
        forall s, s ∈ sockets (room c') -> is_Some (socketContexts c' !! s)).
Proof.
  intros Hinv. split.
  - intros socket rid u entered.
    destruct (enterRoom_contexts lib socket rid u c) as (Hown & Hsock & Hother).
    fold entered in Hown, Hsock, Hother.
    split; [|split; [|split; [done|split]]].
    + intros s Hs. rewrite Hsock in Hs.
      destruct (decide (s = socket)) as [->|Hne]; [by rewrite Hown|].
      rewrite Hother by done. apply Hinv. set_solver.
    + rewrite Hsock. set_solver.
    + intros e He. subst entered. cbn in He.
      repeat (apply elem_of_cons in He as [->|He]; [by eexists|]).
      match type of He with context [if ?b then _ else _] => destruct b end.
      * apply list_elem_of_singleton in He. subst. by eexists.
      * by apply elem_of_nil in He.
    + subst entered. cbn. by eexists _, _.
  - intros socket message uuid sentAt c' s Hs.
    destruct (onMessage_keeps lib isOpen socket message uuid sentAt c)
      as (Hsock & _ & Hother & Hown & _).
    fold c' in Hsock, Hother, Hown. rewrite Hsock in Hs.
    specialize (Hinv s Hs).
    destruct (decide (s = socket)) as [->|Hne].
    + destruct (socketContexts c !! socket) as [context|]; [|by destruct Hinv].
      destruct Hown as (context' & -> & _). eauto.
    + by rewrite Hother.
Qed.

Lemma sockets_keep_their_context_witness :
  3%nat ∈ sockets (room (enterRoom sampleLibs 3 (lit "room1") adaAdmin sampleConn).1).
Proof.
  refine (proj1 (proj2 (proj1 (sockets_keep_their_context sampleLibs (fun _ => true)
                                  sampleConn _) 3%nat (lit "room1") adaAdmin))).
  intros s Hs. cbn in Hs.
  apply elem_of_union in Hs as [Hs|Hs]; apply elem_of_singleton in Hs; subst s;
    by eexists.
Defined.

Lemma broadcast_spec isOpen (r : Room) type payload exclude :
  NoDup (broadcast isOpen r type payload exclude)
  /\ forall e, e ∈ broadcast isOpen r type payload exclude
       <-> exists client, e = Send client (Binary (encodeMessage type payload))
                          /\ client ∈ sockets r /\ Some client <> exclude
                          /\ isOpen client = true.
Proof.
  unfold broadcast. split.
  - assert (Hinj : Inj eq eq
              (fun client => Send client (Binary (encodeMessage type payload))))
      by (by intros x y [= ->]).
    apply (NoDup_fmap_2 (fun client => Send client (Binary (encodeMessage type payload)))).
    apply NoDup_recipients.
  - intros e. split.
    + intros He. apply list_elem_of_fmap in He as (client & -> & Hc).
      exists client. split; [done|]. by apply elem_of_recipients.
    + intros (client & -> & Hc).
      apply (list_elem_of_fmap_2
               (fun client => Send client (Binary (encodeMessage type payload)))).
      by apply elem_of_recipients.
Qed.



(** ** Leaving a room *)

(** X13. [removeSocketFromRoom] always forgets the socket's context and
    nothing else of the context table; it never adds or removes a registry
    entry, a pending creation or a Room object; what it sends goes to other
    sockets only; when it starts a teardown the room is left without
    sockets and without a timer, with a persist call in flight or a request
    recorded for the one that is; and calling it again for the same socket
    changes nothing and sends nothing. *)
Theorem removeSocketFromRoom_once lib isOpen (socket : nat)
    (contexts : gmap nat SocketContext) (reg : Registry) :
  let removed := removeSocketFromRoom lib isOpen socket contexts reg in
  let contexts' := removed.1.1.1 in
  let reg' := removed.1.1.2 in
  contexts' = delete socket contexts
  /\ rooms reg' = rooms reg
  /\ pendingRooms reg' = pendingRooms reg
  /\ promises reg' = promises reg
  /\ length (heap reg') = length (heap reg)
  /\ (forall e, e ∈ removed.1.2 ->
        exists client frame, e = Send client frame /\ client <> socket)
  /\ (forall rid called,
        removed.2 = Some (rid, called) ->
        exists context ref r,
          contexts !! socket = Some context /\ roomId context = rid
          /\ rooms reg !! rid = Some ref /\ heap reg' !! ref = Some r
          /\ sockets r = ∅ /\ persistTimer r = None
          /\ persistInFlight r = true
          /\ persistRequested r = negb called)
  /\ removeSocketFromRoom lib isOpen socket contexts' reg' = (contexts', reg', [], None).
Proof.
  cbn zeta. unfold removeSocketFromRoom.
  destruct (contexts !! socket) as [context|] eqn:Hctx.
  2:{ cbn. rewrite Hctx. repeat split; try done.
      - by rewrite delete_id.
      - intros e He. by apply elem_of_nil in He. }
  assert (Hgone : delete socket contexts !! socket = None) by apply lookup_delete_eq.
  destruct (rooms reg !! roomId context) as [ref|] eqn:Href.
  2:{ cbn. rewrite Hgone. repeat split; try done.
      intros e He. by apply elem_of_nil in He. }
  destruct (heap reg !! ref) as [room0|] eqn:Hroom.
  2:{ cbn. rewrite Hgone. repeat split; try done.
      intros e He. by apply elem_of_nil in He. }
  assert (Hlt : (ref < length (heap reg))%nat) by (by eapply lookup_lt_Some).
  set (room1 := setSockets (sockets room0 ∖ {[socket]}) room0).
  destruct (0 <? size (awarenessClientIds context))%nat.
  - destruct (removeAwarenessStates lib (awareness room1)
                (elements (awarenessClientIds context))) as [awareness' removedIds].
    set (room2 := setAwareness awareness' room1).
    assert (Hsent : forall e, e ∈ onAwarenessUpdate lib isOpen removedIds (Some socket) room2 ->
                      exists client frame, e = Send client frame /\ client <> socket).
    { intros e He. unfold onAwarenessUpdate in He.
      destruct (length removedIds =? 0)%nat; [by apply elem_of_nil in He|].
      apply broadcast_spec in He as (client & -> & _ & Hne & _).
      exists client. eexists. split; [done|]. congruence. }
    destruct (size (sockets room2) =? 0)%nat eqn:Hsize.
    + destruct (finalFlush room2) as [room3 called] eqn:Hflush.
      cbn. rewrite Hgone, length_insert. repeat split; try done.
      intros rid called' [= <- <-].
      exists context, ref, room3. rewrite list_lookup_insert_eq by done.
      apply Nat.eqb_eq, size_empty_iff in Hsize.
      unfold finalFlush, flushProjectPersist_begin in Hflush.
      destruct (persistInFlight _) eqn:Hfly in Hflush; cbn in Hflush.
      * injection Hflush as <- <-. cbn in *.
        repeat split; try done. by apply leibniz_equiv.
      * injection Hflush as <- <-. cbn in *.
        repeat split; try done. by apply leibniz_equiv.
    + cbn. rewrite Hgone, length_insert. repeat split; done.
  - destruct (size (sockets room1) =? 0)%nat eqn:Hsize.
    + destruct (finalFlush room1) as [room3 called] eqn:Hflush.
      cbn. rewrite Hgone, length_insert. repeat split; try done.
      { intros e He. by apply elem_of_nil in He. }
      intros rid called' [= <- <-].
      exists context, ref, room3. rewrite list_lookup_insert_eq by done.
      apply Nat.eqb_eq, size_empty_iff in Hsize.
      unfold finalFlush, flushProjectPersist_begin in Hflush.
      destruct (persistInFlight _) eqn:Hfly in Hflush; cbn in Hflush.
      * injection Hflush as <- <-. cbn in *.
        repeat split; try done. by apply leibniz_equiv.
      * injection Hflush as <- <-. cbn in *.
        repeat split; try done. by apply leibniz_equiv.
    + cbn. rewrite Hgone, length_insert. repeat split; try done.
      intros e He. by apply elem_of_nil in He.
Qed.

(** ** The persist scheduler, requests *)

Lemma scheduleProjectPersist_idempotent (r : Room) :
  scheduleProjectPersist (scheduleProjectPersist r) = scheduleProjectPersist r.
Proof.
  unfold scheduleProjectPersist. cbn.
  destruct (persistTimer r) eqn:E; cbn; by rewrite ?E.
Qed.

(** X14. Requests coalesce: any number of persist requests in a row leave
    the room exactly as a single one does, with the request recorded and one
    timer armed; a timer that was already armed keeps the delay it was armed
    for (a request never postpones it), and a fresh one is armed for
    1200 ms. *)
Theorem persist_requests_coalesce (n : nat) (w : SchedWorld) :
  schedRun (repeat RequestPersist (S n)) w = schedRun [RequestPersist] w
  /\ exists w',
       schedRun [RequestPersist] w = Some w'
       /\ sw_flushes w' = sw_flushes w
       /\ persistRequested (sw_room w') = true
       /\ persistTimer (sw_room w')
          = Some (default 1200%nat (persistTimer (sw_room w)))
       /\ persistInFlight (sw_room w') = persistInFlight (sw_room w)
       /\ doc (sw_room w') = doc (sw_room w).
Proof.
  split.
  - revert w. induction n as [|n IH]; intros w; [done|].
    change (repeat RequestPersist (S (S n)))
      with (RequestPersist :: repeat RequestPersist (S n)).
    cbn [schedRun schedStep]. rewrite IH. cbn.
    by rewrite scheduleProjectPersist_idempotent.
  - eexists. split; [done|]. cbn. unfold scheduleProjectPersist. cbn.
    destruct (persistTimer (sw_room w)) eqn:E; cbn; by rewrite ?E.
Qed.

Lemma afterFlushBegin_covered w (r : Room) :
  schedInv w ->
  persistInFlight r = persistInFlight (sw_room w) ->
  requestCovered (afterFlushBegin w (flushProjectPersist_begin r)).
Proof.
  intros [Hlen Hflag] Hsame. unfold requestCovered, afterFlushBegin.
  unfold flushProjectPersist_begin.
  destruct (persistInFlight r) eqn:Hfly; cbn.
  - intros _. right. apply Hflag. congruence.
  - destruct (persistRequested r) eqn:Hreq; cbn; [done|]. congruence.
Qed.

Lemma schedStep_covered e w w' :
  schedInv w -> requestCovered w -> schedStep e w = Some w' -> requestCovered w'.
Proof.
  intros Hinv Hcov Hstep. destruct e; cbn in Hstep.
  - injection Hstep as <-. intros _. left. cbn. unfold scheduleProjectPersist. cbn.
    destruct (persistTimer (sw_room w)) eqn:E; cbn; rewrite ?E; eauto.
  - destruct (persistTimer (sw_room w)); [|done]. injection Hstep as <-.
    by apply afterFlushBegin_covered.
  - injection Hstep as <-. by apply afterFlushBegin_covered.
  - injection Hstep as <-. by apply afterFlushBegin_covered.
  - destruct (sw_flushes w !! i) as [[|]|] eqn:Hi; try done.
    injection Hstep as <-. intros Hreq. cbn in *. right.
    intros E. apply (f_equal length) in E. rewrite length_insert in E.
    by destruct (sw_flushes w).
  - destruct (sw_flushes w !! i) as [[|ok]|] eqn:Hi; try done.
    injection Hstep as <-. intros Hreq. left. cbn in *.
    unfold flushProjectPersist_resume in *.
    destruct ok; cbn in *;
      destruct (persistRequested (sw_room w)) eqn:E1;
      destruct (persistTimer (sw_room w)) eqn:E2; cbn in *;
      rewrite ?E1, ?E2 in *; cbn in *; eauto; congruence.
Qed.

Lemma schedRun_covered events w w' :
  schedInv w -> requestCovered w -> schedRun events w = Some w' ->
  schedInv w' /\ requestCovered w'.
Proof.
  revert w. induction events as [|e events IH]; intros w Hinv Hcov Hrun; cbn in Hrun.
  - by injection Hrun as <-.
  - destruct (schedStep e w) as [w1|] eqn:Hstep; [|done].
    eapply IH; [| |done]; [by eapply schedStep_inv|by eapply schedStep_covered].
Qed.

(** X15. No request is stranded. In every state a room reaches from idle
    (no flush in flight, no request pending), whenever [persistRequested] is
    set a timer is armed or a flush is suspended on its persist call; and
    from such a state at most three further steps (the call settling, the
    flush resuming, the timer firing) start a persist call that takes the
    request. *)
Theorem persist_request_is_served (room0 : Room) (events : list SchedEvent)
    (w : SchedWorld) :
  persistInFlight room0 = false ->
  persistRequested room0 = false ->
  schedRun events {| sw_room := room0; sw_flushes := [] |} = Some w ->
  persistRequested (sw_room w) = true ->
  (is_Some (persistTimer (sw_room w)) \/ sw_flushes w <> [])
  /\ exists more w',
       (length more <= 3)%nat
       /\ schedRun more w = Some w'
       /\ inFlightCalls w' = 1%nat
       /\ persistRequested (sw_room w') = false.
Proof.
  intros Hidle Hquiet Hrun Hreq.
  destruct (schedRun_covered events {| sw_room := room0; sw_flushes := [] |} w)
    as [[Hlen Hflag] Hcov]; [| |done|].
  { split; cbn; [lia|]. by rewrite Hidle. }
  { intros H. cbn in H. congruence. }
  split; [by apply Hcov|].
  assert (Hfire : forall r : Room,
            persistInFlight r = false -> persistRequested r = true ->
            is_Some (persistTimer r) ->
            exists w', schedRun [TimerFires] {| sw_room := r; sw_flushes := [] |} = Some w'
                       /\ inFlightCalls w' = 1%nat
                       /\ persistRequested (sw_room w') = false).
  { intros r Hfly Hr [d Hd]. cbn. rewrite Hd.
    unfold persistTimerFires, flushProjectPersist_begin. cbn. rewrite Hfly, Hr. cbn.
    by eexists. }
  assert (Hresume : forall ok,
            sw_flushes w = [PersistSettled ok] ->
            exists w', schedRun [FlushResumes 0; TimerFires] w = Some w'
                       /\ inFlightCalls w' = 1%nat
                       /\ persistRequested (sw_room w') = false).
  { intros ok Hfl. cbn [schedRun schedStep]. rewrite Hfl. cbn [lookup list_lookup delete].
    set (r := flushProjectPersist_resume ok (sw_room w)).
    assert (Hr : persistInFlight r = false /\ persistRequested r = true
                 /\ is_Some (persistTimer r)).
    { subst r. unfold flushProjectPersist_resume.
      destruct ok; cbn; rewrite ?Hreq;
        destruct (persistTimer (sw_room w)) eqn:E; cbn; rewrite ?E, ?Hreq; eauto. }
    destruct Hr as (H1 & H2 & H3).
    destruct (Hfire r H1 H2 H3) as (w' & Hw' & ?). cbn in Hw'.
    exists w'. split; [|done]. cbn. exact Hw'. }
  destruct (sw_flushes w) as [|f [|g fs]] eqn:Hfl; [| |cbn in Hlen; lia].
  - assert (Hfly : persistInFlight (sw_room w) = false).
    { destruct (persistInFlight (sw_room w)) eqn:E; [|done].
      exfalso. by apply (proj1 Hflag). }
    destruct (Hcov Hreq) as [Htimer|Hne]; [|by rewrite Hfl in Hne].
    destruct (Hfire (sw_room w) Hfly Hreq Htimer) as (w' & Hw' & ?).
    exists [TimerFires], w'. split; [cbn; lia|]. split; [|done].
    destruct w as [r fl]. cbn in *. by subst fl.
  - destruct f as [|ok].
    + assert (Hnext : exists w1, schedStep (PersistSettles 0 true) w = Some w1
                       /\ sw_room w1 = sw_room w
                       /\ sw_flushes w1 = [PersistSettled true]).
      { cbn. rewrite Hfl. cbn. by eexists. }
      destruct Hnext as (w1 & Hs1 & Hroom1 & Hfl1).
      assert (Hres : exists w', schedRun [FlushResumes 0; TimerFires] w1 = Some w'
                       /\ inFlightCalls w' = 1%nat
                       /\ persistRequested (sw_room w') = false).
      { cbn [schedRun schedStep]. rewrite Hfl1. cbn [lookup list_lookup delete].
        rewrite Hroom1.
        set (r := flushProjectPersist_resume true (sw_room w)).
        assert (Hr : persistInFlight r = false /\ persistRequested r = true
                     /\ is_Some (persistTimer r)).
        { subst r. unfold flushProjectPersist_resume. cbn. rewrite ?Hreq.
          destruct (persistTimer (sw_room w)) eqn:E; cbn; rewrite ?E, ?Hreq; eauto. }
        destruct Hr as (H1 & H2 & H3).
        destruct (Hfire r H1 H2 H3) as (w' & Hw' & ?). cbn in Hw'.
        exists w'. split; [|done]. cbn. exact Hw'. }
      destruct Hres as (w' & Hw' & ?).
      exists [PersistSettles 0 true; FlushResumes 0; TimerFires], w'.
      split; [cbn; lia|]. split; [|done].
      change (schedRun (PersistSettles 0 true :: [FlushResumes 0; TimerFires]) w = Some w').
      cbn [schedRun]. by rewrite Hs1.
    + destruct (Hresume ok eq_refl) as (w' & Hw' & ?).
      exists [FlushResumes 0; TimerFires], w'. split; [cbn; lia|]. done.
Qed.

Lemma persist_request_is_served_witness :
  exists w,
    schedRun [RequestPersist; TimerFires; RequestPersist]
      {| sw_room := sampleRoom; sw_flushes := [] |} = Some w
    /\ (is_Some (persistTimer (sw_room w)) \/ sw_flushes w <> []).
Proof.
  eexists. split; [vm_compute; reflexivity|].
  refine (proj1 (persist_request_is_served sampleRoom
    [RequestPersist; TimerFires; RequestPersist] _ eq_refl eq_refl _ _)).
  - vm_compute. reflexivity.
  - reflexivity.
Defined.

(** ** The persistence gateway *)

Lemma succeeds_resolve {A} (P : Store -> Prop) (a : A) (Q : A -> Store -> Prop) :
  (forall st, P st -> Q a st) -> succeeds P (resolve a) Q.
Proof. intros H db HP. exists db, a. repeat split. by apply H. Qed.

Lemma succeeds_andThen {A B} P (m : Async A) R (k : A -> Async B) Q :
  succeeds P m R -> (forall a, succeeds (R a) (k a) Q) -> succeeds P (andThen m k) Q.
Proof.
  intros Hm Hk db HP. destruct (Hm db HP) as (db1 & a & Hrun & HR & Hc1).
  destruct (Hk a db1 HR) as (db2 & b & Hrun2 & HQ & Hc2).
  exists db2, b. split; [|split; [done|congruence]].
  by rewrite (andThen_resolved _ _ _ _ _ Hrun).
Qed.

Lemma succeeds_storeCall env {A} P op (f : Store -> Store * A) Q :
  opFails env op = false ->
  (forall st, P st -> Q (f st).2 (f st).1) -> succeeds P (storeCall env op f) Q.
Proof.
  intros Hop Hf db HP. eexists _, _. split; [by apply storeCall_ok|].
  split; [by apply Hf|done].
Qed.

(** X16. The connection is decided once: the first call of
    [ensureDbConnection] fixes the answer, touches no record, and every
    later call returns the same answer whatever the environment has become.
    After a failed (or unconfigured) connection the gateway stays demoted:
    [persistProjectState] and [setProjectPermission] resolve without
    touching the store and [loadProjectState] resolves with no permissions
    and the document as it was. *)
Theorem connection_is_decided_once (env env' : DbEnv) (db : Db) :
  exists connected,
    let db1 := (ensureDbConnection env db).1 in
    (ensureDbConnection env db).2 = Resolved connected
    /\ store db1 = store db
    /\ ensureDbConnection env' db1 = (db1, Resolved connected)
    /\ (connected = false ->
        forall projectId d1 d2 now joinDate target r,
          persistProjectState env' projectId d1 d2 now joinDate db1 = (db1, Resolved tt)
          /\ setProjectPermission env' projectId target r now db1 = (db1, Resolved tt)
          /\ loadProjectState env' projectId d1 now db1 = (db1, Resolved (∅, d1))).
Proof.
  assert (Hkey : exists connected db1,
            ensureDbConnection env db = (db1, Resolved connected)
            /\ store db1 = store db
            /\ dbConnectionPromise db1 = Some connected).
  { unfold ensureDbConnection. destruct (dbConnectionPromise db) eqn:E.
    - eexists _, _. by repeat split.
    - eexists _, _. by repeat split. }
  destruct Hkey as (connected & db1 & Hrun & Hstore & Hcache).
  exists connected. rewrite Hrun. cbn [fst snd].
  assert (Hagain : ensureDbConnection env' db1 = (db1, Resolved connected)).
  { unfold ensureDbConnection. by rewrite Hcache. }
  repeat split; try done; subst connected.
  - unfold persistProjectState. by rewrite (andThen_resolved _ _ _ _ _ Hagain).
  - unfold setProjectPermission. by rewrite (andThen_resolved _ _ _ _ _ Hagain).
  - unfold loadProjectState. by rewrite (andThen_resolved _ _ _ _ _ Hagain).
Qed.

Lemma bulkUpsert_lookup_map {R} (rows : list (jsstring * R))
    (coll : gmap jsstring R) (k : jsstring) :
  NoDup rows.*1 ->
  bulkUpsert rows coll !! k
  = match list_to_map (M := gmap jsstring R) rows !! k with
    | Some v => Some v
    | None => coll !! k
    end.
Proof.
  intros Hnd. destruct (list_to_map rows !! k) as [v|] eqn:E.
  - apply elem_of_list_to_map in E; [|done]. by apply bulkUpsert_written.
  - apply not_elem_of_list_to_map in E. by apply bulkUpsert_other.
Qed.

Lemma survivor_lookup {R} (project_id : R -> jsstring) (projectId : jsstring)
    (ids : list jsstring) (coll : gmap jsstring R) (k : jsstring) :
  k ∉ ids ->
  deleteManyNotIn project_id projectId ids coll !! k
  = survivor project_id projectId (coll !! k).
Proof.
  intros Hk. rewrite deleteManyNotIn_lookup. unfold survivor.
  destruct (coll !! k) as [r|]; [|done].
  destruct (decide (project_id r = projectId)) as [Hp|Hp].
  - by rewrite decide_True.
  - rewrite decide_False; [done|]. by intros [? _].
Qed.

Lemma kept_lookup {R} (project_id : R -> jsstring) (projectId : jsstring)
    (ids : list jsstring) (coll : gmap jsstring R) (k : jsstring) :
  k ∈ ids ->
  deleteManyNotIn project_id projectId ids coll !! k = coll !! k.
Proof.
  intros Hk. rewrite deleteManyNotIn_lookup.
  destruct (coll !! k) as [r|]; [|done].
  rewrite decide_False; [done|]. by intros [_ ?].
Qed.

Lemma suggestionRows_nodup (projectId : jsstring)
    (entries : gmap jsstring (gmap jsstring YValue)) :
  NoDup (map row_id (omap (suggestionRow projectId) (map_to_list entries))).
Proof.
  pose proof (NoDup_fst_map_to_list entries) as Hnd.
  induction (map_to_list entries) as [|[k raw] l IH]; cbn; [constructor|].
  apply NoDup_cons in Hnd as [Hk Hnd]. specialize (IH Hnd).
  destruct (suggestionRow projectId (k, raw)) as [row|] eqn:Hrow; [|done].
  cbn. apply NoDup_cons. split; [|done].
  apply suggestionRow_id in Hrow. cbn in Hrow. rewrite Hrow.
  intros Hin. apply Hk.
  apply list_elem_of_In, in_map_iff in Hin as (row' & Hid & Hin).
  apply list_elem_of_In, list_elem_of_omap in Hin as ([k' raw'] & Hin & Hsome).
  apply suggestionRow_id in Hsome. cbn in Hsome.
  apply list_elem_of_fmap. exists (k', raw'). split; [|done]. cbn. congruence.
Qed.

Lemma suggestionRows_lookup (projectId : jsstring) (d : Doc) (k : jsstring) :
  let rows := omap (suggestionRow projectId) (map_to_list (editor_suggestions d)) in
  (match suggestionRecordOf projectId d k with
   | Some r => (k, r) ∈ map (fun row => (row_id row, row_record row)) rows
   | None => k ∉ map row_id rows
   end).
Proof.
  cbn zeta. unfold suggestionRecordOf.
  destruct (editor_suggestions d !! k) as [raw|] eqn:Hk.
  - destruct (suggestionRow projectId (k, raw)) as [row|] eqn:Hrow.
    + apply list_elem_of_fmap. exists row. split.
      * apply suggestionRow_id in Hrow as Hid. cbn in Hid. by rewrite Hid.
      * apply list_elem_of_omap. exists (k, raw). split; [|done].
        by apply elem_of_map_to_list.
    + intros Hin. apply list_elem_of_In, in_map_iff in Hin as (row & Hid & Hin).
      apply list_elem_of_In, list_elem_of_omap in Hin as ([k' raw'] & Hin & Hsome).
      apply suggestionRow_id in Hsome as Hid'. cbn in Hid'.
      apply elem_of_map_to_list in Hin.
      assert (k' = k) by congruence. subst k'.
      assert (raw' = raw) by congruence. subst raw'. congruence.
  - intros Hin. apply list_elem_of_In, in_map_iff in Hin as (row & Hid & Hin).
    apply list_elem_of_In, list_elem_of_omap in Hin as ([k' raw'] & Hin & Hsome).
    apply suggestionRow_id in Hsome as Hid'. cbn in Hid'.
    apply elem_of_map_to_list in Hin. congruence.
Qed.

Lemma persist_settles (env : DbEnv) (projectId : jsstring)
    (docAtFiles docAtSuggestions : Doc) (now joinDate : Z) (db : Db) :
  (ensureDbConnection env db).2 = Resolved true ->
  (forall op, opFails env op = false) ->
  let settled := persistProjectState env projectId docAtFiles docAtSuggestions
                   now joinDate db in
  settled.2 = Resolved tt
  /\ dbConnectionPromise settled.1 = Some true
  /\ (forall k,
        files (store settled.1) !! k
        = match editor_files docAtFiles !! k with
          | Some content =>
            Some {| file_project_id := projectId;
                    file_path :=
                      default (lit "files/" ++ sanitizePathSegment k ++ lit ".txt")
                              (buildFilePathFromTree k (file_tree_nodes docAtFiles));
                    file_content := content |}
          | None => survivor file_project_id projectId (files (store db) !! k)
          end)
  /\ (forall k,
        suggestions (store settled.1) !! k
        = match suggestionRecordOf projectId docAtSuggestions k with
          | Some r => Some r
          | None => survivor suggestion_project_id projectId
                      (suggestions (store db) !! k)
          end).
Proof.
  intros Hconn Hok settled. subst settled. unfold persistProjectState.
  destruct (ensureDbConnection env db) as [db1 o] eqn:Hens.
  simpl in Hconn. subst o.
  assert (Hst1 : store db1 = store db).
  { pose proof (ensureDbConnection_store env db) as E. by rewrite Hens in E. }
  assert (Hcache : dbConnectionPromise db1 = Some true).
  { unfold ensureDbConnection in Hens.
    destruct (dbConnectionPromise db) eqn:E; injection Hens as <- ?; cbn; congruence. }
  rewrite (andThen_resolved _ _ _ _ _ Hens). cbn [negb].
  set (fileRows := map (fileRow projectId (file_tree_nodes docAtFiles))
                       (map_to_list (editor_files docAtFiles))).
  set (suggestionRows := omap (suggestionRow projectId)
                              (map_to_list (editor_suggestions docAtSuggestions))).
  set (F0 := files (store db)). set (S0 := suggestions (store db)).
  set (F1 := bulkUpsert fileRows F0).
  set (F2 := deleteManyNotIn file_project_id projectId fileRows.*1 F1).
  set (S1 := bulkUpsert (map (fun r => (row_id r, row_record r)) suggestionRows) S0).
  set (S2 := deleteManyNotIn suggestion_project_id projectId
               (map row_id suggestionRows) S1).
  match goal with |- (?m db1).2 = _ /\ _ =>
    assert (Hs : succeeds (fun st => files st = F0 /\ suggestions st = S0) m
                   (fun _ st => files st = F2 /\ suggestions st = S2))
  end.
  { apply (succeeds_andThen _ _ (fun _ st => files st = F0 /\ suggestions st = S0)).
    { apply succeeds_storeCall; [done|]. intros st Hst. cbn.
      unfold upsertProject. by destruct (projects st !! projectId). }
    intros []. apply (succeeds_andThen _ _ (fun _ st => files st = F1 /\ suggestions st = S0)).
    { destruct (0 <? length fileRows)%nat eqn:Hlen.
      - apply succeeds_storeCall; [done|]. intros st [HF HS]. cbn. by rewrite ?HF, ?HS.
      - apply succeeds_resolve. intros st [HF HS]. split; [|done].
        rewrite HF. subst F1. destruct fileRows; [done|cbn in Hlen; lia]. }
    intros []. apply (succeeds_andThen _ _ (fun _ st => files st = F2 /\ suggestions st = S0)).
    { apply succeeds_storeCall; [done|]. intros st [HF HS]. cbn. by rewrite ?HF, ?HS. }
    intros []. apply (succeeds_andThen _ _ (fun _ st => files st = F2 /\ suggestions st = S1)).
    { destruct (0 <? length suggestionRows)%nat eqn:Hlen.
      - apply (succeeds_andThen _ _ (fun _ st => files st = F2 /\ suggestions st = S1)).
        + apply succeeds_storeCall; [done|]. intros st [HF HS]. cbn. by rewrite ?HF, ?HS.
        + intros []. apply succeeds_storeCall; [done|]. intros st [HF HS]. cbn. by rewrite ?HF, ?HS.
      - apply succeeds_resolve. intros st [HF HS]. split; [done|].
        rewrite HS. subst S1. destruct suggestionRows; [done|cbn in Hlen; lia]. }
    intros []. apply succeeds_storeCall; [done|]. intros st [HF HS]. cbn. by rewrite ?HF, ?HS. }
  destruct (Hs db1) as (db2 & [] & Hrun & [HF HS] & Hc2); [by rewrite Hst1|].
  rewrite Hrun. cbn [fst snd]. split; [done|]. split; [congruence|]. split.
  - intros k. rewrite HF. subst F2 F1.
    assert (Hnd : NoDup fileRows.*1).
    { subst fileRows. rewrite fileRows_keys. apply NoDup_fst_map_to_list. }
    destruct (editor_files docAtFiles !! k) as [content|] eqn:Hk.
    + assert (Hin : (k, (fileRow projectId (file_tree_nodes docAtFiles) (k, content)).2)
                    ∈ fileRows).
      { subst fileRows. apply list_elem_of_fmap. exists (k, content).
        split; [done|]. by apply elem_of_map_to_list. }
      rewrite kept_lookup by (apply list_elem_of_fmap; by eexists (_, _)).
      rewrite (bulkUpsert_written _ _ _ _ Hnd Hin). unfold fileRow. cbn [fst snd].
      by destruct (buildFilePathFromTree k (file_tree_nodes docAtFiles)).
    + assert (Hout : k ∉ fileRows.*1).
      { subst fileRows. rewrite fileRows_keys. intros Hin.
        apply list_elem_of_fmap in Hin as ([k' c'] & -> & Hin).
        apply elem_of_map_to_list in Hin. cbn in Hk. congruence. }
      rewrite survivor_lookup by done. by rewrite bulkUpsert_other.
  - intros k. rewrite HS. subst S2 S1.
    pose proof (suggestionRows_lookup projectId docAtSuggestions k) as Hrow.
    cbn zeta in Hrow. fold suggestionRows in Hrow.
    assert (Hnd : NoDup (map (fun r => (row_id r, row_record r)) suggestionRows).*1).
    { rewrite suggestion_rows_keys. apply suggestionRows_nodup. }
    destruct (suggestionRecordOf projectId docAtSuggestions k) as [r|].
    + rewrite kept_lookup.
      * by apply bulkUpsert_written.
      * rewrite <- suggestion_rows_keys. apply list_elem_of_fmap. by eexists (_, _).
    + rewrite survivor_lookup by done.
      rewrite bulkUpsert_other; [done|]. by rewrite suggestion_rows_keys.
Qed.


(** X17. The store after a persist that resolves on a live connection with
    every call succeeding. The files collection holds, under each file id of
    the document, the project's record with the derived path (the fallback
    when there is none) and the document's content, whatever record was
    there and whichever project it belonged to; under any other id it holds
    what it held before unless that was a record of this project, which is
    gone. The suggestions collection is the same with the well-formed
    suggestions of the document. Records of other projects under other ids
    are never touched. *)
Theorem store_after_persist (env : DbEnv) (projectId : jsstring)
    (docAtFiles docAtSuggestions : Doc) (now joinDate : Z) (db : Db) :
  (ensureDbConnection env db).2 = Resolved true ->
  (forall op, opFails env op = false) ->
  let settled := persistProjectState env projectId docAtFiles docAtSuggestions
                   now joinDate db in
  settled.2 = Resolved tt
  /\ (forall k,
        files (store settled.1) !! k
        = match editor_files docAtFiles !! k with
          | Some content =>
            Some {| file_project_id := projectId;
                    file_path :=
                      default (lit "files/" ++ sanitizePathSegment k ++ lit ".txt")
                              (buildFilePathFromTree k (file_tree_nodes docAtFiles));
                    file_content := content |}
          | None => survivor file_project_id projectId (files (store db) !! k)
          end)
  /\ (forall k,
        suggestions (store settled.1) !! k
        = match suggestionRecordOf projectId docAtSuggestions k with
          | Some r => Some r
          | None => survivor suggestion_project_id projectId
                      (suggestions (store db) !! k)
          end).
Proof.
  intros Hconn Hok settled.
  destruct (persist_settles env projectId docAtFiles docAtSuggestions now joinDate db
              Hconn Hok) as (H1 & _ & H2 & H3).
  by repeat split.
Qed.

Lemma store_after_persist_witness :
  files (store (persistProjectState healthyEnv (lit "room1") cyclicDoc brokenDoc
                  0 0 staleDb).1) !! lit "f"
  = Some {| file_project_id := lit "room1"; file_path := lit "files/f.txt";
            file_content := lit "let x = 1" |}.
Proof.
  exact (proj1 (proj2 (store_after_persist healthyEnv (lit "room1") cyclicDoc
                         brokenDoc 0%Z 0%Z staleDb eq_refl (fun _ => eq_refl)))
           (lit "f")).
Defined.

(** *** What [loadProjectState] rebuilds *)

Lemma attachChild_files parentId childId d :
  editor_files (attachChild parentId childId d) = editor_files d
  /\ editor_suggestions (attachChild parentId childId d) = editor_suggestions d
  /\ other (attachChild parentId childId d) = other d.
Proof.
  unfold attachChild. destruct parentId as [p|]; [|done].
  destruct (file_tree_nodes d !! p) as [node|]; [|done].
  by destruct (node !! lit "children") as [[]|].
Qed.

Lemma loadFolders_files seen todo parentFolderId d :
  editor_files (loadFolders seen todo parentFolderId d).2 = editor_files d
  /\ editor_suggestions (loadFolders seen todo parentFolderId d).2 = editor_suggestions d
  /\ other (loadFolders seen todo parentFolderId d).2 = other d.
Proof.
  revert seen parentFolderId d.
  induction todo as [|folderName rest IH]; intros seen parentFolderId d; [done|].
  cbn [loadFolders].
  destruct (file_tree_nodes d !! _) as [node|].
  - apply IH.
  - destruct (IH (seen ++ [folderName]) (Some (lit "folder:" ++ join (lit "/")
                                                  (seen ++ [folderName])))
                (attachChild (truthyId parentFolderId)
                   (lit "folder:" ++ join (lit "/") (seen ++ [folderName]))
                   (setTreeNode (lit "folder:" ++ join (lit "/") (seen ++ [folderName]))
                      (newTreeNode folderName (lit "folder") parentFolderId) d)))
      as (H1 & H2 & H3).
    rewrite H1, H2, H3.
    by destruct (attachChild_files (truthyId parentFolderId)
                   (lit "folder:" ++ join (lit "/") (seen ++ [folderName]))
                   (setTreeNode (lit "folder:" ++ join (lit "/") (seen ++ [folderName]))
                      (newTreeNode folderName (lit "folder") parentFolderId) d))
      as (-> & -> & ->).
Qed.

Lemma loadFile_files (file : jsstring * FileRecord) (d : Doc) :
  editor_files (loadFile file d) = <[file.1 := file_content file.2]> (editor_files d)
  /\ editor_suggestions (loadFile file d) = editor_suggestions d
  /\ other (loadFile file d) = other d.
Proof.
  unfold loadFile.
  match goal with |- context [loadFolders ?a ?b ?c ?d0] =>
    pose proof (loadFolders_files a b c d0) as (H1 & H2 & H3);
    destruct (loadFolders a b c d0) as [parentFolderId d2]
  end.
  cbn [snd] in *.
  match goal with |- context [attachChild ?a ?b ?c] =>
    destruct (attachChild_files a b c) as (-> & -> & ->)
  end.
  cbn. by rewrite H1, H2, H3.
Qed.

Lemma loadSuggestion_files (env : DbEnv) (suggestion : jsstring * SuggestionRecord) (d : Doc) :
  editor_files (loadSuggestion env suggestion d) = editor_files d
  /\ other (loadSuggestion env suggestion d) = other d.
Proof. unfold loadSuggestion. by destruct (_ || _). Qed.

Lemma rebuildDoc_files (env : DbEnv) (fileRecords : list (jsstring * FileRecord))
    (suggestionRecords : list (jsstring * SuggestionRecord)) (d : Doc) :
  editor_files (rebuildDoc env fileRecords suggestionRecords d)
  = bulkUpsert (map (fun f => (f.1, file_content f.2)) fileRecords) ∅
  /\ other (rebuildDoc env fileRecords suggestionRecords d) = other d.
Proof.
  unfold rebuildDoc.
  set (cleared := {| editor_files := ∅; file_tree_nodes := ∅; file_tree_roots := [];
                     editor_suggestions := ∅; other := other d |}).
  assert (Hfiles : forall frs d0,
            editor_files (foldl (fun d f => loadFile f d) d0 frs)
            = bulkUpsert (map (fun f => (f.1, file_content f.2)) frs) (editor_files d0)
            /\ other (foldl (fun d f => loadFile f d) d0 frs) = other d0).
  { induction frs as [|f frs IH]; intros d0; [done|]. cbn.
    destruct (IH (loadFile f d0)) as [-> ->].
    by destruct (loadFile_files f d0) as (-> & _ & ->). }
  assert (Hsugg : forall srs d0,
            editor_files (foldl (fun d s => loadSuggestion env s d) d0 srs)
            = editor_files d0
            /\ other (foldl (fun d s => loadSuggestion env s d) d0 srs) = other d0).
  { induction srs as [|sg srs IH]; intros d0; [done|]. cbn.
    destruct (IH (loadSuggestion env sg d0)) as [-> ->].
    apply loadSuggestion_files. }
  destruct (Hsugg suggestionRecords
              (foldl (fun d f => loadFile f d) cleared fileRecords)) as [-> ->].
  by destruct (Hfiles fileRecords cleared) as [-> ->].
Qed.

Lemma findByProject_spec {R} (project_id : R -> jsstring) (projectId : jsstring)
    (coll : gmap jsstring R) :
  NoDup (findByProject project_id projectId coll).*1
  /\ forall k r, (k, r) ∈ findByProject project_id projectId coll
       <-> coll !! k = Some r /\ project_id r = projectId.
Proof.
  unfold findByProject. split.
  - pose proof (NoDup_fst_map_to_list coll) as Hnd.
    induction (map_to_list coll) as [|[k r] l IH]; [constructor|].
    cbn in Hnd. apply NoDup_cons in Hnd as [Hk Hnd].
    rewrite filter_cons. destruct (decide _); [|by apply IH].
    cbn. apply NoDup_cons. split; [|by apply IH].
    intros Hin. apply Hk. apply list_elem_of_fmap in Hin as (x & -> & Hx).
    apply list_elem_of_filter in Hx as [_ Hx]. apply list_elem_of_fmap. by exists x.
  - intros k r. rewrite list_elem_of_filter, elem_of_map_to_list. cbn. tauto.
Qed.

Lemma loaded_files_lookup (env : DbEnv) (projectId : jsstring) (coll : gmap jsstring FileRecord)
    (suggestionRecords : list (jsstring * SuggestionRecord)) (d : Doc) (k : jsstring) :
  editor_files (rebuildDoc env (findByProject file_project_id projectId coll)
                  suggestionRecords d) !! k
  = match coll !! k with
    | Some r => if decide (file_project_id r = projectId)
                then Some (file_content r) else None
    | None => None
    end.
Proof.
  destruct (rebuildDoc_files env (findByProject file_project_id projectId coll)
              suggestionRecords d) as [-> _].
  destruct (findByProject_spec file_project_id projectId coll) as [Hnd Hin].
  set (frs := findByProject file_project_id projectId coll) in *.
  assert (Hkeys : (map (fun f : jsstring * FileRecord => (f.1, file_content f.2)) frs).*1
                  = frs.*1).
  { clear. induction frs as [|f frs IH]; cbn; [done|]. by f_equal. }
  destruct (coll !! k) as [r|] eqn:Hk.
  - destruct (decide (file_project_id r = projectId)) as [Hp|Hp].
    + apply bulkUpsert_written; [by rewrite Hkeys|].
      apply list_elem_of_fmap. exists (k, r). split; [done|]. by apply Hin.
    + rewrite bulkUpsert_other; [done|]. rewrite Hkeys. intros Hk'.
      apply list_elem_of_fmap in Hk' as ([k' r'] & -> & Hx).
      apply Hin in Hx as [Hx Hpx]. cbn in *. congruence.
  - rewrite bulkUpsert_other; [done|]. rewrite Hkeys. intros Hk'.
    apply list_elem_of_fmap in Hk' as ([k' r'] & -> & Hx).
    apply Hin in Hx as [Hx _]. cbn in *. congruence.
Qed.

Lemma load_settles (env : DbEnv) (projectId : jsstring) (d : Doc) (now : Z) (db : Db) :
  (ensureDbConnection env db).2 = Resolved true ->
  Forall (fun op => opFails env op = false) loadCalls ->
  exists db',
    loadProjectState env projectId d now db
    = (db', Resolved
              (permissionEntries
                 (Some (default {| project_name := projectId; project_created_at := now;
                                   project_updated_at := now;
                                   project_permissions := ∅ |}
                                (projects (store db) !! projectId))),
               rebuildDoc env
                 (findByProject file_project_id projectId (files (store db)))
                 (findByProject suggestion_project_id projectId (suggestions (store db)))
                 d))
    /\ files (store db') = files (store db)
    /\ suggestions (store db') = suggestions (store db)
    /\ users (store db') = users (store db)
    /\ dbConnectionPromise db' = Some true.
Proof.
  intros Hconn Hok.
  apply Forall_cons in Hok as [H1 Hok]. apply Forall_cons in Hok as [H2 Hok].
  apply Forall_cons in Hok as [H3 Hok]. apply Forall_cons in Hok as [H4 _].
  unfold loadProjectState.
  destruct (ensureDbConnection env db) as [db1 o] eqn:Hens.
  simpl in Hconn. subst o.
  assert (Hst1 : store db1 = store db).
  { pose proof (ensureDbConnection_store env db) as E. by rewrite Hens in E. }
  assert (Hcache : dbConnectionPromise db1 = Some true).
  { unfold ensureDbConnection in Hens.
    destruct (dbConnectionPromise db) eqn:E; injection Hens as <- ?; cbn; congruence. }
  rewrite (andThen_resolved _ _ _ _ _ Hens). cbn [negb].
  erewrite andThen_resolved by (by apply storeCall_ok).
  erewrite andThen_resolved by (by apply storeCall_ok).
  erewrite andThen_resolved by (by apply storeCall_ok).
  erewrite andThen_resolved by (by apply storeCall_ok).
  eexists. split.
  - unfold resolve. f_equal. f_equal. f_equal.
    + cbn. unfold upsertProject. rewrite Hst1.
      destruct (projects (store db) !! projectId) as [pr|] eqn:E; cbn.
      * by rewrite lookup_insert_eq.
      * by rewrite lookup_insert_eq.
    + cbn. unfold upsertProject. rewrite Hst1.
      by destruct (projects (store db) !! projectId).
  - cbn. unfold upsertProject. rewrite Hst1.
    by destruct (projects (store db) !! projectId).
Qed.

(** X18. With the store connected and its four calls succeeding,
    [loadProjectState] resolves, and the document it rebuilt holds under
    [editor_files] exactly the contents of the stored files of this project:
    files of other projects are not loaded and whatever the document held
    before is cleared. The shared types other than the editor's are left as
    they were, and the stored files and suggestions are not modified. *)
Theorem load_restores_project_files (env : DbEnv) (projectId : jsstring)
    (d : Doc) (now : Z) (db : Db) :
  (ensureDbConnection env db).2 = Resolved true ->
  Forall (fun op => opFails env op = false) loadCalls ->
  exists db' permissions loaded,
    loadProjectState env projectId d now db = (db', Resolved (permissions, loaded))
    /\ (forall k,
          editor_files loaded !! k
          = match files (store db) !! k with
            | Some r => if decide (file_project_id r = projectId)
                        then Some (file_content r) else None
            | None => None
            end)
    /\ other loaded = other d
    /\ files (store db') = files (store db)
    /\ suggestions (store db') = suggestions (store db).
Proof.
  intros Hconn Hok.
  destruct (load_settles env projectId d now db Hconn Hok)
    as (db' & Hrun & Hf & Hs & _ & _).
  eexists db', _, _. split; [exact Hrun|].
  split; [|split; [|by split]].
  - intros k. apply loaded_files_lookup.
  - apply rebuildDoc_files.
Qed.

Lemma load_restores_project_files_witness :
  exists db' permissions loaded,
    loadProjectState healthyEnv (lit "room1") cyclicDoc 0 staleDb
    = (db', Resolved (permissions, loaded))
    /\ (forall k,
          editor_files loaded !! k
          = match files (store staleDb) !! k with
            | Some r => if decide (file_project_id r = lit "room1")
                        then Some (file_content r) else None
            | None => None
            end)
    /\ other loaded = other cyclicDoc
    /\ files (store db') = files (store staleDb)
    /\ suggestions (store db') = suggestions (store staleDb).
Proof.
  apply (load_restores_project_files healthyEnv (lit "room1") cyclicDoc 0%Z staleDb).
  - reflexivity.
  - repeat constructor.
Defined.

(** X19. Round trip through the store: after [persistProjectState] has
    written a document, [loadProjectState] for the same project rebuilds, into
    any document, an [editor_files] map equal to the one that was written,
    whatever the store held before for this or other projects. *)
Theorem reload_restores_saved_files (env : DbEnv) (projectId : jsstring)
    (saved docAtSuggestions target : Doc) (now joinDate now' : Z) (db : Db) :
  (ensureDbConnection env db).2 = Resolved true ->
  (forall op, opFails env op = false) ->
  let settled := persistProjectState env projectId saved docAtSuggestions
                   now joinDate db in
  exists db' permissions loaded,
    loadProjectState env projectId target now' settled.1
    = (db', Resolved (permissions, loaded))
    /\ editor_files loaded = editor_files saved.
Proof.
  intros Hconn Hok settled.
  destruct (persist_settles env projectId saved docAtSuggestions now joinDate db
              Hconn Hok) as (_ & Hcache & Hfiles & _).
  fold settled in Hcache, Hfiles.
  assert (Hconn' : (ensureDbConnection env settled.1).2 = Resolved true).
  { unfold ensureDbConnection. by rewrite Hcache. }
  assert (Hcalls : Forall (fun op => opFails env op = false) loadCalls).
  { apply List.Forall_forall. intros op _. apply Hok. }
  destruct (load_settles env projectId target now' settled.1 Hconn' Hcalls)
    as (db' & Hrun & _).
  eexists db', _, _. split; [exact Hrun|].
  apply map_eq. intros k.
  rewrite loaded_files_lookup, Hfiles.
  destruct (editor_files saved !! k) as [content|]; cbn.
  - by rewrite decide_True.
  - unfold survivor. destruct (files (store db) !! k) as [r|]; [|done].
    destruct (decide (file_project_id r = projectId)) as [|Hne]; [done|].
    by rewrite decide_False.
Qed.

Lemma reload_restores_saved_files_witness :
  exists db' permissions loaded,
    loadProjectState healthyEnv (lit "room1") brokenDoc 1
      (persistProjectState healthyEnv (lit "room1") cyclicDoc brokenDoc 0 0 staleDb).1
    = (db', Resolved (permissions, loaded))
    /\ editor_files loaded = editor_files cyclicDoc.
Proof.
  apply (reload_restores_saved_files healthyEnv (lit "room1") cyclicDoc brokenDoc
           brokenDoc 0%Z 0%Z 1%Z staleDb).
  - reflexivity.
  - intros op. reflexivity.
Defined.

(** X20. A role stored by [setProjectPermission] is the one the next
    [loadProjectState] of that project returns for that user, whether or not
    the project existed before; the entries of the other users are the ones
    the project had. (The user id holds no dot: the update addresses the key
    [permissions.<userId>].) *)
Theorem stored_permission_is_loaded (env : DbEnv) (projectId user : jsstring)
    (r : Role) (d : Doc) (now now' : Z) (db : Db) :
  (ensureDbConnection env db).2 = Resolved true ->
  (forall op, opFails env op = false) ->
  (46 ∉ user) ->
  let settled := setProjectPermission env projectId user r now db in
  settled.2 = Resolved tt
  /\ exists db' permissions loaded,
       loadProjectState env projectId d now' settled.1
       = (db', Resolved (permissions, loaded))
       /\ permissions !! user = Some r
       /\ forall u, u <> user ->
            permissions !! u
            = permissionEntries (projects (store db) !! projectId) !! u.
Proof.
  intros Hconn Hok _ settled. subst settled. unfold setProjectPermission.
  destruct (ensureDbConnection env db) as [db1 o] eqn:Hens.
  simpl in Hconn. subst o.
  assert (Hst1 : store db1 = store db).
  { pose proof (ensureDbConnection_store env db) as E. by rewrite Hens in E. }
  assert (Hcache : dbConnectionPromise db1 = Some true).
  { unfold ensureDbConnection in Hens.
    destruct (dbConnectionPromise db) eqn:E; injection Hens as <- ?; cbn; congruence. }
  rewrite (andThen_resolved _ _ _ _ _ Hens). cbn [negb].
  rewrite storeCall_ok by apply Hok. cbn [fst snd]. split; [done|].
  match goal with |- context [loadProjectState _ _ _ _ ?db2] => set (settled := db2) end.
  assert (Hconn' : (ensureDbConnection env settled).2 = Resolved true).
  { unfold ensureDbConnection. subst settled. cbn. by rewrite Hcache. }
  assert (Hcalls : Forall (fun op => opFails env op = false) loadCalls).
  { apply List.Forall_forall. intros op _. apply Hok. }
  destruct (load_settles env projectId d now' settled Hconn' Hcalls)
    as (db' & Hrun & _).
  eexists db', _, _. split; [exact Hrun|].
  assert (Hrole : isRole (roleName r) = Some r) by by apply isRole_roleName.
  subst settled. cbn [store]. unfold upsertProject. rewrite Hst1.
  destruct (projects (store db) !! projectId) as [p|] eqn:Hp; cbn;
    rewrite lookup_insert_eq; cbn.
  - split.
    + by rewrite lookup_omap, lookup_insert_eq.
    + intros u Hu. by rewrite !lookup_omap, lookup_insert_ne.
  - split.
    + by rewrite lookup_omap, lookup_singleton_eq.
    + intros u Hu. by rewrite lookup_omap, lookup_singleton_ne.
Qed.

Lemma stored_permission_is_loaded_witness :
  exists db' permissions loaded,
    loadProjectState healthyEnv (lit "room1") cyclicDoc 1
      (setProjectPermission healthyEnv (lit "room1") (lit "u-viewer") editor 0 staleDb).1
    = (db', Resolved (permissions, loaded))
    /\ permissions !! lit "u-viewer" = Some editor
    /\ forall u, u <> lit "u-viewer" ->
         permissions !! u
         = permissionEntries (projects (store staleDb) !! lit "room1") !! u.
Proof.
  apply (stored_permission_is_loaded healthyEnv (lit "room1") (lit "u-viewer") editor
           cyclicDoc 0%Z 1%Z staleDb).
  - reflexivity.
  - intros op. reflexivity.
  - apply (bool_decide_unpack _). vm_compute. exact I.
Defined.

(** *** The login rate limit *)

Lemma consumeAuthRateLimit_other (ip other : jsstring) (now : Z)
    (attempts : gmap jsstring AuthAttempts) :
  other <> ip -> (consumeAuthRateLimit ip now attempts).1 !! other = attempts !! other.
Proof.
  intros Hne. unfold consumeAuthRateLimit.
  destruct (attempts !! ip) as [current|]; cbn.
  - destruct (_ <=? _)%Z; cbn; [by rewrite lookup_insert_ne|].
    destruct (_ <=? _)%Z; cbn; [done|]. by rewrite lookup_insert_ne.
  - by rewrite lookup_insert_ne.
Qed.

Lemma consumeAll_other (ip other : jsstring) (times : list Z)
    (attempts : gmap jsstring AuthAttempts) :
  other <> ip -> (consumeAll ip times attempts).1 !! other = attempts !! other.
Proof.
  intros Hne. revert attempts.
  induction times as [|now rest IH]; intros attempts; [done|].
  cbn [consumeAll].
  pose proof (consumeAuthRateLimit_other ip other now attempts Hne) as H1.
  destruct (consumeAuthRateLimit ip now attempts) as [attempts' admitted].
  specialize (IH attempts').
  destruct (consumeAll ip rest attempts') as [attempts'' results].
  cbn in *. congruence.
Qed.

(** Inside a window: the attempts are admitted until the count reaches the
    limit, and refused from then on. *)
Lemma consumeAll_in_window (ip : jsstring) (times : list Z)
    (attempts : gmap jsstring AuthAttempts) (current : AuthAttempts) :
  attempts !! ip = Some current ->
  Forall (fun t => (t < attempt_resetAt current)%Z) times ->
  (consumeAll ip times attempts).2
  = replicate (Nat.min (length times) (Z.to_nat (authLimit - attempt_count current))) true
    ++ replicate (length times - Z.to_nat (authLimit - attempt_count current)) false.
Proof.
  revert attempts current.
  induction times as [|now rest IH]; intros attempts current Hcur Hin; [done|].
  apply Forall_cons in Hin as [Hnow Hrest].
  cbn [consumeAll]. unfold consumeAuthRateLimit. rewrite Hcur.
  destruct (attempt_resetAt current <=? now)%Z eqn:Hexp; [lia|].
  destruct (authLimit <=? attempt_count current)%Z eqn:Hfull.
  - specialize (IH attempts current Hcur Hrest).
    destruct (consumeAll ip rest attempts) as [attempts'' results]. cbn in *.
    rewrite IH.
    replace (Z.to_nat (authLimit - attempt_count current)) with 0%nat by lia.
    rewrite !Nat.min_0_r, !Nat.sub_0_r. done.
  - set (next := {| attempt_count := (attempt_count current + 1)%Z;
                    attempt_resetAt := attempt_resetAt current |}).
    specialize (IH (<[ip := next]> attempts) next (lookup_insert_eq _ _ _) Hrest).
    destruct (consumeAll ip rest (<[ip := next]> attempts)) as [attempts'' results].
    cbn in *. rewrite IH.
    assert (Hk : Z.to_nat (authLimit - attempt_count current)
                 = S (Z.to_nat (authLimit - (attempt_count current + 1)))) by lia.
    rewrite Hk. done.
Qed.

(** X21. The login rate limit, per address: from an address with no entry, or
    whose window has expired, a burst of attempts that all fall before the end
    of the window opened by the first one has its first [authLimit] (30)
    attempts admitted and every later one refused; the entries of the other
    addresses are not touched. *)
Theorem rate_limit_window (ip : jsstring) (now : Z) (times : list Z)
    (authAttemptsByIp : gmap jsstring AuthAttempts) :
  match authAttemptsByIp !! ip with
  | Some current => (attempt_resetAt current <= now)%Z
  | None => True
  end ->
  Forall (fun t => (t < now + authWindowMs)%Z) times ->
  (consumeAll ip (now :: times) authAttemptsByIp).2
  = replicate (Nat.min (S (length times)) 30) true
    ++ replicate (S (length times) - 30) false
  /\ forall other, other <> ip ->
       (consumeAll ip (now :: times) authAttemptsByIp).1 !! other
       = authAttemptsByIp !! other.
Proof.
  intros Hfresh Hburst. split; [|intros other Hne; by apply consumeAll_other].
  cbn [consumeAll].
  set (fresh := {| attempt_count := 1; attempt_resetAt := (now + authWindowMs)%Z |}).
  assert (Hfirst : consumeAuthRateLimit ip now authAttemptsByIp
                   = (<[ip := fresh]> authAttemptsByIp, true)).
  { unfold consumeAuthRateLimit. fold fresh.
    destruct (authAttemptsByIp !! ip) as [current|]; [|done].
    destruct (Z.leb_spec (attempt_resetAt current) now); [done|lia]. }
  rewrite Hfirst.
  pose proof (consumeAll_in_window ip times (<[ip := fresh]> authAttemptsByIp) fresh
                (lookup_insert_eq _ _ _) Hburst) as Hrest.
  destruct (consumeAll ip times (<[ip := fresh]> authAttemptsByIp))
    as [attempts'' results].
  cbn in *. rewrite Hrest.
  change (Z.to_nat (authLimit - 1)) with 29%nat.
  destruct (length times) as [|n]; [done|].
  cbn [Nat.min Nat.sub replicate app]. done.
Qed.

Lemma rate_limit_window_witness :
  (consumeAll (lit "10.0.0.7") (0%Z :: replicate 31 5%Z) ∅).2
  = replicate 30 true ++ replicate 2 false.
Proof.
  refine (proj1 (rate_limit_window (lit "10.0.0.7") 0%Z (replicate 31 5%Z) ∅ _ _)).
  - exact I.
  - repeat constructor.
Defined.

(** *** Identities issued by [findOrCreateUserByUsername] *)

Lemma findUserByUsername_created (name id : jsstring) (record : UserRecord)
    (coll : gmap jsstring UserRecord) :
  findUserByUsername name coll = None ->
  coll !! id = None ->
  user_username record = name ->
  findUserByUsername name (<[id := record]> coll) = Some (id, record).
Proof.
  unfold findUserByUsername. intros Hnone Hfresh Hname.
  assert (Hempty : filter (fun kv : jsstring * UserRecord => user_username kv.2 = name)
                     (map_to_list coll) = []).
  { by destruct (filter _ (map_to_list coll)). }
  assert (Hperm : filter (fun kv : jsstring * UserRecord => user_username kv.2 = name)
                    (map_to_list (<[id := record]> coll)) ≡ₚ [(id, record)]).
  { rewrite (map_to_list_insert coll id record Hfresh).
    rewrite filter_cons. cbn. rewrite decide_True by done. by rewrite Hempty. }
  apply Permutation_singleton_r in Hperm. by rewrite Hperm.
Qed.

Lemma ensureDbConnection_cached env db :
  dbConnectionPromise db = Some true -> ensureDbConnection env db = (db, Resolved true).
Proof. intros H. unfold ensureDbConnection. by rewrite H. Qed.

(** X22. A login keeps its identity: once [findOrCreateUserByUsername] has
    identified a user against the connected store, a later call on the store
    as that call left it, for the same name (up to surrounding white space)
    and with its two look-ups succeeding, returns the same user id, name and
    role, whatever id [randomUUID] would have issued, and changes nothing. *)
Theorem login_identity_is_stable (env : DbEnv) (userOpFails userOpFails' : UserOp -> bool)
    (username username' uuid uuid' : jsstring) (joinDate joinDate' : Z)
    (db db' : Db) (who : AuthTokenPayload) :
  (ensureDbConnection env db).2 = Resolved true ->
  truthy uuid = true ->
  findOrCreateUserByUsername env userOpFails username uuid joinDate db
  = (db', Identified who) ->
  trim username' = trim username ->
  userOpFails' UserExists = false ->
  userOpFails' UserFindOne = false ->
  findOrCreateUserByUsername env userOpFails' username' uuid' joinDate' db'
  = (db', Identified who).
Proof.
  intros Hconn Huuid Hfirst Hname Hexists Hfind.
  unfold findOrCreateUserByUsername in Hfirst.
  destruct (ensureDbConnection env db) as [db1 o] eqn:Hens.
  simpl in Hconn. subst o.
  assert (Hcache : dbConnectionPromise db1 = Some true).
  { unfold ensureDbConnection in Hens.
    destruct (dbConnectionPromise db) eqn:E; injection Hens as <- ?; cbn; congruence. }
  rewrite Hcache in Hfirst. cbn [negb] in Hfirst.
  destruct (userOpFails UserExists); [done|].
  destruct (userOpFails UserFindOne); [done|].
  destruct (findUserByUsername (trim username) (users (store db1)))
    as [[id record]|] eqn:Hfound.
  - destruct (truthy id) eqn:Hid; [|done].
    injection Hfirst as <- <-.
    unfold findOrCreateUserByUsername.
    rewrite (ensureDbConnection_cached env db1 Hcache), Hcache. cbn [negb].
    by rewrite Hexists, Hfind, Hname, Hfound, Hid.
  - destruct (userOpFails UserCreate || _ || _) eqn:Hcreate; [done|].
    apply orb_false_elim in Hcreate as [Hcreate _].
    apply orb_false_elim in Hcreate as [_ Hfresh].
    apply bool_decide_eq_false in Hfresh.
    assert (Hnew : users (store db1) !! uuid = None).
    { destruct (users (store db1) !! uuid) eqn:E; [|done]. exfalso. apply Hfresh. by eexists. }
    injection Hfirst as <- <-.
    unfold findOrCreateUserByUsername.
    rewrite ensureDbConnection_cached by done.
    cbn [dbConnectionPromise store users negb].
    rewrite Hexists, Hfind, Hname.
    erewrite findUserByUsername_created; [|exact Hfound|exact Hnew|reflexivity].
    by rewrite Huuid.
Qed.

Lemma login_identity_is_stable_witness :
  findOrCreateUserByUsername healthyEnv (fun _ => false) (lit " ada ") (lit "id-2") 5
    (findOrCreateUserByUsername healthyEnv (fun _ => false) (lit "ada") (lit "id-1") 0
       freshDb).1
  = ((findOrCreateUserByUsername healthyEnv (fun _ => false) (lit "ada") (lit "id-1") 0
        freshDb).1,
     Identified {| userId := lit "id-1"; username := lit "ada"; role := admin |}).
Proof.
  apply (login_identity_is_stable healthyEnv (fun _ => false) (fun _ => false)
           (lit "ada") (lit " ada ") (lit "id-1") (lit "id-2") 0%Z 5%Z freshDb).
  - reflexivity.
  - reflexivity.
  - vm_compute. reflexivity.
  - reflexivity.
  - reflexivity.
  - reflexivity.
Defined.

(** X23. What a login does to the user collection: no existing user is
    changed or removed, the other collections are left alone, and a user with
    the admin role appears only when the store held none, in which case it is
    the user logging in. *)
Theorem login_creates_admin_only_once (env : DbEnv) (userOpFails : UserOp -> bool)
    (username uuid : jsstring) (joinDate : Z) (db db' : Db) (who : AuthTokenPayload) :
  findOrCreateUserByUsername env userOpFails username uuid joinDate db
  = (db', Identified who) ->
  (forall id r, users (store db) !! id = Some r -> users (store db') !! id = Some r)
  /\ (forall id r, users (store db') !! id = Some r -> user_role r = admin ->
        users (store db) !! id = Some r
        \/ (adminExists (users (store db)) = false
            /\ id = userId who /\ role who = admin))
  /\ projects (store db') = projects (store db)
  /\ files (store db') = files (store db)
  /\ suggestions (store db') = suggestions (store db).
Proof.
  intros Hrun. unfold findOrCreateUserByUsername in Hrun.
  pose proof (ensureDbConnection_store env db) as Hst1.
  destruct (ensureDbConnection env db) as [db1 o]. cbn [fst] in Hst1.
  destruct (negb _).
  { injection Hrun as <- _. rewrite Hst1. by eauto 10. }
  destruct (userOpFails UserExists); [done|].
  destruct (userOpFails UserFindOne); [done|].
  destruct (findUserByUsername _ _) as [[id0 record]|].
  { destruct (truthy id0); [|done]. injection Hrun as <- _. rewrite Hst1. by eauto 10. }
  destruct (userOpFails UserCreate || _ || _) eqn:Hcreate; [done|].
  apply orb_false_elim in Hcreate as [Hcreate _].
  apply orb_false_elim in Hcreate as [_ Hfresh].
  apply bool_decide_eq_false in Hfresh.
  assert (Hnew : users (store db1) !! uuid = None).
  { destruct (users (store db1) !! uuid) eqn:E; [|done]. exfalso. apply Hfresh. by eexists. }
  injection Hrun as <- <-. cbn [store users projects files suggestions userId role].
  rewrite Hst1 in *. split; [|split; [|done]].
  - intros id r Hid. rewrite lookup_insert_ne; [done|]. congruence.
  - intros id r Hid Hadmin.
    destruct (decide (id = uuid)) as [->|Hne].
    + rewrite lookup_insert_eq in Hid. injection Hid as <-. cbn in Hadmin.
      right. by destruct (adminExists (users (store db))).
    + rewrite lookup_insert_ne in Hid by done. by left.
Qed.

Lemma login_creates_admin_only_once_witness :
  users (store (findOrCreateUserByUsername healthyEnv (fun _ => false) (lit "bob")
                  (lit "id-2") 5
                  (findOrCreateUserByUsername healthyEnv (fun _ => false) (lit "ada")
                     (lit "id-1") 0 freshDb).1).1) !! lit "id-1"
  = Some {| user_username := lit "ada"; user_avatar := []; user_join_date := 0;
            user_role := admin |}.
Proof.
  refine (proj1 (login_creates_admin_only_once healthyEnv (fun _ => false) (lit "bob")
                   (lit "id-2") 5%Z
                   (findOrCreateUserByUsername healthyEnv (fun _ => false) (lit "ada")
                      (lit "id-1") 0 freshDb).1
                   _ {| userId := lit "id-2"; username := lit "bob"; role := editor |} _)
            (lit "id-1") _ _).
  - vm_compute. reflexivity.
  - vm_compute. reflexivity.
Defined.

(** *** Room objects and the ids they are registered under *)

Lemma heapInv_empty : heapInv emptyRegistry.
Proof. repeat split; intros; by cbn in *. Qed.

Lemma getOrCreateRoom_heapInv lib id reg reg' a :
  heapInv reg -> getOrCreateRoom lib id reg = (reg', a) -> heapInv reg'.
Proof.
  intros (H1 & H2 & H3 & H4). unfold getOrCreateRoom.
  destruct (rooms reg !! id) as [r|] eqn:Hr; [by intros [= <- <-]|].
  destruct (pendingRooms reg !! id) as [p|] eqn:Hp; [by intros [= <- <-]|].
  intros [= <- <-].
  assert (Hnew : forall q i r, (promises reg ++ [Creating id (length (heap reg))]) !! q
                               = Some (Creating i r) ->
            promises reg !! q = Some (Creating i r)
            \/ (q = length (promises reg) /\ i = id /\ r = length (heap reg))).
  { intros q i r Hl. apply lookup_app_Some in Hl as [Hl|[Hge Hl]]; [by left|].
    destruct (q - length (promises reg))%nat as [|n] eqn:E; cbn in Hl; [|done].
    injection Hl as <- <-. right. split; [lia|done]. }
  split; [|split; [|split]]; cbn [rooms pendingRooms heap promises].
  - intros i r Hi. rewrite length_app. cbn. apply H1 in Hi. lia.
  - intros q i r Hq. rewrite length_app. cbn.
    apply Hnew in Hq as [Hold|(_ & _ & ->)].
    + apply H2 in Hold as [Hlt Hfree]. split; [lia|done].
    + split; [lia|]. intros id' Hid'. apply H1 in Hid'. lia.
  - exact H3.
  - intros q1 q2 id1 id2 r Hq1 Hq2.
    apply Hnew in Hq1 as [Hq1|(-> & _ & ->)]; apply Hnew in Hq2 as [Hq2|(-> & _ & Hq2)].
    + by eapply H4.
    + subst r. apply H2 in Hq1 as [Hlt _]. lia.
    + apply H2 in Hq2 as [Hlt _]. lia.
    + done.
Qed.

Lemma creationSettles_heapInv p loaded docUpdated reg reg' :
  heapInv reg -> creationSettles p loaded docUpdated reg = Some reg' -> heapInv reg'.
Proof.
  intros (H1 & H2 & H3 & H4). unfold creationSettles.
  destruct (promises reg !! p) as [[id newRoom| |]|] eqn:Hp; try done.
  assert (Hlt : (p < length (promises reg))%nat) by (by eapply lookup_lt_Some).
  destruct (H2 _ _ _ Hp) as [Hheap Hfree].
  assert (Hold : forall state q i r, (forall i' r', state <> Creating i' r') ->
            <[p := state]> (promises reg) !! q = Some (Creating i r) ->
            q <> p /\ promises reg !! q = Some (Creating i r)).
  { intros state q i r Hstate Hl. destruct (decide (p = q)) as [<-|Hne].
    - rewrite list_lookup_insert_eq in Hl by done. injection Hl as Hl.
      by apply Hstate in Hl.
    - rewrite list_lookup_insert_ne in Hl by done. by split. }
  destruct loaded as [[perms doc']|op]; intros [= <-];
    (split; [|split; [|split]]); cbn [rooms pendingRooms heap promises].
  - intros i r. rewrite length_alter. destruct (decide (id = i)) as [<-|Hne].
    + rewrite lookup_insert_eq. by intros [= <-].
    + rewrite lookup_insert_ne by done. apply H1.
  - intros q i r Hq. rewrite length_alter.
    apply Hold in Hq as [Hne Hq]; [|done].
    destruct (H2 _ _ _ Hq) as [Hlt' Hfree']. split; [done|].
    intros id'. destruct (decide (id = id')) as [<-|Hne'].
    + rewrite lookup_insert_eq. intros [= ->]. apply Hne. by eapply H4.
    + rewrite lookup_insert_ne by done. apply Hfree'.
  - intros id1 id2 r.
    destruct (decide (id = id1)) as [<-|Hne1]; destruct (decide (id = id2)) as [<-|Hne2];
      rewrite ?lookup_insert_eq, ?lookup_insert_ne by done.
    + done.
    + intros [= <-] Hr. by apply Hfree in Hr.
    + intros Hr [= <-]. by apply Hfree in Hr.
    + apply H3.
  - intros q1 q2 id1 id2 r Hq1 Hq2.
    apply Hold in Hq1 as [_ Hq1]; [|done]. apply Hold in Hq2 as [_ Hq2]; [|done].
    by eapply H4.
  - exact H1.
  - intros q i r Hq. apply Hold in Hq as [_ Hq]; [|done]. by apply H2 in Hq.
  - exact H3.
  - intros q1 q2 id1 id2 r Hq1 Hq2.
    apply Hold in Hq1 as [_ Hq1]; [|done]. apply Hold in Hq2 as [_ Hq2]; [|done].
    by eapply H4.
Qed.

Lemma teardownCompletes_heapInv id reg : heapInv reg -> heapInv (teardownCompletes id reg).
Proof.
  intros (H1 & H2 & H3 & H4).
  split; [|split; [|split]]; cbn [teardownCompletes rooms heap promises].
  - intros i r Hi. apply lookup_delete_Some in Hi as [_ Hi]. by eapply H1.
  - intros q i r Hq. destruct (H2 _ _ _ Hq) as [Hlt Hfree]. split; [done|].
    intros id' Hid'. apply lookup_delete_Some in Hid' as [_ Hid'].
    by apply (Hfree id').
  - intros id1 id2 r Hr1 Hr2. apply lookup_delete_Some in Hr1 as [_ Hr1].
    apply lookup_delete_Some in Hr2 as [_ Hr2]. by eapply H3.
  - exact H4.
Qed.

Lemma registryRun_heapInv lib events reg reg' answers :
  heapInv reg -> registryRun lib events reg = Some (reg', answers) -> heapInv reg'.
Proof.
  revert reg answers.
  induction events as [|e events IH]; intros reg answers Hinv; cbn.
  - by intros [= <- <-].
  - destruct (registryStep lib e reg) as [[reg1 answered]|] eqn:Hstep; [|done].
    destruct (registryRun lib events reg1) as [[reg2 answers2]|] eqn:Hrun; [|done].
    intros [= <- <-]. eapply IH; [|done].
    destruct e as [id|p loaded docUpdated|id]; cbn in Hstep.
    + destruct (getOrCreateRoom lib id reg) as [reg0 a] eqn:Hg.
      injection Hstep as <- <-. by eapply getOrCreateRoom_heapInv.
    + destruct (creationSettles p loaded docUpdated reg) as [reg0|] eqn:Hc; [|done].
      injection Hstep as <- <-. by eapply creationSettles_heapInv.
    + injection Hstep as <- <-. by apply teardownCompletes_heapInv.
Qed.

(** X24. Rooms do not alias: in any registry reached from the empty one,
    teardowns and failed loads included, every registered reference points to
    a Room object that exists, two different room ids are never registered to
    the same Room object, and the Room a creation under way is building is
    not registered under any id. *)
Theorem rooms_never_share_an_object lib (events : list RegistryEvent)
    (reg : Registry) (answers : list (jsstring * Answer)) :
  registryRun lib events emptyRegistry = Some (reg, answers) ->
  (forall id r, rooms reg !! id = Some r -> is_Some (heap reg !! r))
  /\ (forall id1 id2 r1 r2, id1 <> id2 ->
        rooms reg !! id1 = Some r1 -> rooms reg !! id2 = Some r2 -> r1 <> r2)
  /\ (forall p id r, promises reg !! p = Some (Creating id r) ->
        is_Some (heap reg !! r) /\ forall id', rooms reg !! id' <> Some r).
Proof.
  intros Hrun.
  destruct (registryRun_heapInv _ _ _ _ _ heapInv_empty Hrun) as (H1 & H2 & H3 & _).
  split; [|split].
  - intros id r Hr. apply lookup_lt_is_Some. by eapply H1.
  - intros id1 id2 r1 r2 Hne Hr1 Hr2 <-. apply Hne. by eapply H3.
  - intros p id r Hp. destruct (H2 _ _ _ Hp) as [Hlt Hfree].
    split; [by apply lookup_lt_is_Some|done].
Qed.

Lemma rooms_never_share_an_object_witness :
  exists reg answers,
    registryRun sampleLibs sampleStorm emptyRegistry = Some (reg, answers)
    /\ is_Some (heap reg !! 0%nat).
Proof.
  eexists. eexists. split; [vm_compute; reflexivity|].
  refine (proj1 (rooms_never_share_an_object sampleLibs sampleStorm _ _ _)
            (lit "room1") 0%nat _).
  - vm_compute. reflexivity.
  - reflexivity.
Defined.

(** *** The REST handlers *)

(** X25. [POST /api/projects/:id/permissions]: the handler gets past its
    checks only when the server is not shutting down, the bearer token
    verifies and the body names a user id and one of the three roles;
    otherwise it answers 503, 401 or 400. Once it holds the room, it changes
    the permissions only when the caller's effective role there is admin, and
    the grant then is the target's effective role at once, whatever the
    target's token says; the effective role of everybody else, the document
    and the sockets are as before. A caller who is not admin gets 403 and the
    room is left as it was. *)
Theorem permission_change_needs_admin lib cfg (isShuttingDown : bool) (req : RestRequest) :
  match permissionsRequest lib cfg isShuttingDown req with
  | inl (Respond status _) => status = 503%nat \/ status = 401%nat \/ status = 400%nat
  | inr (caller, targetUserId, nextRole) =>
    isShuttingDown = false
    /\ authenticate lib cfg req = Some caller
    /\ bodyField (lit "userId") req = Some (JStr targetUserId)
    /\ bodyField (lit "role") req = Some (JStr (roleName nextRole))
    /\ forall room,
         match permissionsInRoom caller targetUserId nextRole room with
         | (room', None) =>
           getEffectiveRole room caller = admin
           /\ (forall who, getEffectiveRole room' who
                 = if decide (userId who = targetUserId) then nextRole
                   else getEffectiveRole room who)
           /\ doc room' = doc room /\ sockets room' = sockets room
         | (room', Some response) =>
           getEffectiveRole room caller <> admin
           /\ room' = room
           /\ response = Respond 403 (errorBody "admin role required")
         end
  end.
Proof.
  unfold permissionsRequest.
  destruct isShuttingDown; [by left|].
  destruct (authenticate lib cfg req) as [caller|]; [|by right; left].
  destruct (bodyField (lit "userId") req) as [[| | |targetUserId| |]|];
    try (by right; right);
    try (destruct (bodyField (lit "role") req) as [[]|]; by right; right).
  destruct (bodyField (lit "role") req) as [[| | |nextRole| |]|]; try (by right; right).
  destruct (isRole nextRole) as [r|] eqn:Hrole; [|by right; right].
  apply isRole_roleName in Hrole as ->.
  repeat (split; [done|]).
  intros room. unfold permissionsInRoom.
  case_bool_decide as Hadmin; [done|].
  split; [done|]. split; [|done].
  intros who. unfold getEffectiveRole at 1. cbn [permissions setPermissions].
  destruct (decide (userId who = targetUserId)) as [->|Hne].
  - by rewrite lookup_insert_eq.
  - by rewrite lookup_insert_ne.
Qed.

(** X26. [POST .../suggestions/:suggestionId/approve], once it holds the
    room. A caller whose effective role is not admin gets 403, an unknown
    suggestion 404, and in both cases the room is untouched and nothing is
    sent. Otherwise the answer is 200: exactly that suggestion gains the three
    approval fields (the approver being the caller), the files and the
    permissions are as before, a persist is requested with its timer armed,
    and the document update goes, as a sync frame, to open sockets of the
    room only. *)
Theorem approval_marks_one_suggestion lib (isOpen : nat -> bool)
    (caller : AuthTokenPayload) (suggestionId approvedAt : jsstring) (room : Room) :
  match approveInRoom lib isOpen caller suggestionId approvedAt room with
  | (room', sent, Respond status _) =>
    match editor_suggestions (doc room) !! suggestionId with
    | Some suggestion =>
      if decide (getEffectiveRole room caller = admin) then
        status = 200%nat
        /\ editor_suggestions (doc room') !! suggestionId
           = Some (<[lit "approvedAt" := YStr approvedAt]>
                     (<[lit "approvedBy" := YStr (userId caller)]>
                        (<[lit "approved" := YBool true]> suggestion)))
        /\ (forall other, other <> suggestionId ->
              editor_suggestions (doc room') !! other
              = editor_suggestions (doc room) !! other)
        /\ editor_files (doc room') = editor_files (doc room)
        /\ permissions room' = permissions room
        /\ sockets room' = sockets room
        /\ persistRequested room' = true
        /\ is_Some (persistTimer room')
        /\ (forall e, e ∈ sent ->
              exists client update,
                e = Send client (Binary (encodeMessage MESSAGE_TYPE_SYNC update))
                /\ client ∈ sockets room /\ isOpen client = true)
      else status = 403%nat /\ room' = room /\ sent = []
    | None =>
      status = (if decide (getEffectiveRole room caller = admin) then 404 else 403)%nat
      /\ room' = room /\ sent = []
    end
  end.
Proof.
  unfold approveInRoom.
  destruct (decide (getEffectiveRole room caller = admin)) as [Hadmin|Hadmin].
  2: { rewrite bool_decide_eq_true_2 by done.
       by destruct (editor_suggestions (doc room) !! suggestionId). }
  rewrite bool_decide_eq_false_2 by (intros Hne; by apply Hne).
  destruct (editor_suggestions (doc room) !! suggestionId) as [suggestion|] eqn:Hs;
    [|done].
  - unfold onDocUpdate.
    match goal with |- context [scheduleProjectPersist (scheduleProjectPersist ?r)] =>
      set (written := r) end.
    assert (Hframe : forall r, doc (scheduleProjectPersist r) = doc r
                               /\ permissions (scheduleProjectPersist r) = permissions r
                               /\ sockets (scheduleProjectPersist r) = sockets r
                               /\ persistRequested (scheduleProjectPersist r) = true
                               /\ is_Some (persistTimer (scheduleProjectPersist r))).
    { intros r. unfold scheduleProjectPersist. cbn.
      destruct (persistTimer r) eqn:Ht; cbn; rewrite ?Ht; by eauto 10. }
    destruct (Hframe (scheduleProjectPersist written)) as (Hd & Hp & Hk & Hr & Ht).
    destruct (Hframe written) as (Hd' & Hp' & Hk' & _ & _).
    rewrite Hd, Hd', Hp, Hp', Hk, Hk'. subst written. cbn [doc setDoc editor_suggestions
      setSuggestionsOf editor_files permissions sockets].
    split; [done|]. split; [by rewrite lookup_insert_eq|].
    split; [intros other Hne; by rewrite lookup_insert_ne|].
    repeat (split; [done|]).
    intros e He. apply broadcast_spec in He as (client & -> & Hin & _ & Hopen).
    by eexists _, _.
Qed.

(** *** Approvals and the store *)

Lemma loadSuggestion_unapproved (env : DbEnv) (suggestion : jsstring * SuggestionRecord)
    (d : Doc) :
  (forall id entry, editor_suggestions d !! id = Some entry -> unapproved entry) ->
  forall id entry, editor_suggestions (loadSuggestion env suggestion d) !! id = Some entry ->
    unapproved entry.
Proof.
  intros Hd id entry. unfold loadSuggestion.
  destruct (_ || _); [apply Hd|]. cbn [editor_suggestions].
  destruct (decide (suggestion.1 = id)) as [<-|Hne].
  - rewrite lookup_insert_eq. intros [= <-].
    repeat split; (rewrite !lookup_insert_ne by other_key); apply lookup_empty.
  - rewrite lookup_insert_ne by done. apply Hd.
Qed.

Lemma rebuildDoc_unapproved (env : DbEnv) (fileRecords : list (jsstring * FileRecord))
    (suggestionRecords : list (jsstring * SuggestionRecord)) (d : Doc) :
  forall id entry,
    editor_suggestions (rebuildDoc env fileRecords suggestionRecords d) !! id = Some entry ->
    unapproved entry.
Proof.
  unfold rebuildDoc.
  set (cleared := {| editor_files := ∅; file_tree_nodes := ∅; file_tree_roots := [];
                     editor_suggestions := ∅; other := other d |}).
  assert (Hfiles : forall frs d0,
            editor_suggestions (foldl (fun d f => loadFile f d) d0 frs)
            = editor_suggestions d0).
  { induction frs as [|f frs IH]; intros d0; [done|]. cbn.
    rewrite IH. by destruct (loadFile_files f d0) as (_ & -> & _). }
  assert (Hsugg : forall srs d0,
            (forall id entry, editor_suggestions d0 !! id = Some entry -> unapproved entry) ->
            forall id entry,
              editor_suggestions (foldl (fun d s => loadSuggestion env s d) d0 srs) !! id
              = Some entry -> unapproved entry).
  { induction srs as [|sg srs IH]; intros d0 Hd0; [done|]. cbn.
    apply IH. by apply loadSuggestion_unapproved. }
  apply Hsugg. intros id entry. rewrite Hfiles. cbn. by rewrite lookup_empty.
Qed.

(** X27. An approval does not outlive the room. [persistProjectState] builds
    for an approved suggestion the very record it builds for the unapproved
    one, and every suggestion that a successful [loadProjectState] puts into
    the document carries none of the fields [approved], [approvedBy],
    [approvedAt]. *)
Theorem approval_is_lost_on_reload (env : DbEnv) (projectId : jsstring)
    (d : Doc) (now : Z) (db : Db) :
  (ensureDbConnection env db).2 = Resolved true ->
  Forall (fun op => opFails env op = false) loadCalls ->
  (exists db' permissions loaded,
     loadProjectState env projectId d now db = (db', Resolved (permissions, loaded))
     /\ forall id entry, editor_suggestions loaded !! id = Some entry -> unapproved entry)
  /\ forall id suggestion approver approvedAt,
       suggestionRow projectId
         (id, <[lit "approvedAt" := YStr approvedAt]>
                (<[lit "approvedBy" := YStr approver]>
                   (<[lit "approved" := YBool true]> suggestion)))
       = suggestionRow projectId (id, suggestion).
Proof.
  intros Hconn Hok. split.
  - destruct (load_settles env projectId d now db Hconn Hok) as (db' & Hrun & _).
    eexists db', _, _. split; [exact Hrun|]. apply rebuildDoc_unapproved.
  - intros id suggestion approver approvedAt. unfold suggestionRow. cbn [fst snd].
    by rewrite !lookup_insert_ne by other_key.
Qed.

Lemma approval_is_lost_on_reload_witness :
  exists db' permissions loaded,
    loadProjectState healthyEnv (lit "room1") cyclicDoc 0 staleDb
    = (db', Resolved (permissions, loaded))
    /\ forall id entry, editor_suggestions loaded !! id = Some entry -> unapproved entry.
Proof.
  refine (proj1 (approval_is_lost_on_reload healthyEnv (lit "room1") cyclicDoc 0%Z
                   staleDb _ _)).
  - reflexivity.
  - repeat constructor.
Defined.

(** *** The key of the login rate limit *)

Lemma getRequestIp_nonempty (forwarded ip remoteAddress : option jsstring) :
  truthy (getRequestIp forwarded ip remoteAddress) = true.
Proof.
  assert (Hfallback : truthy (orElse ip (orElse remoteAddress (lit "unknown"))) = true).
  { unfold orElse. destruct ip as [a|]; [destruct (truthy a) eqn:Ha; [done|]|];
      (destruct remoteAddress as [b|]; [destruct (truthy b) eqn:Hb; [done|]|]);
      reflexivity. }
  unfold getRequestIp. destruct forwarded as [header|]; [|done].
  destruct (truthy header); [|done].
  destruct (splitOn 44 [] header) as [|first rest]; [done|].
  by destruct (truthy (trim first)) eqn:Hfirst.
Qed.

(** *** Paths through the rebuilt tree *)

Lemma separator_inj (sep : N) (p q a b : jsstring) :
  sep ∉ p -> sep ∉ q -> p ++ sep :: a = q ++ sep :: b -> p = q /\ a = b.
Proof.
  revert q. induction p as [|c p IH]; intros [|c' q] Hp Hq; cbn.
  - by intros [= ->].
  - intros [= <- _]. exfalso. apply Hq. by left.
  - intros [= -> _]. exfalso. apply Hp. by left.
  - intros [= <- Heq]. apply not_elem_of_cons in Hp as [_ Hp].
    apply not_elem_of_cons in Hq as [_ Hq].
    destruct (IH q Hp Hq Heq) as [-> ->]. done.
Qed.

Lemma join_cons2 (sep p q : jsstring) (rest : list jsstring) :
  join sep (p :: q :: rest) = p ++ sep ++ join sep (q :: rest).
Proof. done. Qed.

Lemma join_slash_inj (ps qs : list jsstring) :
  Forall okPart ps -> Forall okPart qs ->
  join (lit "/") ps = join (lit "/") qs -> ps = qs.
Proof.
  change (lit "/") with [47].
  intros Hps. revert qs. induction Hps as [|p ps [Hp Hslash] Hps IH]; intros qs Hqs.
  - destruct Hqs as [|q qs [Hq _] _]; [done|].
    destruct qs; cbn; [by intros <-|by destruct q].
  - destruct Hqs as [|q qs [Hq Hslash'] Hqs].
    { destruct ps; cbn; [by intros ->|by destruct p]. }
    destruct ps as [|p' ps]; destruct qs as [|q' qs].
    + cbn. by intros ->.
    + rewrite join_cons2. cbn [join app]. intros ->. exfalso. apply Hslash.
      apply elem_of_app. right. by left.
    + rewrite join_cons2. cbn [join app]. intros <-. exfalso. apply Hslash'.
      apply elem_of_app. right. by left.
    + rewrite !join_cons2. cbn [app]. intros Heq.
      apply separator_inj in Heq as [-> Heq]; [|done|done].
      f_equal. by apply IH.
Qed.

Lemma folderId_inj (ps qs : list jsstring) :
  Forall okPart ps -> Forall okPart qs -> folderId ps = folderId qs -> ps = qs.
Proof.
  intros Hps Hqs Heq. unfold folderId in Heq. apply app_inv_head in Heq.
  by apply join_slash_inj.
Qed.

Lemma folderId_prefix (folders : list jsstring) : take 7 (folderId folders) = lit "folder:".
Proof. done. Qed.

Lemma folderId_truthy (folders : list jsstring) : truthy (folderId folders) = true.
Proof. done. Qed.

Lemma elem_of_rev_iff {A} (x : A) (l : list A) : x ∈ rev l <-> x ∈ l.
Proof. rewrite !list_elem_of_In. symmetry. apply in_rev. Qed.

Lemma splitOn_slashfree (current s : jsstring) :
  47 ∉ current -> Forall (fun part => 47 ∉ part) (splitOn 47 current s).
Proof.
  revert current. induction s as [|c s IH]; intros current Hcur; cbn.
  - apply Forall_singleton. by rewrite elem_of_rev_iff.
  - destruct (c =? 47) eqn:E.
    + apply Forall_cons. split; [by rewrite elem_of_rev_iff|].
      apply IH, not_elem_of_nil.
    + apply IH. apply not_elem_of_cons. split; [|done].
      intros <-. by rewrite N.eqb_refl in E.
Qed.

Lemma pathParts_ok (path : jsstring) : Forall okPart (pathParts path).
Proof.
  unfold pathParts. apply List.Forall_forall. intros part Hin.
  apply list_elem_of_In, list_elem_of_filter in Hin as [Hlen Hin]. split.
  - intros ->. cbn in Hlen. lia.
  - pose proof (splitOn_slashfree [] path (not_elem_of_nil _)) as Hall.
    rewrite List.Forall_forall in Hall. by apply Hall, list_elem_of_In.
Qed.

Lemma splitOn_join (names : list jsstring) :
  names <> [] -> Forall okPart names -> splitOn 47 [] (join (lit "/") names) = names.
Proof.
  change (lit "/") with [47].
  intros Hne Hall. induction Hall as [|p ps [_ Hp] Hps IH]; [done|].
  destruct ps as [|q ps].
  - cbn [join]. by rewrite splitOn_without.
  - rewrite join_cons2. cbn [app]. rewrite splitOn_at by done. cbn [rev app].
    f_equal. by apply IH.
Qed.

Lemma pathParts_join (names : list jsstring) :
  names <> [] -> Forall okPart names -> pathParts (join (lit "/") names) = names.
Proof.
  intros Hne Hall. unfold pathParts. rewrite splitOn_join by done.
  clear Hne. induction Hall as [|p ps [Hp _] _ IH]; [done|].
  rewrite filter_cons_True; [by rewrite IH|]. destruct p; [done|cbn; lia].
Qed.

Lemma nodeNamesOf_parts (fileId path : jsstring) :
  nodeNamesOf fileId path
  = match pathParts path with [] => [fileId] | parts => parts end.
Proof.
  unfold nodeNamesOf, folderPartsOf, fileNameOf.
  destruct (pathParts path) as [|p ps] eqn:E; [done|].
  change (0 <? length (p :: ps))%nat with true. cbn [Nat.max length Nat.sub].
  rewrite Nat.sub_0_r.
  rewrite <- (removelast_firstn_len (p :: ps)) at 1.
  replace (Nat.max 0 (length ps)) with (Init.Nat.pred (length (p :: ps))) by (cbn; lia).
  rewrite <- app_removelast_last; done.
Qed.

Lemma shapeOf_insert (treeNodes : gmap jsstring (gmap jsstring YValue))
    (id name kind : jsstring) (parentId : option jsstring) :
  shapeOf (<[id := newTreeNode name kind parentId]> treeNodes) id
  = Some (Some (YStr name),
          Some (match parentId with Some p => YStr p | None => YNull end)).
Proof.
  unfold shapeOf, newTreeNode. rewrite lookup_insert_eq. cbn [fmap option_fmap option_map].
  rewrite lookup_insert_eq.
  by rewrite !(lookup_insert_ne _ _ (lit "parentId")) by other_key;
    rewrite lookup_insert_eq.
Qed.

Lemma shapeOf_insert_ne (treeNodes : gmap jsstring (gmap jsstring YValue))
    (id other : jsstring) (node : gmap jsstring YValue) :
  other <> id -> shapeOf (<[id := node]> treeNodes) other = shapeOf treeNodes other.
Proof. intros Hne. unfold shapeOf. by rewrite lookup_insert_ne. Qed.

Lemma shapeOf_insert_mono (treeNodes : gmap jsstring (gmap jsstring YValue))
    (id other : jsstring) (node : gmap jsstring YValue) :
  is_Some (shapeOf treeNodes other) -> is_Some (shapeOf (<[id := node]> treeNodes) other).
Proof.
  unfold shapeOf. rewrite !fmap_is_Some. destruct (decide (other = id)) as [->|Hne].
  - by rewrite lookup_insert_eq.
  - by rewrite lookup_insert_ne.
Qed.

Lemma shapeOf_attachChild (parentId : option jsstring) (childId : jsstring) (d : Doc)
    (id : jsstring) :
  shapeOf (file_tree_nodes (attachChild parentId childId d)) id
  = shapeOf (file_tree_nodes d) id.
Proof.
  unfold attachChild. destruct parentId as [p|]; [|done].
  destruct (file_tree_nodes d !! p) as [node|] eqn:Hp; [|done].
  destruct (node !! lit "children") as [[]|]; try done.
  cbn [file_tree_nodes]. unfold shapeOf.
  destruct (decide (id = p)) as [->|Hne].
  - rewrite lookup_insert_eq, Hp. cbn.
    by rewrite !lookup_insert_ne by other_key.
  - by rewrite lookup_insert_ne.
Qed.

(** A new folder node, put under an id that was free. *)
Lemma treeInv_new_folder (treeNodes : gmap jsstring (gmap jsstring YValue))
    (loaded : list (jsstring * FileRecord)) (seen : list jsstring) (name : jsstring) :
  treeInv treeNodes loaded ->
  Forall (fun f : jsstring * FileRecord => plainFileId f.1) loaded ->
  Forall okPart (seen ++ [name]) ->
  (seen <> [] -> is_Some (shapeOf treeNodes (folderId seen))) ->
  treeInv (<[folderId (seen ++ [name])
             := newTreeNode name (lit "folder")
                  (match seen with [] => None | _ => Some (folderId seen) end)]> treeNodes)
          loaded.
Proof.
  intros [Hfolders Hfiles] Hplain Hok Hparent. split.
  - intros folders name' Hok' Hsome.
    destruct (decide (folderId (folders ++ [name']) = folderId (seen ++ [name])))
      as [Heq|Hne].
    + pose proof (folderId_inj _ _ Hok' Hok Heq) as Hsame.
      apply app_inj_tail in Hsame as [-> ->].
      rewrite shapeOf_insert. split.
      * by destruct seen.
      * intros Hseen. by apply shapeOf_insert_mono, Hparent.
    + rewrite shapeOf_insert_ne in Hsome |- * by done.
      destruct (Hfolders folders name' Hok' Hsome) as [Hshape Hup].
      split; [done|]. intros Hf. by apply shapeOf_insert_mono, Hup.
  - intros f Hf. destruct (Hfiles f Hf) as [Hshape Hup].
    rewrite List.Forall_forall in Hplain.
    destruct (Hplain f (proj1 (list_elem_of_In _ _) Hf)) as [_ Hprefix].
    rewrite shapeOf_insert_ne.
    + split; [done|]. intros Hne. by apply shapeOf_insert_mono, Hup.
    + intros Heq. apply Hprefix. by rewrite Heq.
Qed.

(** The inner loop: the folders of one path. *)
Lemma loadFolders_treeInv (loaded : list (jsstring * FileRecord))
    (seen todo : list jsstring) (d : Doc) :
  treeInv (file_tree_nodes d) loaded ->
  Forall (fun f : jsstring * FileRecord => plainFileId f.1) loaded ->
  Forall okPart (seen ++ todo) ->
  (seen <> [] -> is_Some (shapeOf (file_tree_nodes d) (folderId seen))) ->
  let result := loadFolders seen todo
                  (match seen with [] => None | _ => Some (folderId seen) end) d in
  treeInv (file_tree_nodes result.2) loaded
  /\ result.1 = match seen ++ todo with [] => None | _ => Some (folderId (seen ++ todo)) end
  /\ (seen ++ todo <> [] ->
      is_Some (shapeOf (file_tree_nodes result.2) (folderId (seen ++ todo)))).
Proof.
  revert seen d. induction todo as [|name rest IH];
    intros seen d Hinv Hplain Hok Hparent; cbv zeta.
  - cbn [loadFolders fst snd]. rewrite app_nil_r. by split.
  - cbv zeta in IH. cbn [loadFolders].
    change (lit "folder:" ++ join (lit "/") (seen ++ [name]))
      with (folderId (seen ++ [name])).
    assert (Hok1 : Forall okPart (seen ++ [name])).
    { rewrite (cons_middle name seen rest), app_assoc in Hok.
      by apply Forall_app in Hok as [Hok _]. }
    assert (Hnext : Some (folderId (seen ++ [name]))
                    = match seen ++ [name] with
                      | [] => None | _ => Some (folderId (seen ++ [name])) end)
      by (by destruct seen).
    rewrite Hnext.
    rewrite (cons_middle name seen rest), app_assoc.
    destruct (file_tree_nodes d !! folderId (seen ++ [name])) as [node|] eqn:Hnode.
    + apply IH; [done|done|by rewrite <- app_assoc|].
      intros _. unfold shapeOf. by rewrite Hnode.
    + set (parentFolderId := match seen with [] => None | _ => Some (folderId seen) end).
      set (created := attachChild (truthyId parentFolderId) (folderId (seen ++ [name]))
                        (setTreeNode (folderId (seen ++ [name]))
                           (newTreeNode name (lit "folder") parentFolderId) d)).
      assert (Hshape : forall id, shapeOf (file_tree_nodes created) id
                = shapeOf (<[folderId (seen ++ [name])
                             := newTreeNode name (lit "folder") parentFolderId]>
                             (file_tree_nodes d)) id).
      { intros id. subst created. by rewrite shapeOf_attachChild. }
      assert (Hinv' : treeInv (file_tree_nodes created) loaded).
      { pose proof (treeInv_new_folder _ _ seen name Hinv Hplain Hok1 Hparent)
          as [Hfolders Hfiles].
        split.
        - intros folders name'. rewrite !Hshape. intros Hok' Hsome.
          destruct (Hfolders folders name' Hok' Hsome) as [H1 H2].
          split; [done|]. intros Hne. by apply H2.
        - intros f Hf. rewrite !Hshape. destruct (Hfiles f Hf) as [H1 H2].
          split; [done|]. intros Hne. by apply H2. }
      apply IH; [done|done|by rewrite <- app_assoc|].
      intros _. rewrite Hshape, shapeOf_insert. by eexists.
Qed.

(** The outer loop body: one file. *)
Lemma loadFile_treeInv (loaded : list (jsstring * FileRecord))
    (f : jsstring * FileRecord) (d : Doc) :
  treeInv (file_tree_nodes d) loaded ->
  Forall (fun g : jsstring * FileRecord => plainFileId g.1) loaded ->
  plainFileId f.1 ->
  f.1 ∉ loaded.*1 ->
  treeInv (file_tree_nodes (loadFile f d)) (f :: loaded).
Proof.
  intros Hinv Hplain [_ Hprefix] Hfresh. unfold loadFile.
  change (filter (fun part => (0 < length part)%nat) (splitOn 47 [] (file_path f.2)))
    with (pathParts (file_path f.2)).
  change (take (Nat.max 0 (length (pathParts (file_path f.2)) - 1))
               (pathParts (file_path f.2)))
    with (folderPartsOf (file_path f.2)).
  change (if (0 <? length (pathParts (file_path f.2)))%nat
          then List.last (pathParts (file_path f.2)) f.1 else f.1)
    with (fileNameOf f.1 (file_path f.2)).
  set (doc1 := {| editor_files := <[f.1 := file_content f.2]> (editor_files d);
                  file_tree_nodes := file_tree_nodes d;
                  file_tree_roots := file_tree_roots d;
                  editor_suggestions := editor_suggestions d;
                  other := other d |}).
  assert (Hok : Forall okPart ([] ++ folderPartsOf (file_path f.2))).
  { apply Forall_take, pathParts_ok. }
  destruct (loadFolders_treeInv loaded [] (folderPartsOf (file_path f.2)) doc1
              Hinv Hplain Hok (fun H => False_ind _ (H eq_refl)))
    as (Hinv2 & Hparent & Hexists).
  cbn [app] in Hparent, Hexists.
  destruct (loadFolders [] (folderPartsOf (file_path f.2)) None doc1)
    as [parentFolderId doc2].
  cbn [fst snd] in *. subst parentFolderId.
  set (parentFolderId := match folderPartsOf (file_path f.2) with
                         | [] => None
                         | _ => Some (folderId (folderPartsOf (file_path f.2)))
                         end).
  assert (Hshape : forall id,
            shapeOf (file_tree_nodes
                       (attachChild (truthyId parentFolderId) f.1
                          (setTreeNode f.1
                             (newTreeNode (fileNameOf f.1 (file_path f.2)) (lit "file")
                                parentFolderId) doc2))) id
            = shapeOf (<[f.1 := newTreeNode (fileNameOf f.1 (file_path f.2)) (lit "file")
                                  parentFolderId]> (file_tree_nodes doc2)) id).
  { intros id. by rewrite shapeOf_attachChild. }
  destruct Hinv2 as [Hfolders Hfiles]. split.
  - intros folders name Hok'. rewrite !Hshape.
    assert (Hne : folderId (folders ++ [name]) <> f.1).
    { intros Heq. apply Hprefix. by rewrite <- Heq. }
    rewrite shapeOf_insert_ne by done. intros Hsome.
    destruct (Hfolders folders name Hok' Hsome) as [H1 H2].
    split; [done|]. intros Hf. by apply shapeOf_insert_mono, H2.
  - intros g Hg. rewrite !Hshape. apply elem_of_cons in Hg as [->|Hg].
    + rewrite shapeOf_insert. split.
      * subst parentFolderId. by destruct (folderPartsOf (file_path f.2)).
      * intros Hne. by apply shapeOf_insert_mono, Hexists.
    + destruct (Hfiles g Hg) as [H1 H2].
      rewrite shapeOf_insert_ne.
      * split; [done|]. intros Hne. by apply shapeOf_insert_mono, H2.
      * intros Heq. apply Hfresh. rewrite <- Heq. apply list_elem_of_fmap. by exists g.
Qed.

Lemma loadFiles_treeInv (fileRecords loaded : list (jsstring * FileRecord)) (d : Doc) :
  treeInv (file_tree_nodes d) loaded ->
  NoDup (loaded ++ fileRecords).*1 ->
  Forall (fun f : jsstring * FileRecord => plainFileId f.1) (loaded ++ fileRecords) ->
  exists all,
    (forall f, f ∈ all <-> f ∈ loaded ++ fileRecords)
    /\ treeInv (file_tree_nodes (foldl (fun d f => loadFile f d) d fileRecords)) all.
Proof.
  revert loaded d. induction fileRecords as [|f rest IH]; intros loaded d Hinv Hnd Hplain.
  - exists loaded. rewrite app_nil_r. by split.
  - cbn [foldl].
    assert (Hfresh : f.1 ∉ loaded.*1).
    { rewrite fmap_app in Hnd. apply NoDup_app in Hnd as (_ & Hdisj & _).
      intros Hin. apply (Hdisj _ Hin). cbn. by left. }
    assert (Hpf : plainFileId f.1).
    { rewrite List.Forall_forall in Hplain. apply Hplain, in_elt. }
    assert (Hpl : Forall (fun g : jsstring * FileRecord => plainFileId g.1) loaded).
    { by apply Forall_app in Hplain as [Hpl _]. }
    destruct (IH (f :: loaded) (loadFile f d)) as (all & Hall & Hdone).
    + by apply loadFile_treeInv.
    + cbn [fmap list_fmap app]. rewrite fmap_app in Hnd |- *. cbn in Hnd.
      apply NoDup_cons. apply NoDup_app in Hnd as (Hl & Hdisj & Hr).
      apply NoDup_cons in Hr as [Hf Hr]. split.
      * intros Hin. apply elem_of_app in Hin as [Hin|Hin]; [|done].
        apply (Hdisj _ Hin). by left.
      * apply NoDup_app. split; [done|]. split; [|done].
        intros x Hx Hx'. apply (Hdisj x Hx). by right.
    + cbn [app]. apply Forall_cons. split; [done|].
      apply Forall_app in Hplain as [H1 H2]. apply Forall_cons in H2 as [_ H2].
      by apply Forall_app.
    + exists all. split; [|done]. intros g. rewrite Hall. cbn [app].
      rewrite elem_of_cons, !elem_of_app, elem_of_cons. tauto.
Qed.

Lemma rebuildDoc_treeInv (env : DbEnv) (fileRecords : list (jsstring * FileRecord))
    (suggestionRecords : list (jsstring * SuggestionRecord)) (d : Doc) :
  NoDup fileRecords.*1 ->
  Forall (fun f : jsstring * FileRecord => plainFileId f.1) fileRecords ->
  exists all,
    (forall f, f ∈ all <-> f ∈ fileRecords)
    /\ treeInv (file_tree_nodes (rebuildDoc env fileRecords suggestionRecords d)) all.
Proof.
  intros Hnd Hplain. unfold rebuildDoc.
  set (cleared := {| editor_files := ∅; file_tree_nodes := ∅; file_tree_roots := [];
                     editor_suggestions := ∅; other := other d |}).
  assert (Hsugg : forall srs d0,
            file_tree_nodes (foldl (fun d s => loadSuggestion env s d) d0 srs)
            = file_tree_nodes d0).
  { induction srs as [|sg srs IH]; intros d0; [done|]. cbn. rewrite IH.
    unfold loadSuggestion. by destruct (_ || _). }
  rewrite Hsugg.
  apply (loadFiles_treeInv fileRecords [] cleared); [|done|done].
  split.
  - intros folders name _ [shape Hshape]. unfold shapeOf, cleared in Hshape.
    cbn [file_tree_nodes] in Hshape. by rewrite lookup_empty in Hshape.
  - intros f Hf. by apply elem_of_nil in Hf.
Qed.

Lemma shapeOf_Some (treeNodes : gmap jsstring (gmap jsstring YValue)) (id : jsstring)
    (name parent : option YValue) :
  shapeOf treeNodes id = Some (name, parent) ->
  exists node, treeNodes !! id = Some node
               /\ node !! lit "name" = name /\ node !! lit "parentId" = parent.
Proof.
  unfold shapeOf. destruct (treeNodes !! id) as [node|]; [|done].
  cbn. intros [= <- <-]. by exists node.
Qed.

Lemma folder_chain (treeNodes : gmap jsstring (gmap jsstring YValue))
    (loaded : list (jsstring * FileRecord)) (folders : list jsstring) :
  treeInv treeNodes loaded ->
  folders <> [] ->
  Forall okPart folders ->
  is_Some (shapeOf treeNodes (folderId folders)) ->
  pathChain treeNodes (folderId folders) (rev folders).
Proof.
  intros [Hfolders _]. induction folders as [|name folders IH] using rev_ind; [done|].
  intros _ Hok Hsome. destruct (Hfolders folders name Hok Hsome) as [Hshape Hup].
  apply shapeOf_Some in Hshape as (node & Hnode & Hname & Hparent).
  rewrite rev_unit. destruct folders as [|first folders'].
  - by eapply chain_root.
  - eapply chain_up; [done|exact Hnode|exact Hname|exact Hparent|].
    apply IH; [done| |by apply Hup].
    by apply Forall_app in Hok as [Hok _].
Qed.

Lemma file_chain (treeNodes : gmap jsstring (gmap jsstring YValue))
    (loaded : list (jsstring * FileRecord)) (f : jsstring * FileRecord) :
  treeInv treeNodes loaded ->
  f ∈ loaded ->
  f.1 <> [] ->
  pathChain treeNodes f.1 (rev (nodeNamesOf f.1 (file_path f.2))).
Proof.
  intros Hinv Hf Hid. destruct (proj2 Hinv f Hf) as [Hshape Hup].
  apply shapeOf_Some in Hshape as (node & Hnode & Hname & Hparent).
  assert (Ht : truthy f.1 = true) by (by destruct f.1).
  unfold nodeNamesOf. rewrite rev_unit.
  destruct (folderPartsOf (file_path f.2)) as [|first folders'] eqn:Hfolders.
  - by eapply chain_root.
  - eapply chain_up; [done|exact Hnode|exact Hname|exact Hparent|].
    eapply folder_chain; [exact Hinv|done| |by apply Hup].
    rewrite <- Hfolders. apply Forall_take, pathParts_ok.
Qed.

Lemma buildFilePathFromTree_of_chain (treeNodes : gmap jsstring (gmap jsstring YValue))
    (id : jsstring) (names : list jsstring) :
  pathChain treeNodes id names ->
  buildFilePathFromTree id treeNodes
  = Some (join (lit "/") (rev (map sanitizePathSegment names))).
Proof.
  intros Hchain. unfold buildFilePathFromTree.
  pose proof (walkLoop_terminates id treeNodes) as Hfuel.
  destruct (walkLoop_chain (S (size treeNodes)) treeNodes ∅ [] id names Hchain)
    as [H|H]; [set_solver|done|].
  rewrite H. cbn [app].
  apply pathChain_start in Hchain as (_ & _ & Hne).
  by destruct names.
Qed.

(** X28. The tree that [loadProjectState] rebuilds gives every file its
    stored path back. For file records with distinct ids, none of them empty
    or starting with [folder:], [buildFilePathFromTree] on the rebuilt tree
    returns, for each file, the non-empty parts of its stored path, sanitized
    and joined by slashes (or the sanitized file id when the stored path has
    no such part), whatever the order of the records and whatever folders
    they share. *)
Theorem rebuilt_tree_gives_the_stored_paths (env : DbEnv)
    (fileRecords : list (jsstring * FileRecord))
    (suggestionRecords : list (jsstring * SuggestionRecord)) (d : Doc)
    (f : jsstring * FileRecord) :
  NoDup fileRecords.*1 ->
  Forall (fun g : jsstring * FileRecord => plainFileId g.1) fileRecords ->
  f ∈ fileRecords ->
  buildFilePathFromTree f.1
    (file_tree_nodes (rebuildDoc env fileRecords suggestionRecords d))
  = Some (join (lit "/")
            (map sanitizePathSegment
               (match pathParts (file_path f.2) with
                | [] => [f.1]
                | parts => parts
                end))).
Proof.
  intros Hnd Hplain Hf.
  destruct (rebuildDoc_treeInv env fileRecords suggestionRecords d Hnd Hplain)
    as (all & Hall & Hinv).
  assert (Hid : f.1 <> []).
  { rewrite List.Forall_forall in Hplain.
    by destruct (Hplain f (proj1 (list_elem_of_In _ _) Hf)). }
  rewrite (buildFilePathFromTree_of_chain _ _ _
             (file_chain _ all f Hinv (proj2 (Hall f) Hf) Hid)).
  by rewrite <- map_rev, rev_involutive, nodeNamesOf_parts.
Qed.

Lemma rebuilt_tree_gives_the_stored_paths_witness :
  buildFilePathFromTree (lit "f2")
    (file_tree_nodes (rebuildDoc healthyEnv sampleFiles [] emptyDoc))
  = Some (lit "src/lib/util.ts").
Proof.
  etransitivity.
  - apply (rebuilt_tree_gives_the_stored_paths healthyEnv sampleFiles [] emptyDoc
             (lit "f2", {| file_project_id := lit "room1";
                           file_path := lit "src/lib/util.ts";
                           file_content := [] |})).
    + apply (bool_decide_unpack _). vm_compute. exact I.
    + repeat constructor; other_key.
    + apply list_elem_of_further, list_elem_of_here.
  - vm_compute. reflexivity.
Defined.

(** *** Stored paths are in normal form *)

Lemma sanitize_trim_fixed (s : jsstring) :
  trim (sanitizePathSegment s) = sanitizePathSegment s.
Proof.
  unfold sanitizePathSegment.
  destruct (0 <? length (trim (replaceForbidden s)))%nat.
  - apply trim_idempotent.
  - by vm_compute.
Qed.

Lemma sanitize_fixed (s : jsstring) :
  Forall (fun c => forbiddenInPath c = false) s -> trim s = s -> s <> [] ->
  sanitizePathSegment s = s.
Proof.
  intros Hclean Htrim Hne. unfold sanitizePathSegment.
  rewrite (replaceForbidden_clean _ Hclean), Htrim. by destruct s.
Qed.

Lemma sanitize_sanitize (s : jsstring) :
  sanitizePathSegment (sanitizePathSegment s) = sanitizePathSegment s.
Proof.
  apply sanitize_fixed;
    [apply sanitizePathSegment_clean|apply sanitize_trim_fixed
    |apply sanitizePathSegment_nonempty].
Qed.

Lemma sanitized_okPart (name : jsstring) : sanitizePathSegment name = name -> okPart name.
Proof.
  intros Hfix. split.
  - rewrite <- Hfix. apply sanitizePathSegment_nonempty.
  - rewrite <- Hfix. intros Hin.
    pose proof (sanitizePathSegment_clean name) as Hclean.
    rewrite Forall_forall in Hclean. by specialize (Hclean _ Hin).
Qed.

Lemma fallbackName_sanitized (fileId : jsstring) :
  sanitizePathSegment (sanitizePathSegment fileId ++ lit ".txt")
  = sanitizePathSegment fileId ++ lit ".txt".
Proof.
  apply sanitize_fixed.
  - apply Forall_app. split; [apply sanitizePathSegment_clean|].
    by apply (bool_decide_unpack _).
  - pose proof (sanitize_trim_fixed fileId) as Hfix.
    pose proof (sanitizePathSegment_nonempty fileId) as Hne.
    destruct (trim_head (sanitizePathSegment fileId)) as [Hhead _].
    rewrite Hfix in Hhead.
    apply trim_fixed.
    + by destruct (sanitizePathSegment fileId).
    + by rewrite rev_app_distr.
  - pose proof (sanitizePathSegment_nonempty fileId).
    by destruct (sanitizePathSegment fileId).
Qed.

(** A path built by [persistProjectState] is a join of sanitized names. *)
Lemma stored_path_normal (treeNodes : gmap jsstring (gmap jsstring YValue))
    (fileId : jsstring) :
  exists names,
    names <> []
    /\ Forall (fun name => sanitizePathSegment name = name) names
    /\ default (lit "files/" ++ sanitizePathSegment fileId ++ lit ".txt")
         (buildFilePathFromTree fileId treeNodes)
       = join (lit "/") names.
Proof.
  destruct (buildFilePathFromTree fileId treeNodes) as [path|] eqn:Hpath; cbn [default].
  - unfold buildFilePathFromTree in Hpath.
    destruct (walkLoop _ _ _ _ _) as [|collected|] eqn:Hloop; try done.
    destruct (length collected =? 0)%nat eqn:Hlen; [done|].
    injection Hpath as <-.
    apply walkLoop_done in Hloop as [[Hnil _]|(chain & Hchain & Heq)];
      [by rewrite Hnil in Hlen|].
    cbn [app] in Heq. exists (rev collected). split; [|split; [|done]].
    + intros E. apply (f_equal (@rev jsstring)) in E.
      rewrite rev_involutive in E. by rewrite E in Hlen.
    + apply Forall_rev. rewrite Heq. apply List.Forall_forall.
      intros part Hin. apply in_map_iff in Hin as (name & <- & _).
      apply sanitize_sanitize.
  - exists [lit "files"; sanitizePathSegment fileId ++ lit ".txt"].
    split; [done|]. split; [|done].
    apply Forall_cons. split; [by vm_compute|].
    apply Forall_singleton, fallbackName_sanitized.
Qed.

Lemma normal_path_parts (fileId : jsstring) (names : list jsstring) :
  names <> [] ->
  Forall (fun name => sanitizePathSegment name = name) names ->
  join (lit "/")
    (map sanitizePathSegment
       (match pathParts (join (lit "/") names) with
        | [] => [fileId]
        | parts => parts
        end))
  = join (lit "/") names.
Proof.
  intros Hne Hall.
  rewrite pathParts_join; [|done|by eapply Forall_impl; [exact Hall|apply sanitized_okPart]].
  assert (Hmap : map sanitizePathSegment names = names).
  { clear Hne. induction Hall as [|n ns Hn _ IH]; [done|]. cbn. by rewrite Hn, IH. }
  destruct names as [|name names]; [done|]. by rewrite Hmap.
Qed.

(** X29. Paths survive the round trip through the store. After
    [persistProjectState] has written a document none of whose file ids is
    empty or starts with [folder:], the tree that [loadProjectState] rebuilds
    for the project gives every file of the document exactly the path that
    was stored for it: the path derived from the tree that was saved or, for
    a file that tree gave no path, [files/<sanitized id>.txt]. *)
Theorem reload_restores_saved_paths (env : DbEnv) (projectId : jsstring)
    (saved docAtSuggestions target : Doc) (now joinDate now' : Z) (db : Db)
    (fileId content : jsstring) :
  (ensureDbConnection env db).2 = Resolved true ->
  (forall op, opFails env op = false) ->
  (forall id, is_Some (editor_files saved !! id) -> plainFileId id) ->
  editor_files saved !! fileId = Some content ->
  let settled := persistProjectState env projectId saved docAtSuggestions
                   now joinDate db in
  exists db' permissions loaded,
    loadProjectState env projectId target now' settled.1
    = (db', Resolved (permissions, loaded))
    /\ buildFilePathFromTree fileId (file_tree_nodes loaded)
       = Some (default (lit "files/" ++ sanitizePathSegment fileId ++ lit ".txt")
                       (buildFilePathFromTree fileId (file_tree_nodes saved))).
Proof.
  intros Hconn Hok Hplain Hfile settled.
  destruct (persist_settles env projectId saved docAtSuggestions now joinDate db
              Hconn Hok) as (_ & Hcache & Hfiles & _).
  fold settled in Hcache, Hfiles.
  assert (Hconn' : (ensureDbConnection env settled.1).2 = Resolved true).
  { unfold ensureDbConnection. by rewrite Hcache. }
  assert (Hcalls : Forall (fun op => opFails env op = false) loadCalls).
  { apply List.Forall_forall. intros op _. apply Hok. }
  destruct (load_settles env projectId target now' settled.1 Hconn' Hcalls)
    as (db' & Hrun & _).
  eexists db', _, _. split; [exact Hrun|].
  destruct (findByProject_spec file_project_id projectId (files (store settled.1)))
    as [Hnd Hin].
  set (fileRecords := findByProject file_project_id projectId (files (store settled.1)))
    in *.
  set (path := default (lit "files/" ++ sanitizePathSegment fileId ++ lit ".txt")
                       (buildFilePathFromTree fileId (file_tree_nodes saved))).
  set (f := (fileId, {| file_project_id := projectId; file_path := path;
                        file_content := content |})).
  assert (Hf : f ∈ fileRecords).
  { apply Hin. by rewrite Hfiles, Hfile. }
  assert (Hall : Forall (fun g : jsstring * FileRecord => plainFileId g.1) fileRecords).
  { apply List.Forall_forall. intros [k r] Hk.
    apply list_elem_of_In, Hin in Hk as [Hk Hproject]. cbn [fst].
    rewrite Hfiles in Hk. destruct (editor_files saved !! k) eqn:Hsaved.
    - apply Hplain. by rewrite Hsaved.
    - unfold survivor in Hk. destruct (files (store db) !! k) as [old|]; [|done].
      destruct (decide (file_project_id old = projectId)); [done|]. congruence. }
  destruct (rebuildDoc_treeInv env fileRecords
              (findByProject suggestion_project_id projectId
                 (suggestions (store settled.1))) target Hnd Hall)
    as (all & Hsame & Hinv).
  assert (Hid : f.1 <> []).
  { destruct (Hplain fileId) as [Hne _]; [by rewrite Hfile|done]. }
  pose proof (buildFilePathFromTree_of_chain _ _ _
                (file_chain _ all f Hinv (proj2 (Hsame f) Hf) Hid)) as Hbuilt.
  rewrite <- map_rev, rev_involutive, nodeNamesOf_parts in Hbuilt.
  change (f.1) with fileId in Hbuilt. change (file_path f.2) with path in Hbuilt.
  rewrite Hbuilt.
  destruct (stored_path_normal (file_tree_nodes saved) fileId)
    as (names & Hne & Hnames & Hpath).
  fold path in Hpath. rewrite Hpath. f_equal. by apply normal_path_parts.
Qed.

Lemma reload_restores_saved_paths_witness :
  exists db' permissions loaded,
    loadProjectState healthyEnv (lit "room1") brokenDoc 1
      (persistProjectState healthyEnv (lit "room1") cyclicDoc brokenDoc 0 0 staleDb).1
    = (db', Resolved (permissions, loaded))
    /\ buildFilePathFromTree (lit "f") (file_tree_nodes loaded)
       = Some (default (lit "files/" ++ sanitizePathSegment (lit "f") ++ lit ".txt")
                       (buildFilePathFromTree (lit "f") (file_tree_nodes cyclicDoc))).
Proof.
  apply (reload_restores_saved_paths healthyEnv (lit "room1") cyclicDoc brokenDoc
           brokenDoc 0%Z 0%Z 1%Z staleDb (lit "f") (lit "let x = 1")).
  - reflexivity.
  - intros op. reflexivity.
  - intros id [c Hc]. unfold cyclicDoc in Hc. cbn [editor_files] in Hc.
    apply lookup_singleton_Some in Hc as [<- _]. split; other_key.
  - reflexivity.
Defined.

(** *** Users written by a flush *)

Lemma rolesKept_users (before : gmap jsstring UserRecord) (st st' : Store) :
  users st' = users st -> rolesKept before st -> rolesKept before st'.
Proof. unfold rolesKept. by intros ->. Qed.

Lemma upsertAuthors_rolesKept (before : gmap jsstring UserRecord)
    (rows : list SuggestionRow) (joinDate : Z) (st : Store) :
  rolesKept before st ->
  rolesKept before (setUsers (upsertAuthors rows joinDate (users st)) st).
Proof.
  unfold rolesKept, upsertAuthors. cbn [users setUsers].
  generalize (users st). clear st.
  induction rows as [|row rows IH]; intros coll Hkept; [done|].
  cbn [foldl]. apply IH. destruct Hkept as [Hold Hnew].
  set (creatorId := suggestion_creator_id (row_record row)).
  destruct (coll !! creatorId) as [u1|] eqn:Hc; split.
  - intros id u Hu. destruct (decide (id = creatorId)) as [->|Hne].
    + rewrite lookup_insert_eq. destruct (Hold _ _ Hu) as (u' & Hu' & Hr & Ha & Hj).
      assert (u' = u1) by congruence. subst u'. by eexists.
    + rewrite lookup_insert_ne by done. by apply Hold.
  - intros id u'. destruct (decide (id = creatorId)) as [->|Hne].
    + rewrite lookup_insert_eq. intros [= <-] Hnone. cbn. by eapply Hnew.
    + rewrite lookup_insert_ne by done. apply Hnew.
  - intros id u Hu. destruct (decide (id = creatorId)) as [->|Hne].
    + destruct (Hold _ _ Hu) as (u' & Hu' & _). congruence.
    + rewrite lookup_insert_ne by done. by apply Hold.
  - intros id u'. destruct (decide (id = creatorId)) as [->|Hne].
    + rewrite lookup_insert_eq. by intros [= <-] _.
    + rewrite lookup_insert_ne by done. apply Hnew.
Qed.

(** X30. A flush never changes who may do what. However
    [persistProjectState] settles (resolved, or rejected at any of its store
    calls), every user that was stored before is still stored with the same
    role, avatar and join date, and every user the flush has added for the
    author of a suggestion is an editor. *)
Theorem persist_never_changes_a_role (env : DbEnv) (projectId : jsstring)
    (docAtFiles docAtSuggestions : Doc) (now joinDate : Z) (db : Db) :
  rolesKept (users (store db))
    (store (persistProjectState env projectId docAtFiles docAtSuggestions
              now joinDate db).1).
Proof.
  assert (Hkeeps : keeps (rolesKept (users (store db)))
                     (persistProjectState env projectId docAtFiles docAtSuggestions
                        now joinDate)).
  { unfold persistProjectState.
    apply keeps_andThen; [apply keeps_ensureDbConnection|]. intros connected.
    apply keeps_if; [apply keeps_resolve|].
    apply keeps_andThen.
    { apply keeps_storeCall. intros st. apply rolesKept_users.
      unfold upsertProject. by destruct (projects st !! projectId). }
    intros _. apply keeps_andThen.
    { apply keeps_if; [|apply keeps_resolve].
      apply keeps_storeCall. intros st. by apply rolesKept_users. }
    intros _. apply keeps_andThen.
    { apply keeps_storeCall. intros st. by apply rolesKept_users. }
    intros _. apply keeps_andThen.
    { apply keeps_if; [|apply keeps_resolve].
      apply keeps_andThen.
      - apply keeps_storeCall. intros st. by apply rolesKept_users.
      - intros _. apply keeps_storeCall. intros st. apply upsertAuthors_rolesKept. }
    intros _. apply keeps_storeCall. intros st. by apply rolesKept_users. }
  apply Hkeeps. split.
  - intros id u Hu. by exists u.
  - intros id u' Hu' Hnone. congruence.
Qed.
